(** * md-table-buddy: the table engine of [tableUtils.ts], embedded in Rocq

    The engine is a set of pure TypeScript functions over string arrays.
    The embedding keeps the shape of the source:

    - a JavaScript string is a list of characters ([str]); a character is a
      code unit below 256 (the Latin-1 range), so [trim], [\s], [\d] and
      [toLowerCase] are the restrictions of the JavaScript ones to that range;
    - a JavaScript number used as an index, a length or a width is a [Z];
      the two places where the source computes in IEEE doubles
      (proportional separator widths, numeric sort keys) go through
      [round_binary64], a correctly rounded model on rationals;
    - a call that throws, or that stores [undefined] where the declared type
      says [string], is made explicit by the [js] result type. *)

From Stdlib Require DecimalPos Permutation.
From Stdlib Require Import ZArith Ascii String DecimalString Bool Lia QArith Sorted List.
Import ListNotations.

Local Open Scope Z_scope.
Local Open Scope list_scope.

(* ====================================================================== *)
(** ** Strings *)
(* ====================================================================== *)

Definition str := list ascii.

Definition lit (s : string) : str := list_ascii_of_string s.

Definition chr (n : nat) : ascii := ascii_of_nat n.

Definition PIPE : ascii := chr 124.
Definition SPACE : ascii := chr 32.
Definition DASH : ascii := chr 45.
Definition COLON : ascii := chr 58.
Definition DOT : ascii := chr 46.
Definition DQUOTE : ascii := chr 34.
Definition LF : ascii := chr 10.
Definition CR : ascii := chr 13.
Definition TAB : ascii := chr 9.
Definition BACKTICK : ascii := chr 96.
Definition TILDE : ascii := chr 126.

Definition ceqb (a b : ascii) : bool := Ascii.eqb a b.

Fixpoint str_eqb (a b : str) : bool :=
  match a, b with
  | [], [] => true
  | x :: a', y :: b' => ceqb x y && str_eqb a' b'
  | _, _ => false
  end.

(** [s.length] *)
Definition len (s : str) : Z := Z.of_nat (length s).

(** The white space of [String.prototype.trim] and of the regular
    expression class [\s], below code 256: TAB, LF, VT, FF, CR, SPACE, NBSP. *)
Definition isWhite (c : ascii) : bool :=
  let n := nat_of_ascii c in
  (Nat.eqb n 9 || Nat.eqb n 10 || Nat.eqb n 11 || Nat.eqb n 12
   || Nat.eqb n 13 || Nat.eqb n 32 || Nat.eqb n 160)%bool.

(** The class [\d] (and [0-9]). *)
Definition isDigit (c : ascii) : bool :=
  let n := nat_of_ascii c in (Nat.leb 48 n && Nat.leb n 57)%bool.

Fixpoint dropWhile {A} (p : A -> bool) (l : list A) : list A :=
  match l with
  | [] => []
  | x :: tl => if p x then dropWhile p tl else l
  end.

Definition trimStart (s : str) : str := dropWhile isWhite s.
Definition trimEnd (s : str) : str := rev (dropWhile isWhite (rev s)).

(** [s.trim()] *)
Definition trim (s : str) : str := trimEnd (trimStart s).

(** [s.startsWith(p)] *)
Fixpoint startsWith (s p : str) {struct p} : bool :=
  match p, s with
  | [], _ => true
  | c :: p', d :: s' => ceqb c d && startsWith s' p'
  | _ :: _, [] => false
  end.

(** [s.endsWith(p)] *)
Definition endsWith (s p : str) : bool := startsWith (rev s) (rev p).

(** [s.includes(p)] *)
Fixpoint includes (s p : str) : bool :=
  startsWith s p ||
  match s with
  | [] => false
  | _ :: s' => includes s' p
  end.

(** [s.slice(1, -1)] *)
Definition slice_1_m1 (s : str) : str := removelast (tl s).

(** [s.substring(0, 3)] *)
Definition substring_0_3 (s : str) : str := firstn 3 s.

(** [s.split(c)] for a one-character separator: [cur] is the piece being
    read.  The result always has at least one piece. *)
Fixpoint split_on (c : ascii) (s : str) (cur : str) : list str :=
  match s with
  | [] => [cur]
  | x :: tl => if ceqb x c then cur :: split_on c tl [] else split_on c tl (cur ++ [x])
  end.

Definition split (c : ascii) (s : str) : list str := split_on c s [].

(** [pieces.join(sep)] *)
Fixpoint join (sep : str) (pieces : list str) : str :=
  match pieces with
  | [] => []
  | [p] => p
  | p :: tl => p ++ sep ++ join sep tl
  end.

(** [c.repeat(n)] for a one-character string and [n >= 0]. *)
Definition repeatc (c : ascii) (n : Z) : str := repeat c (Z.to_nat n).

(** [s.replace(/c/g, '')] *)
Definition removeAll (c : ascii) (s : str) : str :=
  filter (fun x => negb (ceqb x c)) s.

(** [String.prototype.toLowerCase] below code 256: A-Z, and the Latin-1
    capitals U+00C0..U+00DE except the multiplication sign U+00D7. *)
Definition lowerChar (c : ascii) : ascii :=
  let n := nat_of_ascii c in
  if (Nat.leb 65 n && Nat.leb n 90)%bool then chr (n + 32)
  else if (Nat.leb 192 n && Nat.leb n 222 && negb (Nat.eqb n 215))%bool then chr (n + 32)
  else c.

Definition toLowerCase (s : str) : str := map lowerChar s.

(** Array access [a[i]] for a number [i]: [None] is [undefined]. *)
Definition nthZ {A} (l : list A) (i : Z) : option A :=
  if i <? 0 then None else nth_error l (Z.to_nat i).

(** [a.map((x, i) => f(x, i))] *)
Fixpoint mapi_from {A B} (f : Z -> A -> B) (i : Z) (l : list A) : list B :=
  match l with
  | [] => []
  | x :: tl => f i x :: mapi_from f (i + 1) tl
  end.

Definition mapi {A B} (f : Z -> A -> B) (l : list A) : list B := mapi_from f 0 l.

(** [a.filter((_, i) => p(i))] *)
Fixpoint filteri_from {A} (p : Z -> bool) (i : Z) (l : list A) : list A :=
  match l with
  | [] => []
  | x :: tl => if p i then x :: filteri_from p (i + 1) tl else filteri_from p (i + 1) tl
  end.

Definition filteri {A} (p : Z -> bool) (l : list A) : list A := filteri_from p 0 l.

(** How a call completes. *)
Inductive js (A : Type) : Type :=
| Value (a : A)      (* returns a value of the declared type *)
| Untyped            (* returns, but an array slot holds [undefined] *)
| Raises.            (* throws a TypeError or a RangeError *)
Arguments Value {A} a.
Arguments Untyped {A}.
Arguments Raises {A}.

(* ====================================================================== *)
(** ** Interfaces and types *)
(* ====================================================================== *)

Inductive ColumnAlignment := AlignLeft | AlignCenter | AlignRight | AlignNone.

Definition ColumnAlignment_eqb (a b : ColumnAlignment) : bool :=
  match a, b with
  | AlignLeft, AlignLeft | AlignCenter, AlignCenter
  | AlignRight, AlignRight | AlignNone, AlignNone => true
  | _, _ => false
  end.

Record MarkdownTable := mkTable {
  startLine : Z;
  endLine : Z;
  rows : list (list str);
  separatorIndex : Z;
  alignments : list ColumnAlignment
}.

Record CompactOptions := mkCompactOptions {
  co_cellPadding : bool;
  co_separatorPadding : bool;
  alignSeparatorWithHeader : bool;
  co_keepSeparatorRatios : bool
}.

Record FormatOptions := mkFormatOptions {
  maxWidth : Z;
  fo_cellPadding : bool;
  fo_separatorPadding : bool;
  preserveAlignment : bool;
  fo_keepSeparatorRatios : bool
}.

Record RowNumberOptions := mkRowNumberOptions {
  startNumber : Z;
  rn_headerText : str;
  rn_alignment : ColumnAlignment
}.

Inductive SortDirection := Ascending | Descending.
Inductive SortType := SortText | SortNumeric | SortDate.

Record SortOptions := mkSortOptions {
  columnIndex : Z;
  direction : SortDirection;
  sortType : SortType;
  caseSensitive : bool;
  keepHeaderRow : bool
}.

Inductive QuoteStrings := QuoteAlways | QuoteAuto | QuoteNever.

Record CsvOptions := mkCsvOptions {
  delimiter : str;
  hasHeader : bool;
  trimCells : bool;
  quoteStrings : QuoteStrings;
  includeHeader : bool
}.

Definition getDefaultCompactOptions : CompactOptions :=
  mkCompactOptions true true true false.

Definition getDefaultFormatOptions : FormatOptions :=
  mkFormatOptions 0 true true true false.

Definition getDefaultRowNumberOptions : RowNumberOptions :=
  mkRowNumberOptions 1 (lit "#") AlignRight.

Definition getDefaultSortOptions : SortOptions :=
  mkSortOptions 0 Ascending SortText false true.

Definition getDefaultCsvOptions : CsvOptions :=
  mkCsvOptions (lit ",") true true QuoteAuto true.

(** [createSeparatorCell] takes [CompactOptions | FormatOptions] and probes
    for the two padding fields, which both records carry. *)
Class PaddingOptions (O : Type) := {
  cellPadding : O -> bool;
  separatorPadding : O -> bool
}.

#[export] Instance CompactOptions_padding : PaddingOptions CompactOptions :=
  {| cellPadding := co_cellPadding; separatorPadding := co_separatorPadding |}.

#[export] Instance FormatOptions_padding : PaddingOptions FormatOptions :=
  {| cellPadding := fo_cellPadding; separatorPadding := fo_separatorPadding |}.

(* ====================================================================== *)
(** ** Basic table parsing *)
(* ====================================================================== *)

Definition isTableRow (line : str) : bool :=
  let trimmed := trim line in
  startsWith trimmed [PIPE] && endsWith trimmed [PIPE].

(** The test [/^\s*:?-+:?\s*$/]: the character classes of the pieces are
    disjoint, so the match is a single left-to-right pass. *)
Definition skipOpt (c : ascii) (s : str) : str :=
  match s with
  | x :: tl => if ceqb x c then tl else s
  | [] => s
  end.

Definition isSeparatorCell (cell : str) : bool :=
  let s1 := dropWhile isWhite cell in
  let s2 := skipOpt COLON s1 in
  let s3 := dropWhile (fun x => ceqb x DASH) s2 in
  let s4 := skipOpt COLON s3 in
  negb (Nat.eqb (length s3) (length s2)) && forallb isWhite s4.

Definition isTableSeparator (line : str) : bool :=
  let trimmed := trim line in
  if negb (startsWith trimmed [PIPE]) || negb (endsWith trimmed [PIPE]) then false
  else
    let cells := split PIPE (slice_1_m1 trimmed) in
    forallb isSeparatorCell cells.

Definition parseTableRow (line : str) : list str :=
  let trimmed := trim line in
  let content := slice_1_m1 trimmed in
  map trim (split PIPE content).

Definition getAlignmentFromSeparator (cell : str) : ColumnAlignment :=
  let trimmed := trim cell in
  let leftAlign := startsWith trimmed [COLON] in
  let rightAlign := endsWith trimmed [COLON] in
  if leftAlign && rightAlign then AlignCenter
  else if rightAlign then AlignRight
  else if leftAlign then AlignLeft
  else AlignNone.

Definition parseAlignments (separatorRow : list str) : list ColumnAlignment :=
  map getAlignmentFromSeparator separatorRow.

Record Range := mkRange { range_start : Z; range_end : Z }.

(** The loop state of [findCodeBlockRanges]: the ranges pushed so far and,
    inside a block, its start line and delimiter. *)
Fixpoint findCodeBlockRanges_loop (lines : list str) (i : Z)
    (ranges : list Range) (open : option (Z * str)) : list Range * option (Z * str) :=
  match lines with
  | [] => (ranges, open)
  | line :: rest =>
      let trimmed := trim line in
      match open with
      | None =>
          if startsWith trimmed (lit "```") || startsWith trimmed (lit "~~~")
          then findCodeBlockRanges_loop rest (i + 1) ranges (Some (i, substring_0_3 trimmed))
          else findCodeBlockRanges_loop rest (i + 1) ranges None
      | Some (codeBlockStart, codeBlockDelimiter) =>
          if startsWith trimmed codeBlockDelimiter
             && str_eqb (trim (removeAll TILDE (removeAll BACKTICK trimmed))) []
          then findCodeBlockRanges_loop rest (i + 1)
                 (ranges ++ [mkRange codeBlockStart i]) None
          else findCodeBlockRanges_loop rest (i + 1) ranges open
      end
  end.

Definition findCodeBlockRanges (lines : list str) : list Range :=
  match findCodeBlockRanges_loop lines 0 [] None with
  | (ranges, Some (codeBlockStart, _)) =>
      ranges ++ [mkRange codeBlockStart (Z.of_nat (length lines) - 1)]
  | (ranges, None) => ranges
  end.

Definition isLineInCodeBlock (lineNumber : Z) (codeBlockRanges : list Range) : bool :=
  existsb (fun r => (range_start r <=? lineNumber) && (lineNumber <=? range_end r))
          codeBlockRanges.

(** The inner [while] of [findTables]: [rest] is [lines] from index [i] on.
    It returns the rows read, the separator index, the alignments, the index
    it stopped at and the lines from there on. *)
Fixpoint findTables_run (ignoreCodeBlocks : bool) (codeBlockRanges : list Range)
    (i : Z) (rest : list str)
    (rws : list (list str)) (sepIdx : Z) (aligns : list ColumnAlignment)
  : list (list str) * Z * list ColumnAlignment * Z * list str :=
  match rest with
  | [] => (rws, sepIdx, aligns, i, rest)
  | line :: rest' =>
      if negb (isTableRow line) then (rws, sepIdx, aligns, i, rest)
      else if ignoreCodeBlocks && isLineInCodeBlock i codeBlockRanges
      then (rws, sepIdx, aligns, i, rest)
      else
        let cells := parseTableRow line in
        let rws' := rws ++ [cells] in
        if (sepIdx =? -1) && isTableSeparator line
        then findTables_run ignoreCodeBlocks codeBlockRanges (i + 1) rest'
               rws' (Z.of_nat (length rws') - 1) (parseAlignments cells)
        else findTables_run ignoreCodeBlocks codeBlockRanges (i + 1) rest'
               rws' sepIdx aligns
  end.

(** The outer [while] of [findTables].  Every iteration advances [i], so
    one unit of [fuel] per line is enough; [None] is fuel exhaustion. *)
Fixpoint findTables_loop (fuel : nat) (ignoreCodeBlocks : bool)
    (codeBlockRanges : list Range) (i : Z) (rest : list str)
  : option (list MarkdownTable) :=
  match fuel with
  | O => None
  | S fuel' =>
      match rest with
      | [] => Some []
      | line :: rest' =>
          if ignoreCodeBlocks && isLineInCodeBlock i codeBlockRanges
          then findTables_loop fuel' ignoreCodeBlocks codeBlockRanges (i + 1) rest'
          else if isTableRow line then
            match findTables_run ignoreCodeBlocks codeBlockRanges i rest [] (-1) [] with
            | (rws, sepIdx, aligns, j, rest2) =>
                let found :=
                  if (2 <=? Z.of_nat (length rws)) && (sepIdx =? 1)
                  then [mkTable i (j - 1) rws sepIdx aligns]
                  else [] in
                option_map (app found)
                  (findTables_loop fuel' ignoreCodeBlocks codeBlockRanges j rest2)
            end
          else findTables_loop fuel' ignoreCodeBlocks codeBlockRanges (i + 1) rest'
      end
  end.

Definition findTables (lines : list str) (ignoreCodeBlocks : bool)
  : option (list MarkdownTable) :=
  let codeBlockRanges := if ignoreCodeBlocks then findCodeBlockRanges lines else [] in
  findTables_loop (S (length lines)) ignoreCodeBlocks codeBlockRanges 0 lines.

Definition findTableAtPosition (lines : list str) (lineNumber : Z)
    (ignoreCodeBlocks : bool) : option (option MarkdownTable) :=
  option_map
    (find (fun table => (startLine table <=? lineNumber) && (lineNumber <=? endLine table)))
    (findTables lines ignoreCodeBlocks).

Definition getRowIndexInTable (table : MarkdownTable) (lineNumber : Z) : Z :=
  lineNumber - startLine table.

(** A table produced by the Locator. *)
Definition located (lines : list str) (ignoreCodeBlocks : bool) (t : MarkdownTable) : Prop :=
  exists ts, findTables lines ignoreCodeBlocks = Some ts /\ In t ts.

(* ====================================================================== *)
(** ** Text manipulation helpers *)
(* ====================================================================== *)

Definition padCell (content : str) (width : Z) (alignment : ColumnAlignment) : str :=
  let contentLength := len content in
  if width <=? contentLength then content
  else
    let padding := width - contentLength in
    match alignment with
    | AlignRight => repeatc SPACE padding ++ content
    | AlignCenter =>
        let leftPad := padding / 2 in
        let rightPad := padding - leftPad in
        repeatc SPACE leftPad ++ content ++ repeatc SPACE rightPad
    | AlignLeft | AlignNone => content ++ repeatc SPACE padding
    end.

(** [x || d] for a number read out of an array: [undefined] and [0] are falsy. *)
Definition orNum (x : option Z) (d : Z) : Z :=
  match x with
  | Some v => if v =? 0 then d else v
  | None => d
  end.

(** [x || d] for a string read out of an array: [undefined] and [''] are falsy. *)
Definition orStr (x : option str) (d : str) : str :=
  match x with
  | Some (c :: s) => c :: s
  | _ => d
  end.

(** [x || d] for an alignment read out of an array. *)
Definition orAlign (x : option ColumnAlignment) (d : ColumnAlignment) : ColumnAlignment :=
  match x with
  | Some a => a
  | None => d
  end.

(* ====================================================================== *)
(** ** IEEE 754 binary64 on non-negative rationals *)
(* ====================================================================== *)

(** [a / b] rounded to the nearest integer, ties to even ([0 <= a], [0 < b]). *)
Definition div_rne (a b : Z) : Z :=
  let q := a / b in
  let r := a mod b in
  if 2 * r <? b then q
  else if b <? 2 * r then q + 1
  else if Z.even q then q else q + 1.

(** [floor (log2 (a / b))] for [0 < a], [0 < b]. *)
Definition log2_ratio (a b : Z) : Z :=
  let k := Z.log2 a - Z.log2 b in
  let below := if 0 <=? k then a <? b * 2 ^ k else a * 2 ^ (- k) <? b in
  if below then k - 1 else k.

(** A non-negative double: [B64 m e] is [m * 2^e] with [m <= 2^53]. *)
Inductive binary64 :=
| B64 (m e : Z)
| B64_inf.

(** The double nearest to [a / b] (round to nearest, ties to even), with
    gradual underflow below [2^-1022] and overflow to infinity. *)
Definition round_binary64 (a b : Z) : binary64 :=
  if a =? 0 then B64 0 0
  else
    let e := Z.max (log2_ratio a b - 52) (-1074) in
    let m := if 0 <=? e then div_rne a (b * 2 ^ e) else div_rne (a * 2 ^ (- e)) b in
    if (971 <? e) || ((e =? 971) && (m =? 2 ^ 53)) then B64_inf else B64 m e.

Definition b64_num (m e : Z) : Z := m * 2 ^ (Z.max e 0).
Definition b64_den (e : Z) : Z := 2 ^ (Z.max (- e) 0).

(** [x * t] in doubles, for an integer [0 <= t]. *)
Definition b64_mul_int (x : binary64) (t : Z) : binary64 :=
  match x with
  | B64 m e => round_binary64 (b64_num m e * t) (b64_den e)
  | B64_inf => B64_inf
  end.

(** [Math.round(x)]: the nearest integer, ties upwards; [None] is Infinity. *)
Definition Math_round (x : binary64) : option Z :=
  match x with
  | B64 m e => Some ((2 * b64_num m e + b64_den e) / (2 * b64_den e))
  | B64_inf => None
  end.

(** [Math.floor(x)] *)
Definition Math_floor (x : binary64) : option Z :=
  match x with
  | B64 m e => Some (b64_num m e / b64_den e)
  | B64_inf => None
  end.

(* ====================================================================== *)
(** ** Compact table *)
(* ====================================================================== *)

Definition isAlign (x : option ColumnAlignment) (a : ColumnAlignment) : bool :=
  match x with
  | Some b => ColumnAlignment_eqb b a
  | None => false
  end.

Definition createSeparatorCell {O} `{PaddingOptions O}
    (cell : str) (width : Z) (options : O) (alignment : option ColumnAlignment) : str :=
  let trimmed := trim cell in
  let leftAlign := isAlign alignment AlignLeft || isAlign alignment AlignCenter
                   || startsWith trimmed [COLON] in
  let rightAlign := isAlign alignment AlignRight || isAlign alignment AlignCenter
                    || endsWith trimmed [COLON] in
  let dashCount := Z.max 3 width in
  let dashCount := if leftAlign then dashCount - 1 else dashCount in
  let dashCount := if rightAlign then dashCount - 1 else dashCount in
  let dashCount := Z.max 1 dashCount in
  let dashes := repeatc DASH dashCount in
  let separator :=
    if leftAlign && rightAlign then [COLON] ++ dashes ++ [COLON]
    else if leftAlign then [COLON] ++ dashes
    else if rightAlign then dashes ++ [COLON]
    else repeatc DASH (Z.max 3 width) in
  if cellPadding options && separatorPadding options
  then [SPACE] ++ separator ++ [SPACE]
  else separator.

(** [targetTotalWidth] is a sum of string lengths, an integer below [2^53];
    the quotient, the product and the rounding are the double operations.
    [Math.round] and [Math.floor] give Infinity only beyond [2^1024], which
    no sum of string lengths reaches; the [None] branches are unreachable. *)
Definition calculateProportionalSeparatorWidths
    (originalSeparators : list str) (targetTotalWidth : Z) : list Z :=
  let originalLengths := map (fun cell => len (trim cell)) originalSeparators in
  let originalTotal := fold_left Z.add originalLengths 0 in
  if originalTotal =? 0 then
    map (fun _ =>
           match Math_floor (round_binary64 targetTotalWidth
                               (Z.of_nat (length originalSeparators))) with
           | Some v => Z.max 3 v
           | None => 3
           end) originalSeparators
  else
    let proportions := map (fun l => round_binary64 l originalTotal) originalLengths in
    map (fun prop =>
           match Math_round (b64_mul_int prop targetTotalWidth) with
           | Some v => Z.max 3 v
           | None => 3
           end) proportions.

Definition joinRow (cells : list str) : str := [PIPE] ++ join [PIPE] cells ++ [PIPE].

Definition compactTableRow (cells : list str) (isSeparator : bool)
    (options : CompactOptions) (headerWidths : option (list Z))
    (aligns : option (list ColumnAlignment)) : str :=
  if isSeparator then
    let compactedCells :=
      mapi (fun index cell =>
              let width :=
                match alignSeparatorWithHeader options, headerWidths with
                | true, Some hw => orNum (nthZ hw index) 3
                | _, _ => 3
                end in
              let alignment :=
                match aligns with
                | Some al => nthZ al index
                | None => None
                end in
              createSeparatorCell cell width options alignment) cells in
    joinRow compactedCells
  else if co_cellPadding options
  then joinRow (map (fun cell => [SPACE] ++ cell ++ [SPACE]) cells)
  else joinRow cells.

Definition compactTable (table : MarkdownTable) (options : CompactOptions)
  : js (list str) :=
  match nthZ (rows table) 0 with
  | None => Raises
  | Some headerRow =>
      let headerWidths := map len headerRow in
      let separatorWidths : js (option (list Z)) :=
        if co_keepSeparatorRatios options && (0 <=? separatorIndex table) then
          match nthZ (rows table) (separatorIndex table) with
          | None => Raises
          | Some separatorRow =>
              let totalContentWidth :=
                fold_left (fun total w =>
                             total + (if alignSeparatorWithHeader options
                                      then Z.max 3 w else 3))
                          headerWidths 0 in
              Value (Some (calculateProportionalSeparatorWidths
                             separatorRow totalContentWidth))
          end
        else Value None in
      match separatorWidths with
      | Raises => Raises
      | Untyped => Untyped
      | Value separatorWidths =>
          Value
            (mapi (fun index row =>
                     let isSeparator := index =? separatorIndex table in
                     match isSeparator, separatorWidths with
                     | true, Some sw =>
                         joinRow
                           (mapi (fun colIndex cell =>
                                    let width := orNum (nthZ sw colIndex) 3 in
                                    let alignment := nthZ (alignments table) colIndex in
                                    createSeparatorCell cell width options alignment)
                                 row)
                     | _, _ =>
                         compactTableRow row isSeparator options
                           (Some headerWidths) (Some (alignments table))
                     end)
                  (rows table))
      end
  end.

(* ====================================================================== *)
(** ** Format table *)
(* ====================================================================== *)

(** [Math.max(...rows.map(row => row.length))] for a non-empty [rows]. *)
Definition columnCountOf (rws : list (list str)) : Z :=
  fold_left Z.max (map (fun row => Z.of_nat (length row)) rws) 0.

(** One pass of [for colIndex < row.length: widths[colIndex] =
    Math.max(widths[colIndex], row[colIndex].length)].  [widths] has
    [columnCount] entries, at least as many as the row has cells. *)
Fixpoint maxInto (widths : list Z) (row : list str) : list Z :=
  match widths, row with
  | w :: ws, c :: cs => Z.max w (len c) :: maxInto ws cs
  | ws, _ => ws
  end.

(** [columnWidths]: filled with 3, then raised by every row but the
    separator. *)
Fixpoint columnWidths_loop (sepIdx : Z) (rowIndex : Z) (rws : list (list str))
    (widths : list Z) : list Z :=
  match rws with
  | [] => widths
  | row :: rest =>
      if rowIndex =? sepIdx
      then columnWidths_loop sepIdx (rowIndex + 1) rest widths
      else columnWidths_loop sepIdx (rowIndex + 1) rest (maxInto widths row)
  end.

Definition columnWidthsOf (table : MarkdownTable) : list Z :=
  columnWidths_loop (separatorIndex table) 0 (rows table)
    (repeat 3 (Z.to_nat (columnCountOf (rows table)))).

Definition paddingPerCellOf (options : FormatOptions) : Z :=
  if fo_cellPadding options then 2 else 0.

(** The scan for the break column: [Some (breakColumnIndex,
    accumulatedBeforeBreak)] at the first column that overflows. *)
Fixpoint breakColumn_loop (widths : list Z) (colIndex accumulatedWidth : Z)
    (paddingPerCell maxW : Z) : option (Z * Z) :=
  match widths with
  | [] => None
  | w :: ws =>
      let colWidth := orNum (Some w) 3 in
      let cellWidth := colWidth + paddingPerCell + 1 in
      if maxW <? accumulatedWidth + cellWidth
      then Some (colIndex, accumulatedWidth)
      else breakColumn_loop ws (colIndex + 1) (accumulatedWidth + cellWidth)
             paddingPerCell maxW
  end.

Definition breakColumnOf (table : MarkdownTable) (options : FormatOptions) : Z * Z :=
  if 0 <? maxWidth options then
    match breakColumn_loop (columnWidthsOf table) 0 1
            (paddingPerCellOf options) (maxWidth options) with
    | Some r => r
    | None => (columnCountOf (rows table), 1)
    end
  else (columnCountOf (rows table), 1).

Definition breakColumnIndexOf (table : MarkdownTable) (options : FormatOptions) : Z :=
  fst (breakColumnOf table options).

Fixpoint fittingWidth_loop (sepIdx breakColumnIndex availableWidth : Z)
    (rowIndex : Z) (rws : list (list str)) (fitting : Z) : Z :=
  match rws with
  | [] => fitting
  | row :: rest =>
      if rowIndex =? sepIdx
      then fittingWidth_loop sepIdx breakColumnIndex availableWidth (rowIndex + 1) rest fitting
      else
        let cell := orStr (nthZ row breakColumnIndex) [] in
        fittingWidth_loop sepIdx breakColumnIndex availableWidth (rowIndex + 1) rest
          (if len cell <=? availableWidth then Z.max fitting (len cell) else fitting)
  end.

Definition breakColumnFittingWidthOf (table : MarkdownTable) (options : FormatOptions) : Z :=
  let '(breakColumnIndex, accumulatedBeforeBreak) := breakColumnOf table options in
  if (breakColumnIndex <? columnCountOf (rows table)) && (0 <? maxWidth options) then
    let availableWidth :=
      maxWidth options - accumulatedBeforeBreak - paddingPerCellOf options - 1 in
    fittingWidth_loop (separatorIndex table) breakColumnIndex availableWidth 0 (rows table) 3
  else 3.

Definition formatCompactSeparatorCell (cell : str) (alignment : ColumnAlignment)
    (compactOptions : CompactOptions) (headerWidth : Z) : str :=
  let separator :=
    if alignSeparatorWithHeader compactOptions
    then repeatc DASH (Z.max 3 headerWidth)
    else lit "---" in
  let separator :=
    match alignment with
    | AlignLeft => [COLON] ++ tl separator
    | AlignRight => removelast separator ++ [COLON]
    | AlignCenter => [COLON] ++ slice_1_m1 separator ++ [COLON]
    | AlignNone => separator
    end in
  if co_separatorPadding compactOptions && co_cellPadding compactOptions
  then [SPACE] ++ separator ++ [SPACE]
  else separator.

Definition padded (withPadding : bool) (cell : str) : str :=
  if withPadding then [SPACE] ++ cell ++ [SPACE] else cell.

(** The three-way choice made for one cell of a header or data row under
    [maxWidth > 0]. *)
Definition maxWidthCell (columnWidths : list Z) (aligns : list ColumnAlignment)
    (options : FormatOptions) (compactOptions : CompactOptions)
    (breakColumnIndex breakColumnFittingWidth : Z) (colIndex : Z) (cell : str) : str :=
  let colWidth := orNum (nthZ columnWidths colIndex) (len cell) in
  let alignment := orAlign (nthZ aligns colIndex) AlignLeft in
  if colIndex <? breakColumnIndex then
    padded (fo_cellPadding options) (padCell cell colWidth alignment)
  else if colIndex =? breakColumnIndex then
    if len cell <=? breakColumnFittingWidth
    then padded (fo_cellPadding options) (padCell cell breakColumnFittingWidth alignment)
    else padded (co_cellPadding compactOptions) cell
  else padded (co_cellPadding compactOptions) cell.

Definition formatRowWithMaxWidth_cells (row : list str) (columnWidths : list Z)
    (aligns : list ColumnAlignment) (options : FormatOptions)
    (compactOptions : CompactOptions) (breakColumnIndex breakColumnFittingWidth : Z)
  : list str :=
  mapi (maxWidthCell columnWidths aligns options compactOptions
          breakColumnIndex breakColumnFittingWidth) row.

Definition formatRowWithMaxWidth (row : list str) (columnWidths : list Z)
    (aligns : list ColumnAlignment) (options : FormatOptions)
    (compactOptions : CompactOptions) (breakColumnIndex breakColumnFittingWidth : Z)
  : str :=
  joinRow (formatRowWithMaxWidth_cells row columnWidths aligns options compactOptions
             breakColumnIndex breakColumnFittingWidth).

(** A header or data cell without [maxWidth]. *)
Definition alignedCell (columnWidths : list Z) (aligns : list ColumnAlignment)
    (options : FormatOptions) (colIndex : Z) (cell : str) : str :=
  let width := orNum (nthZ columnWidths colIndex) (len cell) in
  let alignment := orAlign (nthZ aligns colIndex) AlignLeft in
  padded (fo_cellPadding options) (padCell cell width alignment).

(** A cell of the separator row, standard formatting. *)
Definition separatorCell (columnWidths : list Z) (aligns : list ColumnAlignment)
    (headerRow : list str) (options : FormatOptions) (compactOptions : CompactOptions)
    (breakColumnIndex breakColumnFittingWidth : Z) (colIndex : Z) (cell : str) : str :=
  let colWidth := orNum (nthZ columnWidths colIndex) 3 in
  let headerCell := orStr (nthZ headerRow colIndex) [] in
  let alignment := orAlign (nthZ aligns colIndex) AlignNone in
  if colIndex <? breakColumnIndex then
    createSeparatorCell cell colWidth options (Some alignment)
  else if colIndex =? breakColumnIndex then
    if len headerCell <=? breakColumnFittingWidth
    then createSeparatorCell cell breakColumnFittingWidth options (Some alignment)
    else formatCompactSeparatorCell cell alignment compactOptions
           (orNum (Some (len headerCell)) 3)
  else formatCompactSeparatorCell cell alignment compactOptions
         (orNum (Some (len headerCell)) 3).

(** The cells [formatTable] renders for each row, before they are joined
    with pipes.  ([headerWidths] of the source is computed but never read.) *)
Definition formatTable_cells (table : MarkdownTable) (options : FormatOptions)
    (compactOptions : CompactOptions) : js (list (list str)) :=
  match rows table with
  | [] => Raises
  | headerRow :: _ =>
      let columnWidths := columnWidthsOf table in
      let aligns := if preserveAlignment options then alignments table else [] in
      let breakColumnIndex := breakColumnIndexOf table options in
      let breakColumnFittingWidth := breakColumnFittingWidthOf table options in
      let proportionalSeparatorWidths : js (option (list Z)) :=
        if fo_keepSeparatorRatios options && (0 <=? separatorIndex table) then
          match nthZ (rows table) (separatorIndex table) with
          | None => Raises
          | Some separatorRow =>
              Value (Some (calculateProportionalSeparatorWidths separatorRow
                             (fold_left Z.add columnWidths 0)))
          end
        else Value None in
      match proportionalSeparatorWidths with
      | Raises => Raises
      | Untyped => Untyped
      | Value proportionalSeparatorWidths =>
          Value
            (mapi (fun rowIndex row =>
                     if rowIndex =? separatorIndex table then
                       match proportionalSeparatorWidths with
                       | Some pw =>
                           mapi (fun colIndex cell =>
                                   let width := orNum (nthZ pw colIndex) 3 in
                                   let alignment := orAlign (nthZ aligns colIndex) AlignNone in
                                   createSeparatorCell cell width options (Some alignment))
                                row
                       | None =>
                           mapi (separatorCell columnWidths aligns headerRow options
                                   compactOptions breakColumnIndex breakColumnFittingWidth)
                                row
                       end
                     else if (rowIndex =? 0) && (0 <? maxWidth options) then
                       mapi (maxWidthCell columnWidths aligns options compactOptions
                               breakColumnIndex breakColumnFittingWidth) row
                     else if rowIndex =? 0 then
                       mapi (alignedCell columnWidths aligns options) row
                     else if 0 <? maxWidth options then
                       formatRowWithMaxWidth_cells row columnWidths aligns options
                         compactOptions breakColumnIndex breakColumnFittingWidth
                     else mapi (alignedCell columnWidths aligns options) row)
                  (rows table))
      end
  end.

Definition js_map {A B} (f : A -> B) (x : js A) : js B :=
  match x with
  | Value a => Value (f a)
  | Untyped => Untyped
  | Raises => Raises
  end.

Definition formatTable (table : MarkdownTable) (options : FormatOptions)
    (compactOptions : CompactOptions) : js (list str) :=
  js_map (map joinRow) (formatTable_cells table options compactOptions).

(* ====================================================================== *)
(** ** Row numbers *)
(* ====================================================================== *)

(** [String(n)] for an integer [n] up to [2^53] in absolute value, where
    every integer is a double of its own: the decimal digits, after a minus
    sign when negative.  Beyond that JavaScript prints the shortest digits
    that identify the double, and from [10^21] on an exponent; neither is
    modelled, and no property below leaves the range. *)
Definition String_of_number (n : Z) : str :=
  list_ascii_of_string (NilZero.string_of_int (Z.to_int n)).

(** [/^\d+$/.test(cell)]; an [undefined] cell is tested as the text
    ["undefined"], which fails. *)
Definition isDigits (cell : option str) : bool :=
  match cell with
  | Some (c :: s) => forallb isDigit (c :: s)
  | _ => false
  end.

Definition knownHeaders (headerText : str) : list str :=
  [lit "#"; lit "no"; lit "no."; lit "nr"; lit "nr."; lit "num"; lit "row";
   toLowerCase headerText].

(** [rows[i][0]] for a row that exists: [None] is [undefined]. *)
Definition firstCell (row : list str) : option str := nthZ row 0.

(** The [for (let i = 2; ...)] loop over the rows from index 2 on. *)
Fixpoint dataCellsAreDigits (rws : list (list str)) : bool :=
  match rws with
  | [] => true
  | row :: rest =>
      if negb (isDigits (option_map trim (firstCell row))) then false
      else dataCellsAreDigits rest
  end.

Definition hasRowNumbers (table : MarkdownTable) (headerText : str) : js bool :=
  match rows table with
  | [] => Raises
  | headerRow :: _ =>
      match option_map (fun c => trim (toLowerCase c)) (firstCell headerRow) with
      | None => Value false
      | Some firstHeader =>
          if negb (existsb (str_eqb firstHeader) (knownHeaders headerText))
          then Value false
          else Value (dataCellsAreDigits (skipn 2 (rows table)))
      end
  end.

(** [row[0] = x] on a copy of the row. *)
Definition setFirst (x : str) (row : list str) : list str :=
  match row with
  | [] => [x]
  | _ :: rest => x :: rest
  end.

Definition alignmentMarker3 (alignment : ColumnAlignment) : str :=
  match alignment with
  | AlignRight => lit "---:"
  | AlignCenter => lit ":---:"
  | _ => lit ":---"
  end.

(** The [for] loop of [addRowNumbers]; [dataRowIndex] is the next number.
    It counts in integers, as the doubles of the source do up to [2^53]. *)
Fixpoint addRowNumbers_loop (hasNumbers : bool) (options : RowNumberOptions)
    (sepIdx : Z) (i : Z) (dataRowIndex : Z) (rws : list (list str))
  : list (list str) :=
  match rws with
  | [] => []
  | row :: rest =>
      let put x := if hasNumbers then setFirst x row else x :: row in
      if i =? 0 then
        put (rn_headerText options)
          :: addRowNumbers_loop hasNumbers options sepIdx (i + 1) dataRowIndex rest
      else if i =? sepIdx then
        put (alignmentMarker3 (rn_alignment options))
          :: addRowNumbers_loop hasNumbers options sepIdx (i + 1) dataRowIndex rest
      else
        put (String_of_number dataRowIndex)
          :: addRowNumbers_loop hasNumbers options sepIdx (i + 1) (dataRowIndex + 1) rest
  end.

Definition addRowNumbers (table : MarkdownTable) (options : RowNumberOptions)
  : js MarkdownTable :=
  match hasRowNumbers table (rn_headerText options) with
  | Raises => Raises
  | Untyped => Untyped
  | Value hasNumbers =>
      let newRows :=
        addRowNumbers_loop hasNumbers options (separatorIndex table) 0
          (startNumber options) (rows table) in
      let newAlignments :=
        if hasNumbers
        then rn_alignment options :: skipn 1 (alignments table)
        else rn_alignment options :: alignments table in
      Value (mkTable (startLine table) (endLine table) newRows
               (separatorIndex table) newAlignments)
  end.

Definition removeRowNumbers (table : MarkdownTable) : js (option MarkdownTable) :=
  match hasRowNumbers table (lit "#") with
  | Raises => Raises
  | Untyped => Untyped
  | Value false => Value None
  | Value true =>
      Value (Some (mkTable (startLine table) (endLine table)
                     (map (skipn 1) (rows table))
                     (separatorIndex table) (skipn 1 (alignments table))))
  end.

(* ====================================================================== *)
(** ** Sorting *)
(* ====================================================================== *)

(** A JavaScript number that is not NaN: a rational in lowest terms, or an
    infinity.  The sign of a zero is never observed by the engine. *)
Inductive jsnum :=
| Num (q : Q)
| Inf (negative : bool).

(** [/[^0-9.-]/]: the characters the numeric key keeps. *)
Definition isNumericChar (c : ascii) : bool :=
  isDigit c || ceqb c DOT || ceqb c DASH.

Fixpoint takeWhile {A} (p : A -> bool) (l : list A) : list A :=
  match l with
  | [] => []
  | x :: tl => if p x then x :: takeWhile p tl else []
  end.

(** The value of a run of decimal digits. *)
Definition digitsValue (ds : str) : Z :=
  fold_left (fun acc d => 10 * acc + (Z.of_nat (nat_of_ascii d) - 48)) ds 0.

(** The digits of a decimal literal [digits (. digits?)? | . digits] at the
    start of [s]: the digits with the point removed and the number of
    digits after the point, under the sign already read. *)
Definition parseUnsigned (negative : bool) (s : str) : option (bool * Z * Z) :=
  let intDigits := takeWhile isDigit s in
  let s2 := dropWhile isDigit s in
  let fracDigits :=
    match s2 with
    | c :: tl => if ceqb c DOT then takeWhile isDigit tl else []
    | [] => []
    end in
  match intDigits ++ fracDigits with
  | [] => None
  | digits => Some (negative, digitsValue digits, Z.of_nat (length fracDigits))
  end.

(** The longest prefix of [s] that is a decimal literal, as [parseFloat]
    reads it when no exponent and no [Infinity] can occur. *)
Definition parseDecimalPrefix (s : str) : option (bool * Z * Z) :=
  match s with
  | c :: tl => if ceqb c DASH then parseUnsigned true tl else parseUnsigned false s
  | [] => parseUnsigned false s
  end.

Definition jsnum_of_binary64 (negative : bool) (x : binary64) : jsnum :=
  match x with
  | B64 m e =>
      let q := Qred (Qmake (b64_num m e) (Z.to_pos (b64_den e))) in
      Num (if negative then Qred (Qopp q) else q)
  | B64_inf => Inf negative
  end.

(** [parseFloat(s)] for a text over digits, ['.'] and ['-']; [None] is NaN. *)
Definition parseFloat (s : str) : option jsnum :=
  match parseDecimalPrefix s with
  | None => None
  | Some (negative, digits, scale) =>
      Some (jsnum_of_binary64 negative (round_binary64 digits (10 ^ scale)))
  end.

(** [x || 0] for a number: NaN and both zeros give [0]. *)
Definition orZero (x : option jsnum) : jsnum :=
  match x with
  | Some (Num q) => if Qeq_bool q 0 then Num 0 else Num q
  | Some (Inf n) => Inf n
  | None => Num 0
  end.

(** The numeric sort key of a cell:
    [parseFloat(cell.replace(/[^0-9.-]/g, '')) || 0]. *)
Definition numericKey (cell : str) : jsnum :=
  orZero (parseFloat (filter isNumericChar cell)).

(** The sign of [a - b] in doubles ([0] also for NaN, which [sort] treats
    as [0]). *)
Definition subSign (a b : jsnum) : Z :=
  match a, b with
  | Num p, Num q =>
      match Qcompare p q with
      | Lt => -1
      | Eq => 0
      | Gt => 1
      end
  | Inf n1, Inf n2 => if Bool.eqb n1 n2 then 0 else if n1 then -1 else 1
  | Inf n, Num _ => if n then -1 else 1
  | Num _, Inf n => if n then 1 else -1
  end.

(** [Array.prototype.sort(cmp)]: stable; [cmp] is used by its sign. *)
Fixpoint sort_insert {A} (cmp : A -> A -> Z) (x : A) (l : list A) : list A :=
  match l with
  | [] => [x]
  | y :: tl => if 0 <? cmp x y then y :: sort_insert cmp x tl else x :: l
  end.

Fixpoint sort {A} (cmp : A -> A -> Z) (l : list A) : list A :=
  match l with
  | [] => []
  | x :: tl => sort_insert cmp x (sort cmp tl)
  end.

Section Sorting.

(** [a.localeCompare(b)] depends on the host's locale. *)
Variable localeCompare : str -> str -> Z.

(** [new Date(s).getTime()]: parsing is implementation-defined; the result
    is an integer number of milliseconds, or NaN ([None]). *)
Variable Date_getTime : str -> option Z.

Definition dateKey (cell : str) : Z :=
  match Date_getTime cell with
  | Some t => t
  | None => 0
  end.

(** The comparator passed to [sort], by sign. *)
Definition compareRows (options : SortOptions) (a b : list str) : Z :=
  let aVal := orStr (nthZ a (columnIndex options)) [] in
  let bVal := orStr (nthZ b (columnIndex options)) [] in
  let comparison :=
    match sortType options with
    | SortNumeric => subSign (numericKey aVal) (numericKey bVal)
    | SortDate => dateKey aVal - dateKey bVal
    | SortText =>
        let aText := if caseSensitive options then aVal else toLowerCase aVal in
        let bText := if caseSensitive options then bVal else toLowerCase bVal in
        localeCompare aText bText
    end in
  match direction options with
  | Descending => - comparison
  | Ascending => comparison
  end.

Definition sortTable (table : MarkdownTable) (options : SortOptions)
  : js MarkdownTable :=
  let headerRow := nthZ (rows table) 0 in
  let separatorRow := nthZ (rows table) (separatorIndex table) in
  let dataRows :=
    filteri (fun i => negb (i =? 0) && negb (i =? separatorIndex table))
            (rows table) in
  let sortedDataRows := sort (compareRows options) dataRows in
  let newRows :=
    if keepHeaderRow options
    then (headerRow, separatorRow, sortedDataRows)
    else (headerRow, separatorRow, sortedDataRows) in
  match newRows with
  | (Some h, Some s, sorted) =>
      Value (mkTable (startLine table) (endLine table) (h :: s :: sorted)
               (separatorIndex table) (alignments table))
  | _ => Untyped
  end.

End Sorting.

(* ====================================================================== *)
(** ** Column and row operations *)
(* ====================================================================== *)

Inductive ColumnDirection := MoveLeft | MoveRight.
Inductive RowDirection := MoveUp | MoveDown.

(** [a.splice(start, 0, x)] on a copy: a negative [start] counts from the
    end, and [start] is clamped to the array. *)
Definition spliceStart {A} (l : list A) (start : Z) : nat :=
  let n := Z.of_nat (length l) in
  Z.to_nat (if start <? 0 then Z.max (n + start) 0 else Z.min start n).

Definition spliceInsert {A} (l : list A) (start : Z) (x : A) : list A :=
  let k := spliceStart l start in
  firstn k l ++ x :: skipn k l.

(** [a.splice(start, 1)] on a copy. *)
Definition spliceRemove {A} (l : list A) (start : Z) : list A :=
  let k := spliceStart l start in
  firstn k l ++ skipn (S k) l.

(** [[a[i], a[j]] = [a[j], a[i]]] on a copy.  With both indices inside the
    array this is the swap; otherwise [undefined] is stored ([None]). *)
Definition swapAt {A} (l : list A) (i j : Z) : option (list A) :=
  match nthZ l i, nthZ l j with
  | Some x, Some y =>
      Some (mapi (fun k z => if k =? i then y else if k =? j then x else z) l)
  | _, _ => None
  end.

(** [rows.map(f)] where [f] may store [undefined]. *)
Fixpoint mapM {A B} (f : A -> option B) (l : list A) : option (list B) :=
  match l with
  | [] => Some []
  | x :: tl =>
      match f x, mapM f tl with
      | Some y, Some ys => Some (y :: ys)
      | _, _ => None
      end
  end.

(** The guard reads [table.rows[0].length] only when the target is not
    negative: [||] short-circuits. *)
Definition moveColumn (table : MarkdownTable) (columnIndex : Z)
    (direction : ColumnDirection) : js MarkdownTable :=
  let targetIndex :=
    match direction with
    | MoveLeft => columnIndex - 1
    | MoveRight => columnIndex + 1
    end in
  if targetIndex <? 0 then Value table
  else
    match rows table with
    | [] => Raises
    | headerRow :: _ =>
        if Z.of_nat (length headerRow) <=? targetIndex
        then Value table
        else
          match mapM (fun row => swapAt row columnIndex targetIndex) (rows table),
                swapAt (alignments table) columnIndex targetIndex with
          | Some newRows, Some newAlignments =>
              Value (mkTable (startLine table) (endLine table) newRows
                       (separatorIndex table) newAlignments)
          | _, _ => Untyped
          end
    end.

Definition insertRow (table : MarkdownTable) (rowIndex : Z) (cells : option (list str))
  : js MarkdownTable :=
  match rows table with
  | [] => Raises
  | headerRow :: _ =>
      let columnCount := length headerRow in
      let newCells :=
        match cells with
        | Some cs => cs ++ repeat [] (columnCount - length cs)
        | None => repeat [] columnCount
        end in
      let newRows := spliceInsert (rows table) rowIndex newCells in
      let newSeparatorIndex :=
        if rowIndex <=? separatorIndex table
        then separatorIndex table + 1
        else separatorIndex table in
      Value (mkTable (startLine table) (endLine table + 1) newRows
               newSeparatorIndex (alignments table))
  end.

(** [null] is [None]. *)
Definition removeRow (table : MarkdownTable) (rowIndex : Z) : js (option MarkdownTable) :=
  if (rowIndex =? 0) || (rowIndex =? separatorIndex table) then Value None
  else
    let newRows := spliceRemove (rows table) rowIndex in
    let newSeparatorIndex :=
      if rowIndex <? separatorIndex table
      then separatorIndex table - 1
      else separatorIndex table in
    Value (Some (mkTable (startLine table) (endLine table - 1) newRows
                   newSeparatorIndex (alignments table))).

Definition moveRow (table : MarkdownTable) (rowIndex : Z) (direction : RowDirection)
  : js (option MarkdownTable) :=
  if (rowIndex =? 0) || (rowIndex =? separatorIndex table) then Value None
  else
    let targetIndex :=
      match direction with
      | MoveUp => rowIndex - 1
      | MoveDown => rowIndex + 1
      end in
    if (targetIndex =? 0) || (targetIndex =? separatorIndex table)
       || (targetIndex <? 0) || (Z.of_nat (length (rows table)) <=? targetIndex)
    then Value None
    else
      match swapAt (rows table) rowIndex targetIndex with
      | Some newRows =>
          Value (Some (mkTable (startLine table) (endLine table) newRows
                         (separatorIndex table) (alignments table)))
      | None => Untyped
      end.

Definition duplicateRow (table : MarkdownTable) (rowIndex : Z) : js (option MarkdownTable) :=
  if (rowIndex =? 0) || (rowIndex =? separatorIndex table) then Value None
  else
    match nthZ (rows table) rowIndex with
    | None => Raises
    | Some rowToDuplicate =>
        js_map Some (insertRow table (rowIndex + 1) (Some rowToDuplicate))
    end.

(* ====================================================================== *)
(** ** CSV conversion *)
(* ====================================================================== *)

(** The scan of [parseCsvLine]: [cells] pushed so far, the [current] field
    and the quote mode.  [line[i + 1]] is the head of the remaining text. *)
Fixpoint parseCsvLine_loop (delim : str) (line : str)
    (cells : list str) (current : str) (inQuotes : bool) : list str :=
  match line with
  | [] => cells ++ [current]
  | char :: rest =>
      if ceqb char DQUOTE then
        match inQuotes, rest with
        | true, next :: rest' =>
            if ceqb next DQUOTE
            then parseCsvLine_loop delim rest' cells (current ++ [DQUOTE]) inQuotes
            else parseCsvLine_loop delim rest cells current (negb inQuotes)
        | _, _ => parseCsvLine_loop delim rest cells current (negb inQuotes)
        end
      else if str_eqb [char] delim && negb inQuotes
      then parseCsvLine_loop delim rest (cells ++ [current]) [] inQuotes
      else parseCsvLine_loop delim rest cells (current ++ [char]) inQuotes
  end.

Definition parseCsvLine (line : str) (delim : str) : list str :=
  parseCsvLine_loop delim line [] [] false.

(** [text.split(/\r?\n/)] *)
Fixpoint splitLines_loop (text : str) (cur : str) : list str :=
  match text with
  | [] => [cur]
  | c :: rest =>
      if ceqb c LF then cur :: splitLines_loop rest []
      else if ceqb c CR then
        match rest with
        | d :: rest' =>
            if ceqb d LF then cur :: splitLines_loop rest' []
            else splitLines_loop rest (cur ++ [c])
        | [] => splitLines_loop rest (cur ++ [c])
        end
      else splitLines_loop rest (cur ++ [c])
  end.

Definition splitLines (text : str) : list str := splitLines_loop text [].

(** [(text.match(/c/g) || []).length] *)
Definition countChar (c : ascii) (text : str) : Z :=
  Z.of_nat (length (filter (fun x => ceqb x c) text)).

Definition isBlank (line : str) : bool :=
  match trim line with
  | [] => true
  | _ => false
  end.

Definition parseCsv (text : str) (options : CsvOptions) : MarkdownTable :=
  let delim :=
    if str_eqb (delimiter options) (lit "auto") then
      let commaCount := countChar (chr 44) text in
      let semicolonCount := countChar (chr 59) text in
      let tabCount := countChar TAB text in
      if (commaCount <? tabCount) && (semicolonCount <? tabCount) then [TAB]
      else if commaCount <? semicolonCount then [chr 59]
      else [chr 44]
    else delimiter options in
  let lines := filter (fun line => negb (isBlank line)) (splitLines text) in
  let rws :=
    map (fun line =>
           let cells := parseCsvLine line delim in
           if trimCells options then map trim cells else cells) lines in
  let rws :=
    match hasHeader options, rws with
    | true, headerRow :: _ =>
        spliceInsert rws 1 (repeat (lit "---") (length headerRow))
    | _, _ => rws
    end in
  let aligns :=
    match rws with
    | headerRow :: _ => repeat AlignNone (length headerRow)
    | [] => []
    end in
  mkTable 0 (Z.of_nat (length rws) - 1) rws
    (if hasHeader options then 1 else -1) aligns.

(** [cell.replace] of every double quote by two of them. *)
Fixpoint doubleQuotes (cell : str) : str :=
  match cell with
  | [] => []
  | c :: rest => if ceqb c DQUOTE then DQUOTE :: DQUOTE :: doubleQuotes rest
                 else c :: doubleQuotes rest
  end.

Definition csvCell (options : CsvOptions) (cell : str) : str :=
  let needsQuotes :=
    match quoteStrings options with
    | QuoteAlways => true
    | QuoteAuto => includes cell (delimiter options) || includes cell [LF]
                   || includes cell [DQUOTE]
    | QuoteNever => false
    end in
  if needsQuotes then [DQUOTE] ++ doubleQuotes cell ++ [DQUOTE] else cell.

Definition tableToCsv (table : MarkdownTable) (options : CsvOptions) : str :=
  let rowsToInclude :=
    if includeHeader options
    then filteri (fun i => negb (i =? separatorIndex table)) (rows table)
    else filteri (fun i => negb (i =? 0) && negb (i =? separatorIndex table))
                 (rows table) in
  join [LF]
    (map (fun row => join (delimiter options) (map (csvCell options) row))
         rowsToInclude).

(** [{ ...options, keepHeaderRow: b }] *)
Definition with_keepHeaderRow (options : SortOptions) (b : bool) : SortOptions :=
  mkSortOptions (columnIndex options) (direction options) (sortType options)
    (caseSensitive options) b.

(** The move target of [moveColumn] is outside the header row. *)
Definition targetOutOfBounds (table : MarkdownTable) (columnIndex : Z)
    (direction : ColumnDirection) : Prop :=
  let targetIndex :=
    match direction with
    | MoveLeft => columnIndex - 1
    | MoveRight => columnIndex + 1
    end in
  match rows table with
  | [] => False
  | headerRow :: _ => targetIndex < 0 \/ Z.of_nat (length headerRow) <= targetIndex
  end.

(** Tables used as concrete inputs. *)
Definition people : MarkdownTable :=
  mkTable 0 3
    [ [lit "Name"; lit "Age"];
      [lit "---"; lit "---"];
      [lit "Alice"; lit "30"];
      [lit "Bob"; lit "25"] ]
    1 [AlignNone; AlignNone].

Definition twins : MarkdownTable :=
  mkTable 0 2
    [ [lit "x"; lit "x"];
      [lit "---"; lit "---"];
      [lit "1"; lit "1"] ]
    1 [AlignNone; AlignNone].

(* ====================================================================== *)
(** ** Positions, widths, columns, transpose, HTML, scaffold, lines *)
(* ====================================================================== *)

(** The [for] loop of [getColumnAtPosition]: [i] is the index of the head
    of [line]. *)
Fixpoint getColumnAtPosition_loop (line : str) (i charPosition columnIndex : Z) : Z :=
  match line with
  | [] => columnIndex
  | c :: rest =>
      if i <=? charPosition
      then getColumnAtPosition_loop rest (i + 1) charPosition
             (if ceqb c PIPE then columnIndex + 1 else columnIndex)
      else columnIndex
  end.

Definition getColumnAtPosition (line : str) (charPosition : Z) : Z :=
  Z.max 0 (getColumnAtPosition_loop line 0 charPosition (-1)).

(** [Math.max()] of no argument is [-Infinity], and [new Array(-Infinity)]
    throws. *)
Definition calculateColumnWidths (table : MarkdownTable) : js (list Z) :=
  match rows table with
  | [] => Raises
  | _ :: _ =>
      Value (fold_left maxInto (rows table)
               (repeat 0 (Z.to_nat (columnCountOf (rows table)))))
  end.

Definition insertColumn (table : MarkdownTable) (columnIndex : Z)
    (headerText defaultValue : str) (alignment : ColumnAlignment) : MarkdownTable :=
  let newRows :=
    mapi (fun rowIndex row =>
            if rowIndex =? 0 then spliceInsert row columnIndex headerText
            else if rowIndex =? separatorIndex table
            then spliceInsert row columnIndex (alignmentMarker3 alignment)
            else spliceInsert row columnIndex defaultValue)
         (rows table) in
  let newAlignments := spliceInsert (alignments table) columnIndex alignment in
  mkTable (startLine table) (endLine table) newRows (separatorIndex table) newAlignments.

Definition removeColumn (table : MarkdownTable) (columnIndex : Z) : MarkdownTable :=
  let newRows := map (fun row => spliceRemove row columnIndex) (rows table) in
  let newAlignments := spliceRemove (alignments table) columnIndex in
  mkTable (startLine table) (endLine table) newRows (separatorIndex table) newAlignments.

(** [a[i] = x] on a copy.  Inside the array it replaces, at its end it
    appends, beyond it leaves empty slots; a negative [i] sets a property
    of the object and no element. *)
Definition setAt {A} (l : list A) (i : Z) (x : A) : js (list A) :=
  if i <? 0 then Value l
  else if Z.of_nat (length l) <? i then Untyped
  else Value (firstn (Z.to_nat i) l ++ x :: skipn (S (Z.to_nat i)) l).

Definition alignmentMarker4 (alignment : ColumnAlignment) : str :=
  match alignment with
  | AlignRight => lit "---:"
  | AlignCenter => lit ":---:"
  | AlignLeft => lit ":---"
  | AlignNone => lit "---"
  end.

(** [rows.map(f)] where [f] may leave an empty slot. *)
Fixpoint mapJ {A B} (f : Z -> A -> js B) (i : Z) (l : list A) : js (list B) :=
  match l with
  | [] => Value []
  | x :: tl =>
      match f i x, mapJ f (i + 1) tl with
      | Value y, Value ys => Value (y :: ys)
      | Raises, _ | _, Raises => Raises
      | _, _ => Untyped
      end
  end.

Definition setColumnAlignment (table : MarkdownTable) (columnIndex : Z)
    (alignment : ColumnAlignment) : js MarkdownTable :=
  match setAt (alignments table) columnIndex alignment,
        mapJ (fun rowIndex row =>
                if negb (rowIndex =? separatorIndex table) then Value row
                else setAt row columnIndex (alignmentMarker4 alignment))
             0 (rows table) with
  | Value newAlignments, Value newRows =>
      Value (mkTable (startLine table) (endLine table) newRows
               (separatorIndex table) newAlignments)
  | Raises, _ | _, Raises => Raises
  | _, _ => Untyped
  end.

Definition transposeTable (table : MarkdownTable) : js MarkdownTable :=
  match rows table with
  | [] => Raises
  | headerRow :: _ =>
      let dataRows :=
        filteri (fun i => negb (i =? 0) && negb (i =? separatorIndex table))
                (rows table) in
      match nthZ headerRow 0, mapM (fun row => nthZ row 0) dataRows with
      | Some h0, Some firsts =>
          let newHeader := h0 :: firsts in
          let newDataRows :=
            map (fun col =>
                   nth col headerRow []
                     :: map (fun row => orStr (nth_error row col) []) dataRows)
                (seq 1 (length headerRow - 1)) in
          let newSeparator := repeat (lit "---") (length newHeader) in
          let newRows := newHeader :: newSeparator :: newDataRows in
          Value (mkTable (startLine table)
                   (startLine table + Z.of_nat (length newRows) - 1)
                   newRows 1 (repeat AlignNone (length newHeader)))
      | _, _ => Untyped
      end
  end.

(** [text.replace(/c/g, entity)] *)
Definition replaceChar (c : ascii) (entity : str) (text : str) : str :=
  flat_map (fun x => if ceqb x c then entity else [x]) text.

Definition AMP : ascii := chr 38.
Definition LT : ascii := chr 60.
Definition GT : ascii := chr 62.
Definition APOS : ascii := chr 39.

Definition escapeHtml (text : str) : str :=
  replaceChar APOS (lit "&#39;")
    (replaceChar DQUOTE (lit "&quot;")
       (replaceChar GT (lit "&gt;")
          (replaceChar LT (lit "&lt;")
             (replaceChar AMP (lit "&amp;") text)))).

(** The three [for] loops over [c < columns] and the one over
    [r < rows - 1]. *)
Definition createEmptyTable (rws columns : Z) (alignment : ColumnAlignment)
  : MarkdownTable :=
  let headerRow :=
    map (fun c => lit "Column " ++ String_of_number (Z.of_nat c + 1))
        (seq 0 (Z.to_nat columns)) in
  let separatorRow :=
    repeat (match alignment with
            | AlignCenter => lit ":---:"
            | AlignRight => lit "---:"
            | _ => lit ":---"
            end) (Z.to_nat columns) in
  let dataRows := repeat (repeat [] (Z.to_nat columns)) (Z.to_nat (rws - 1)) in
  mkTable 0 rws (headerRow :: separatorRow :: dataRows) 1
    (repeat alignment (Z.to_nat columns)).

Definition tableToLines (table : MarkdownTable) : list str :=
  map joinRow (rows table).

(* ====================================================================== *)
(** ** Vocabulary of the properties, and sample inputs *)
(* ====================================================================== *)

Definition numbered_header_only : MarkdownTable :=
  mkTable 0 1 [ [lit " No. "; lit "Name"]; [lit "---"; lit "---"] ] 1
    [AlignNone; AlignNone].

(** What the scan guarantees about the tables found from line [i] on. *)
Definition accepted (t : MarkdownTable) : Prop :=
  (2 <= length (rows t))%nat /\ separatorIndex t = 1.

Definition before (a b : MarkdownTable) : Prop :=
  startLine a < startLine b /\ endLine a < startLine b.

(** [out] is [cell] with spaces added on either side. *)
Definition keepsText (cell out : str) : Prop :=
  exists l r : nat, out = repeat SPACE l ++ cell ++ repeat SPACE r.

Definition wide_doc : list str :=
  [ lit "| Name | Age | Description |";
    lit "|---|---|:--|";
    lit "| John Doe   |   30    | short  |";
    lit "| Al | 4 | a very very long description that does not fit at all |";
    lit "| Bo | 5 | medium length text |" ].

Definition wide_table : MarkdownTable :=
  mkTable 0 4
    [ [lit "Name"; lit "Age"; lit "Description"];
      [lit "---"; lit "---"; lit ":--"];
      [lit "John Doe"; lit "30"; lit "short"];
      [lit "Al"; lit "4"; lit "a very very long description that does not fit at all"];
      [lit "Bo"; lit "5"; lit "medium length text"] ]
    1 [AlignNone; AlignNone; AlignLeft].

Definition width40 : FormatOptions := mkFormatOptions 40 true true true false.

(** The text of a separator cell built by [createSeparatorCell], without
    its padding: [lc] and [rc] tell whether a colon leads and trails. *)
Definition separatorCore (lc rc : bool) (dashes : Z) : str :=
  (if lc then [COLON] else []) ++ repeatc DASH dashes ++ (if rc then [COLON] else []).

(** The padding [formatTable] puts around the content of a cell of row [r]. *)
Definition rowPadding (t : MarkdownTable) (o : FormatOptions) (r : nat) : bool :=
  if Z.of_nat r =? separatorIndex t
  then fo_cellPadding o && fo_separatorPadding o
  else fo_cellPadding o.

Definition ratio_doc : list str :=
  [ lit "| abc | abcdefghi |"; lit "|---|---|"; lit "| x | y |" ].

Definition ratio_table : MarkdownTable :=
  mkTable 0 2
    [ [lit "abc"; lit "abcdefghi"]; [lit "---"; lit "---"]; [lit "x"; lit "y"] ]
    1 [AlignNone; AlignNone].

Definition unlimited_keeping_ratios : FormatOptions :=
  mkFormatOptions 0 false false true true.

(** The key in the words of the specification: the value of the first
    signed decimal run that appears in the cell, [0] when there is none. *)
Fixpoint firstNumericRun (cell : str) : option jsnum :=
  match parseFloat cell with
  | Some v => Some v
  | None =>
      match cell with
      | [] => None
      | _ :: rest => firstNumericRun rest
      end
  end.

Definition numericKey_firstRun (cell : str) : jsnum := orZero (firstNumericRun cell).

(** A text with no white space at either end. *)
Definition cleanStart (s : str) : Prop :=
  match s with
  | [] => True
  | c :: _ => isWhite c = false
  end.

Definition trimmed (s : str) : Prop := cleanStart s /\ cleanStart (rev s).

Definition COMMA : ascii := chr 44.

(** The line [tableToCsv] emits for a row under the default options. *)
Definition csvLine (row : list str) : str :=
  join [COMMA] (map (csvCell getDefaultCsvOptions) row).

(** The rows [parseCsv] reads under the default options, before the
    separator row is inserted. *)
Definition csvDataRows (text : str) : list (list str) :=
  map (fun line => map trim (parseCsvLine line [COMMA]))
      (filter (fun line => negb (isBlank line)) (splitLines text)).

(** The table [parseCsv] builds from its data rows under the default options. *)
Definition csvTableOf (rws : list (list str)) : MarkdownTable :=
  match rws with
  | [] => mkTable 0 (-1) [] 1 []
  | headerRow :: rest =>
      mkTable 0 (Z.of_nat (length (headerRow :: repeat (lit "---") (length headerRow) :: rest)) - 1)
        (headerRow :: repeat (lit "---") (length headerRow) :: rest) 1
        (repeat AlignNone (length headerRow))
  end.

Definition noChar (c : ascii) (s : str) : Prop := Forall (fun x => ceqb x c = false) s.

(** A line that [split(/\r?\n/)] gives back as one piece. *)
Definition lineOk (l : str) : Prop := noChar LF l /\ last l SPACE <> CR.

(** A row as [parseCsv] produces them: not empty, every cell trimmed and
    free of line feeds. *)
Definition csvRowOk (row : list str) : Prop :=
  row <> [] /\ Forall (fun c => trimmed c /\ noChar LF c) row.

(** What may follow a quoted field: the end of the line or a delimiter. *)
Definition afterField (rest : str) : Prop :=
  match rest with
  | [] => True
  | d :: _ => d = COMMA
  end.

Definition csv_sample : str :=
  lit "name, note ,n" ++ [CR; LF]
  ++ lit "Ann," ++ [DQUOTE] ++ lit "x,y" ++ [DQUOTE; DQUOTE; DQUOTE] ++ lit ",3" ++ [LF; LF]
  ++ lit "Bob,,4".

(** A row as the Row Parser produces them: not empty, every cell trimmed
    and free of pipes. *)
Definition parsedRow (row : list str) : Prop :=
  row <> [] /\ Forall (fun c => trimmed c /\ noChar PIPE c) row.

Definition isDash (c : ascii) : bool := ceqb c DASH.

(** A located table is a header line that is not a separator, a separator
    line, and data lines, each parsed by the Row Parser. *)
Definition locatedShape (t : MarkdownTable) : Prop :=
  exists hline sline dlines,
    isTableRow hline = true /\ isTableSeparator hline = false
    /\ isTableRow sline = true /\ isTableSeparator sline = true
    /\ rows t = parseTableRow hline :: parseTableRow sline :: map parseTableRow dlines
    /\ separatorIndex t = 1
    /\ alignments t = parseAlignments (parseTableRow sline).

(** The separator cells [compactTable] renders: [w] gives the width it
    chose for each column. *)
Definition compactSeparatorCells (t : MarkdownTable) (co : CompactOptions)
    (w : Z -> Z) (sepRow : list str) : list str :=
  mapi (fun i cell => createSeparatorCell cell (w i) co (nthZ (alignments t) i)) sepRow.

Definition padded_doc : list str :=
  [ lit "| Header1   | Header2   |";
    lit "|-----------|-----------|";
    lit "| Cell1     | Cell2     |" ].

Definition padded_table : MarkdownTable :=
  mkTable 0 2
    [ [lit "Header1"; lit "Header2"];
      [lit "-----------"; lit "-----------"];
      [lit "Cell1"; lit "Cell2"] ]
    1 [AlignNone; AlignNone].

Definition compacted_table : MarkdownTable :=
  mkTable 0 2
    [ [lit "Header1"; lit "Header2"];
      [lit "-------"; lit "-------"];
      [lit "Cell1"; lit "Cell2"] ]
    1 [AlignNone; AlignNone].

(** What the scan knows of a table found from line [i] on, [rest] being
    the lines from there: the table is the parsed run [consumed], which
    follows [pre], and none of its lines is skipped as code. *)
Definition spansAt (icb : bool) (ranges : list Range) (i : Z) (rest : list str)
    (t : MarkdownTable) : Prop :=
  exists pre consumed post,
    rest = pre ++ consumed ++ post
    /\ startLine t = i + Z.of_nat (length pre)
    /\ endLine t = startLine t + Z.of_nat (length consumed) - 1
    /\ rows t = map parseTableRow consumed
    /\ Forall (fun l => isTableRow l = true) consumed
    /\ (forall k, (k < length consumed)%nat ->
                  icb && isLineInCodeBlock (startLine t + Z.of_nat k) ranges = false).

Definition fenced_doc : list str :=
  [ lit "```"; lit "| a |"; lit "|---|"; lit "```";
    lit "| b |"; lit "|:-:|"; lit "| c |" ].

Definition fenced_table : MarkdownTable :=
  mkTable 4 6 [ [lit "b"]; [lit ":-:"]; [lit "c"] ] 1 [AlignCenter].

(** What [escapeHtml] writes for one character. *)
Definition escapeChar (c : ascii) : str :=
  if ceqb c AMP then lit "&amp;"
  else if ceqb c LT then lit "&lt;"
  else if ceqb c GT then lit "&gt;"
  else if ceqb c DQUOTE then lit "&quot;"
  else if ceqb c APOS then lit "&#39;"
  else [c].

(** The characters that open or close markup or an attribute value. *)
Definition isMarkup (c : ascii) : bool :=
  ceqb c LT || ceqb c GT || ceqb c DQUOTE || ceqb c APOS.

(** The text of a row up to the pipe that opens the cell after [before]. *)
Definition upToCell (before : list str) : str := flat_map (cons PIPE) before.

(** A line that opens a code block when none is open: a fence. *)
Definition opensFence (line : str) : bool :=
  startsWith (trim line) (lit "```") || startsWith (trim line) (lit "~~~").

(** A range of [lines] that starts at a fence and ends before line [bound]. *)
Definition fencedRange (lines : list str) (bound : Z) (r : Range) : Prop :=
  0 <= range_start r <= range_end r
  /\ range_end r < bound
  /\ exists line, nthZ lines (range_start r) = Some line /\ opensFence line = true.

(** Column [col] of the rows [rws], and their first [n] columns as rows. *)
Definition column (rws : list (list str)) (col : nat) : list str :=
  map (fun row => nth col row []) rws.

Definition transposed (rws : list (list str)) (n : nat) : list (list str) :=
  map (column rws) (seq 0 n).

(** Row [r] is the separator row and takes the proportional widths. *)
Definition followsRatios (t : MarkdownTable) (o : FormatOptions) (r : nat) : bool :=
  (Z.of_nat r =? separatorIndex t) && fo_keepSeparatorRatios o.

(** The proportional separator widths [formatTable] computes from the
    separator row [row]: they share out the sum of the column widths. *)
Definition proportionalWidthsOf (t : MarkdownTable) (row : list str) : list Z :=
  calculateProportionalSeparatorWidths row (fold_left Z.add (columnWidthsOf t) 0).

(** Numbering [n] rows from [start] on stays where doubles count by one
    exactly and [String] prints plain digits: no number is negative and the
    counter never passes [2^53]. *)
Definition safeNumbering (start : Z) (n : nat) : Prop :=
  0 <= start /\ start + Z.of_nat n <= 2 ^ 53.

(* ====================================================================== *)
(** * Properties *)
(* ====================================================================== *)

(** ** Characters and strings *)

Lemma ceqb_eq (a b : ascii) : ceqb a b = true <-> a = b.
Proof. unfold ceqb. apply Ascii.eqb_eq. Qed.

Lemma ceqb_refl (a : ascii) : ceqb a a = true.
Proof. apply ceqb_eq. reflexivity. Qed.

Lemma ceqb_neq (a b : ascii) : ceqb a b = false <-> a <> b.
Proof. unfold ceqb. apply Ascii.eqb_neq. Qed.

Lemma str_eqb_eq (a b : str) : str_eqb a b = true <-> a = b.
Proof.
  revert b. induction a as [|x a IH]; intros [|y b]; simpl; split; intro H;
    try reflexivity; try discriminate.
  - apply andb_true_iff in H as [H1 H2].
    apply ceqb_eq in H1. apply IH in H2. congruence.
  - injection H as -> ->. rewrite ceqb_refl. apply IH. reflexivity.
Qed.

Lemma str_eqb_refl (a : str) : str_eqb a a = true.
Proof. apply str_eqb_eq. reflexivity. Qed.

Lemma existsb_str_eqb (x : str) (l : list str) :
  existsb (str_eqb x) l = true <-> In x l.
Proof.
  rewrite existsb_exists. split.
  - intros (y & Hy & E). apply str_eqb_eq in E. subst. assumption.
  - intro H. exists x. split; [assumption | apply str_eqb_refl].
Qed.

Lemma lowerChar_white (c : ascii) : isWhite (lowerChar c) = isWhite c.
Proof. destruct c as [[] [] [] [] [] [] [] []]; reflexivity. Qed.

Lemma lowerChar_idem (c : ascii) : lowerChar (lowerChar c) = lowerChar c.
Proof. destruct c as [[] [] [] [] [] [] [] []]; reflexivity. Qed.

Lemma toLowerCase_idem (s : str) : toLowerCase (toLowerCase s) = toLowerCase s.
Proof.
  unfold toLowerCase. rewrite map_map. apply map_ext. apply lowerChar_idem.
Qed.

Lemma dropWhile_white_lower (s : str) :
  dropWhile isWhite (toLowerCase s) = toLowerCase (dropWhile isWhite s).
Proof.
  induction s as [|c s IH]; simpl; [reflexivity|].
  rewrite lowerChar_white. destruct (isWhite c); [assumption | reflexivity].
Qed.

Lemma toLowerCase_rev (s : str) : toLowerCase (rev s) = rev (toLowerCase s).
Proof. unfold toLowerCase. apply map_rev. Qed.

Lemma trim_toLowerCase (s : str) : trim (toLowerCase s) = toLowerCase (trim s).
Proof.
  unfold trim, trimEnd, trimStart.
  rewrite dropWhile_white_lower, <- toLowerCase_rev, dropWhile_white_lower,
    toLowerCase_rev.
  reflexivity.
Qed.

(** ** Row mutators *)

Lemma spliceInsert_length {A} (l : list A) (start : Z) (x : A) :
  length (spliceInsert l start x) = S (length l).
Proof.
  unfold spliceInsert.
  set (k := spliceStart l start).
  pose proof (f_equal (@length A) (firstn_skipn k l)) as E.
  rewrite length_app in E. rewrite length_app. simpl. lia.
Qed.

(** C6 (as stated, refuted): [insertRow] at the header index builds a new
    table with a blank row above the header; it has no rejection branch and
    its result, seen as a nullable table, is never the [null] sentinel. *)
Lemma C6_insertRow_accepts_header_index :
  insertRow people 0 None
  = Value (mkTable 0 4 ([[]; []] :: rows people) 2 [AlignNone; AlignNone])
  /\ js_map Some (insertRow people 0 None) <> Value None
  /\ ~ (forall table rowIndex cells,
          rowIndex = 0 \/ rowIndex = separatorIndex table ->
          js_map Some (insertRow table rowIndex cells) = Value None).
Proof.
  split; [reflexivity|]. split; [discriminate|].
  intro H. specialize (H people 0 None (or_introl eq_refl)). discriminate H.
Qed.

(** C6 (amended): for a row index equal to 0 or to [separatorIndex],
    [removeRow], [moveRow] and [duplicateRow] return [null]; [insertRow]
    does not reject: on a table with a header row it returns the table with
    the new row (the given cells filled up with empty cells to the header's
    length, or that many empty cells) spliced in at that index, [endLine]
    raised by one, [separatorIndex] raised by one when the index is at or
    before the separator, and the same [startLine] and alignments.  For an
    index inside the table the rows before the index stay, the new row comes
    next, and the rows from the index on follow. *)
Theorem C6_row_mutators_on_header_or_separator :
  forall (table : MarkdownTable) (rowIndex : Z),
    rowIndex = 0 \/ rowIndex = separatorIndex table ->
    removeRow table rowIndex = Value None
    /\ (forall direction, moveRow table rowIndex direction = Value None)
    /\ duplicateRow table rowIndex = Value None
    /\ (forall cells headerRow rest,
        rows table = headerRow :: rest ->
        exists newCells,
          newCells = match cells with
                     | Some cs => cs ++ repeat [] (length headerRow - length cs)
                     | None => repeat [] (length headerRow)
                     end
          /\ insertRow table rowIndex cells
             = Value (mkTable (startLine table) (endLine table + 1)
                        (spliceInsert (rows table) rowIndex newCells)
                        (if rowIndex <=? separatorIndex table
                         then separatorIndex table + 1 else separatorIndex table)
                        (alignments table))
          /\ (0 <= rowIndex <= Z.of_nat (length (rows table)) ->
              spliceInsert (rows table) rowIndex newCells
              = firstn (Z.to_nat rowIndex) (rows table)
                ++ newCells :: skipn (Z.to_nat rowIndex) (rows table))).
Proof.
  intros table rowIndex Hidx.
  assert (G : (rowIndex =? 0) || (rowIndex =? separatorIndex table) = true).
  { apply orb_true_iff. destruct Hidx as [-> | ->]; [left | right];
      apply Z.eqb_refl. }
  repeat split.
  - unfold removeRow. rewrite G. reflexivity.
  - intro direction. unfold moveRow. rewrite G. reflexivity.
  - unfold duplicateRow. rewrite G. reflexivity.
  - intros cells headerRow rest Hrows.
    eexists. split; [reflexivity|]. split.
    + unfold insertRow. rewrite Hrows. reflexivity.
    + intro Hi. unfold spliceInsert, spliceStart.
      replace (rowIndex <? 0) with false by (symmetry; apply Z.ltb_ge; lia).
      replace (Z.min rowIndex (Z.of_nat (length (rows table)))) with rowIndex by lia.
      reflexivity.
Qed.

Lemma C6_row_mutators_witness :
  removeRow people 1 = Value None
  /\ (forall direction, moveRow people 1 direction = Value None)
  /\ duplicateRow people 1 = Value None
  /\ (forall cells headerRow rest,
      rows people = headerRow :: rest ->
      exists newCells,
        newCells = match cells with
                   | Some cs => cs ++ repeat [] (length headerRow - length cs)
                   | None => repeat [] (length headerRow)
                   end
        /\ insertRow people 1 cells
           = Value (mkTable (startLine people) (endLine people + 1)
                      (spliceInsert (rows people) 1 newCells)
                      (if 1 <=? separatorIndex people
                       then separatorIndex people + 1 else separatorIndex people)
                      (alignments people))
        /\ (0 <= 1 <= Z.of_nat (length (rows people)) ->
            spliceInsert (rows people) 1 newCells
            = firstn (Z.to_nat 1) (rows people)
              ++ newCells :: skipn (Z.to_nat 1) (rows people))).
Proof.
  apply (C6_row_mutators_on_header_or_separator people 1).
  right. reflexivity.
Defined.

(** ** Column mutators *)

(** C7 (as stated, refuted): no test on the value [moveColumn] returns
    tells a rejected move from a successful one.  On [twins] the move of
    column 0 to the left is out of bounds, the move to the right is not, and
    both calls return the same table.  (Only the identity of the returned
    object differs in JavaScript, and no caller looks at it.) *)
Lemma C7_moveColumn_no_sentinel :
  targetOutOfBounds twins 0 MoveLeft
  /\ ~ targetOutOfBounds twins 0 MoveRight
  /\ moveColumn twins 0 MoveLeft = moveColumn twins 0 MoveRight
  /\ ~ (exists isRejected : js MarkdownTable -> bool,
          forall table columnIndex direction,
            rows table <> [] ->
            (isRejected (moveColumn table columnIndex direction) = true
             <-> targetOutOfBounds table columnIndex direction)).
Proof.
  assert (L : targetOutOfBounds twins 0 MoveLeft) by (left; reflexivity).
  assert (R : ~ targetOutOfBounds twins 0 MoveRight).
  { intros [H | H]; [discriminate H | apply H; reflexivity]. }
  assert (E : moveColumn twins 0 MoveLeft = moveColumn twins 0 MoveRight)
    by reflexivity.
  repeat split; try assumption.
  intros (isRejected & H).
  assert (N : rows twins <> []) by discriminate.
  apply R. apply (H twins 0 MoveRight N). rewrite <- E.
  apply (H twins 0 MoveLeft N). exact L.
Qed.

(** C7 (amended): when the move target is out of bounds of the header row,
    [moveColumn] returns the input table itself, unchanged. *)
Theorem C7_moveColumn_out_of_bounds_returns_input :
  forall (table : MarkdownTable) (columnIndex : Z) (direction : ColumnDirection),
    targetOutOfBounds table columnIndex direction ->
    moveColumn table columnIndex direction = Value table.
Proof.
  intros table columnIndex direction H.
  unfold targetOutOfBounds in H. unfold moveColumn.
  destruct (rows table) as [|headerRow rest]; [contradiction|].
  destruct (_ <? 0) eqn:E; [reflexivity|].
  apply Z.ltb_ge in E. destruct H as [H | H]; [lia|].
  replace (_ <=? _) with true; [reflexivity|].
  symmetry. apply Z.leb_le. exact H.
Qed.

Lemma C7_moveColumn_witness :
  moveColumn people 1 MoveRight = Value people.
Proof.
  apply (C7_moveColumn_out_of_bounds_returns_input people 1 MoveRight).
  right. discriminate.
Defined.

(** ** Sorting *)

(** C9: the keep-header-row flag has no effect on [sortTable]. *)
Theorem C9_keepHeaderRow_has_no_effect :
  forall (localeCompare : str -> str -> Z) (Date_getTime : str -> option Z)
         (table : MarkdownTable) (options : SortOptions),
    sortTable localeCompare Date_getTime table (with_keepHeaderRow options true)
    = sortTable localeCompare Date_getTime table (with_keepHeaderRow options false).
Proof.
  intros. unfold sortTable. simpl keepHeaderRow. cbv iota.
  replace (compareRows localeCompare Date_getTime (with_keepHeaderRow options true))
    with (compareRows localeCompare Date_getTime (with_keepHeaderRow options false))
    by reflexivity.
  reflexivity.
Qed.

(** ** Row numbers *)

Lemma knownHeaders_spec (headerText h : str) :
  In (toLowerCase (trim h))
     [lit "#"; lit "no"; lit "no."; lit "nr"; lit "nr."; lit "num"; lit "row";
      headerText] ->
  In (trim (toLowerCase h)) (knownHeaders headerText).
Proof.
  rewrite trim_toLowerCase. unfold knownHeaders. simpl.
  intros [H|[H|[H|[H|[H|[H|[H|[H|[]]]]]]]]]; auto 10.
  do 7 right. left. rewrite H. apply toLowerCase_idem.
Qed.

(** C10: on a table made of a header and a separator only, whose first
    header cell, trimmed and lowercased, is a known row-number header or the
    configured header text, [hasRowNumbers] is true and [addRowNumbers]
    overwrites the first column: the header cell becomes the configured
    text, the separator cell the alignment marker, and no column is added. *)
Theorem C10_two_row_table_is_overwritten :
  forall (table : MarkdownTable) (options : RowNumberOptions)
         (h : str) (headerRest separatorRow : list str),
    separatorIndex table = 1 ->
    rows table = [h :: headerRest; separatorRow] ->
    In (toLowerCase (trim h))
       [lit "#"; lit "no"; lit "no."; lit "nr"; lit "nr."; lit "num"; lit "row";
        rn_headerText options] ->
    hasRowNumbers table (rn_headerText options) = Value true
    /\ addRowNumbers table options
       = Value (mkTable (startLine table) (endLine table)
                  [ rn_headerText options :: headerRest;
                    setFirst (alignmentMarker3 (rn_alignment options)) separatorRow ]
                  1
                  (rn_alignment options :: skipn 1 (alignments table))).
Proof.
  intros table options h headerRest separatorRow Hsep Hrows Hin.
  apply knownHeaders_spec in Hin. apply existsb_str_eqb in Hin.
  assert (Hhas : hasRowNumbers table (rn_headerText options) = Value true).
  { unfold hasRowNumbers. rewrite Hrows.
    change (firstCell (h :: headerRest)) with (Some h).
    cbn [option_map]. rewrite Hin. reflexivity. }
  split; [exact Hhas|].
  unfold addRowNumbers. rewrite Hhas, Hrows, Hsep. reflexivity.
Qed.

Lemma C10_two_row_table_witness :
  hasRowNumbers numbered_header_only (lit "#") = Value true
  /\ addRowNumbers numbered_header_only getDefaultRowNumberOptions
     = Value (mkTable 0 1 [ [lit "#"; lit "Name"]; [lit "---:"; lit "---"] ] 1
                [AlignRight; AlignNone]).
Proof.
  apply (C10_two_row_table_is_overwritten numbered_header_only
           getDefaultRowNumberOptions (lit " No. ") [lit "Name"] [lit "---"; lit "---"]).
  - reflexivity.
  - reflexivity.
  - simpl. right. right. left. reflexivity.
Defined.

(** ** The Locator *)

Lemma findTables_run_index (icb : bool) (ranges : list Range) (rest : list str) :
  forall i rws sep al rws' sep' al' j rest2,
    findTables_run icb ranges i rest rws sep al = (rws', sep', al', j, rest2) ->
    j = i + Z.of_nat (length rest) - Z.of_nat (length rest2)
    /\ (length rest2 <= length rest)%nat.
Proof.
  induction rest as [|line rest' IH]; intros i rws sep al rws' sep' al' j rest2 H;
    simpl in H.
  - injection H as <- <- <- <- <-. simpl. lia.
  - destruct (negb (isTableRow line)).
    { injection H as <- <- <- <- <-. simpl. lia. }
    destruct (icb && isLineInCodeBlock i ranges).
    { injection H as <- <- <- <- <-. simpl. lia. }
    destruct ((sep =? -1) && isTableSeparator line);
      apply IH in H; destruct H as [-> Hle]; simpl length; lia.
Qed.

Lemma findTables_run_first (icb : bool) (ranges : list Range) (line : str)
    (rest' : list str) (i : Z) rws' sep' al' j rest2 :
  isTableRow line = true ->
  icb && isLineInCodeBlock i ranges = false ->
  findTables_run icb ranges i (line :: rest') [] (-1) [] = (rws', sep', al', j, rest2) ->
  i + 1 <= j /\ (length rest2 <= length rest')%nat.
Proof.
  intros Hrow Hcode H. simpl in H. rewrite Hrow, Hcode in H. simpl negb in H.
  cbv iota in H.
  destruct (isTableSeparator line); simpl in H;
    apply findTables_run_index in H; lia.
Qed.

Lemma findTables_loop_total (icb : bool) (ranges : list Range) (fuel : nat) :
  forall i rest,
    (length rest < fuel)%nat ->
    exists ts, findTables_loop fuel icb ranges i rest = Some ts.
Proof.
  induction fuel as [|fuel IH]; intros i rest Hlen; [lia|].
  destruct rest as [|line rest']; cbn [findTables_loop].
  - exists []. reflexivity.
  - simpl in Hlen.
    destruct (icb && isLineInCodeBlock i ranges) eqn:Hcode.
    { apply IH. lia. }
    destruct (isTableRow line) eqn:Hrow.
    2:{ apply IH. lia. }
    destruct (findTables_run icb ranges i (line :: rest') [] (-1) [])
      as [[[[rws sep] al] j] rest2] eqn:Hrun.
    destruct (findTables_run_first _ _ _ _ _ _ _ _ _ _ Hrow Hcode Hrun) as [_ Hle].
    destruct (IH j rest2) as [ts Hts]; [lia|].
    rewrite Hts. simpl. eexists. reflexivity.
Qed.

(** The Locator always returns. *)
Lemma findTables_total (lines : list str) (icb : bool) :
  exists ts, findTables lines icb = Some ts.
Proof. unfold findTables. apply findTables_loop_total. lia. Qed.

Lemma findTables_loop_sound (icb : bool) (ranges : list Range) (fuel : nat) :
  forall i rest ts,
    findTables_loop fuel icb ranges i rest = Some ts ->
    Forall (fun t => accepted t /\ i <= startLine t <= endLine t) ts
    /\ StronglySorted before ts.
Proof.
  induction fuel as [|fuel IH]; intros i rest ts H; [discriminate|].
  destruct rest as [|line rest']; cbn [findTables_loop] in H.
  - injection H as <-. split; constructor.
  - destruct (icb && isLineInCodeBlock i ranges) eqn:Hcode.
    { apply IH in H. destruct H as [Hall Hs]. split; [|exact Hs].
      eapply Forall_impl; [|exact Hall]. simpl. intros t Ht. intuition lia. }
    destruct (isTableRow line) eqn:Hrow.
    2:{ apply IH in H. destruct H as [Hall Hs]. split; [|exact Hs].
        eapply Forall_impl; [|exact Hall]. simpl. intros t Ht. intuition lia. }
    destruct (findTables_run icb ranges i (line :: rest') [] (-1) [])
      as [[[[rws sep] al] j] rest2] eqn:Hrun.
    destruct (findTables_run_first _ _ _ _ _ _ _ _ _ _ Hrow Hcode Hrun) as [Hj _].
    destruct (findTables_loop fuel icb ranges j rest2) as [ts'|] eqn:Hrec;
      [|discriminate].
    simpl in H. injection H as <-.
    apply IH in Hrec. destruct Hrec as [Hall Hs].
    assert (Hall' : Forall (fun t => accepted t /\ i <= startLine t <= endLine t) ts').
    { eapply Forall_impl; [|exact Hall]. simpl. intros t Ht. intuition lia. }
    destruct ((2 <=? Z.of_nat (length rws)) && (sep =? 1)) eqn:Hok; simpl.
    + apply andb_true_iff in Hok as [H2 H1].
      apply Z.leb_le in H2. apply Z.eqb_eq in H1.
      split.
      * constructor; [|exact Hall']. unfold accepted. simpl. repeat split; lia.
      * constructor; [exact Hs|].
        eapply Forall_impl; [|exact Hall]. intros t [_ Ht].
        unfold before. simpl. lia.
    + split; assumption.
Qed.

Lemma findTables_loop_no_rows (icb : bool) (ranges : list Range) (fuel : nat) :
  forall i rest,
    (length rest < fuel)%nat ->
    Forall (fun line => isTableRow line = false) rest ->
    findTables_loop fuel icb ranges i rest = Some [].
Proof.
  induction fuel as [|fuel IH]; intros i rest Hlen Hall; [lia|].
  destruct rest as [|line rest']; cbn [findTables_loop]; [reflexivity|].
  inversion Hall as [|? ? Hline Hrest]; subst. simpl in Hlen.
  rewrite Hline.
  destruct (icb && isLineInCodeBlock i ranges); apply IH; (lia || assumption).
Qed.

(** C2: [findTables] returns; every table it returns has at least two rows
    and its separator at index 1; the tables come in strictly ascending
    [startLine] order with pairwise disjoint, non-empty line ranges; and an
    input without pipe-delimited rows yields the empty sequence. *)
Theorem C2_findTables_tables_are_valid_and_ordered :
  forall (lines : list str) (ignoreCodeBlocks : bool),
  exists ts,
    findTables lines ignoreCodeBlocks = Some ts
    /\ Forall (fun t => (2 <= length (rows t))%nat /\ separatorIndex t = 1) ts
    /\ Forall (fun t => startLine t <= endLine t) ts
    /\ StronglySorted
         (fun a b => startLine a < startLine b /\ endLine a < startLine b) ts
    /\ (Forall (fun line => isTableRow line = false) lines -> ts = []).
Proof.
  intros lines icb.
  destruct (findTables_total lines icb) as [ts Hts].
  exists ts. split; [exact Hts|].
  unfold findTables in Hts.
  pose proof (findTables_loop_sound _ _ _ _ _ _ Hts) as [Hall Hs].
  repeat split.
  - eapply Forall_impl; [|exact Hall]. simpl. intros t [Ht _]. exact Ht.
  - eapply Forall_impl; [|exact Hall]. simpl. intros t [_ Ht]. lia.
  - exact Hs.
  - intro Hno.
    rewrite findTables_loop_no_rows in Hts; [congruence | lia | exact Hno].
Qed.

Lemma C2_findTables_witness :
  findTables [lit "Just some text"; lit "No tables here"] false = Some [].
Proof.
  destruct (C2_findTables_tables_are_valid_and_ordered
              [lit "Just some text"; lit "No tables here"] false)
    as (ts & Hts & _ & _ & _ & Hno).
  rewrite Hts. f_equal. apply Hno.
  repeat constructor.
Defined.

Lemma located_accepted (lines : list str) (icb : bool) (t : MarkdownTable) :
  located lines icb t -> accepted t.
Proof.
  intros (ts & Hts & Hin). unfold findTables in Hts.
  apply findTables_loop_sound in Hts. destruct Hts as [Hall _].
  rewrite Forall_forall in Hall. apply Hall in Hin. apply Hin.
Qed.

(** ** Indexed maps *)

Lemma length_mapi_from {A B} (f : Z -> A -> B) (l : list A) :
  forall k, length (mapi_from f k l) = length l.
Proof. induction l as [|x l IH]; intro k; simpl; [reflexivity | rewrite IH; reflexivity]. Qed.

Lemma nth_error_mapi_from {A B} (f : Z -> A -> B) (l : list A) :
  forall k n,
    nth_error (mapi_from f k l) n = option_map (f (k + Z.of_nat n)) (nth_error l n).
Proof.
  induction l as [|x l IH]; intros k n.
  - destruct n; reflexivity.
  - destruct n as [|n]; simpl.
    + rewrite Z.add_0_r. reflexivity.
    + rewrite IH. do 2 f_equal. lia.
Qed.

Lemma nth_error_mapi {A B} (f : Z -> A -> B) (l : list A) (n : nat) :
  nth_error (mapi f l) n = option_map (f (Z.of_nat n)) (nth_error l n).
Proof. unfold mapi. rewrite nth_error_mapi_from. reflexivity. Qed.

Lemma nthZ_nat {A} (l : list A) (n : nat) : nthZ l (Z.of_nat n) = nth_error l n.
Proof.
  unfold nthZ. destruct (Z.of_nat n <? 0) eqn:E.
  - apply Z.ltb_lt in E. lia.
  - rewrite Nat2Z.id. reflexivity.
Qed.

Lemma nthZ_Some {A} (l : list A) (i : Z) (x : A) :
  nthZ l i = Some x -> exists n, i = Z.of_nat n /\ nth_error l n = Some x.
Proof.
  unfold nthZ. destruct (i <? 0) eqn:E; [discriminate|].
  apply Z.ltb_ge in E. intro H. exists (Z.to_nat i). split; [lia | exact H].
Qed.

Lemma Forall2_mapi_from {A B} (P : A -> B -> Prop) (f : Z -> A -> B) (l : list A) :
  (forall i x, P x (f i x)) -> forall k, Forall2 P l (mapi_from f k l).
Proof.
  intros H. induction l as [|x l IH]; intro k; simpl; constructor; auto.
Qed.

(** ** Cell content survives formatting *)

Lemma keepsText_refl (cell : str) : keepsText cell cell.
Proof. exists 0%nat, 0%nat. simpl. rewrite app_nil_r. reflexivity. Qed.

Lemma padCell_keepsText (cell : str) (width : Z) (alignment : ColumnAlignment) :
  keepsText cell (padCell cell width alignment).
Proof.
  unfold padCell. destruct (width <=? len cell); [apply keepsText_refl|].
  unfold repeatc. destruct alignment.
  - exists 0%nat. eexists. reflexivity.
  - eexists. eexists. reflexivity.
  - eexists. exists 0%nat. rewrite app_nil_r. reflexivity.
  - exists 0%nat. eexists. reflexivity.
Qed.

Lemma padded_keepsText (b : bool) (cell out : str) :
  keepsText cell out -> keepsText cell (padded b out).
Proof.
  intros (l & r & ->). unfold padded. destruct b; [|exists l, r; reflexivity].
  exists (S l), (S r). simpl. f_equal.
  rewrite <- !app_assoc. do 2 f_equal.
  change (SPACE :: repeat SPACE r) with (repeat SPACE (S r)).
  rewrite <- repeat_cons. reflexivity.
Qed.

Lemma maxWidthCell_keepsText cw al o co b w i cell :
  keepsText cell (maxWidthCell cw al o co b w i cell).
Proof.
  unfold maxWidthCell.
  destruct (i <? b); [apply padded_keepsText, padCell_keepsText|].
  destruct (i =? b); [|apply padded_keepsText, keepsText_refl].
  destruct (len cell <=? w);
    [apply padded_keepsText, padCell_keepsText | apply padded_keepsText, keepsText_refl].
Qed.

Lemma alignedCell_keepsText cw al o i cell :
  keepsText cell (alignedCell cw al o i cell).
Proof. unfold alignedCell. apply padded_keepsText, padCell_keepsText. Qed.

(** [formatTable] returns on every table that has a header row and, when
    separator ratios are kept, a separator row. *)
Lemma formatTable_cells_value (t : MarkdownTable) (o : FormatOptions)
    (co : CompactOptions) :
  accepted t ->
  exists cellss, formatTable_cells t o co = Value cellss
                 /\ length cellss = length (rows t).
Proof.
  intros [Hlen Hsep]. unfold formatTable_cells.
  destruct (rows t) as [|headerRow [|sepRow rest]] eqn:E; simpl in Hlen; try lia.
  rewrite Hsep. cbn [nthZ Z.ltb Z.compare Z.to_nat Pos.to_nat Pos.iter_op nth_error
                      Nat.add].
  destruct (fo_keepSeparatorRatios o && (0 <=? 1));
    eexists; (split; [reflexivity|]); unfold mapi; rewrite length_mapi_from;
    reflexivity.
Qed.

(** The cells rendered for a row other than the separator. *)
Lemma formatTable_cells_row (t : MarkdownTable) (o : FormatOptions)
    (co : CompactOptions) (cellss : list (list str)) (r : nat) (row : list str) :
  formatTable_cells t o co = Value cellss ->
  Z.of_nat r <> separatorIndex t ->
  nth_error (rows t) r = Some row ->
  nth_error cellss r
  = Some (if 0 <? maxWidth o
          then mapi (maxWidthCell (columnWidthsOf t)
                       (if preserveAlignment o then alignments t else []) o co
                       (breakColumnIndexOf t o) (breakColumnFittingWidthOf t o)) row
          else mapi (alignedCell (columnWidthsOf t)
                       (if preserveAlignment o then alignments t else []) o) row).
Proof.
  intros H Hr Hrow. unfold formatTable_cells in H.
  destruct (rows t) as [|headerRow rest] eqn:E; [discriminate|].
  match type of H with
  | match ?p with _ => _ end = _ => destruct p as [pw| |]; try discriminate
  end.
  injection H as <-. rewrite nth_error_mapi, Hrow. cbn [option_map]. f_equal.
  apply Z.eqb_neq in Hr. rewrite Hr.
  unfold formatRowWithMaxWidth_cells.
  destruct (Z.of_nat r =? 0); destruct (0 <? maxWidth o); reflexivity.
Qed.

(** C1: on a table produced by the Locator [formatTable] returns one line
    per row; the line of a row other than the separator is its cells, each
    kept unchanged between added spaces, joined by pipes in order; and under
    [maxWidth > 0] a cell of the break column longer than the fitting width
    is rendered at its natural width (with the compact padding only). *)
Theorem C1_formatTable_never_truncates :
  forall (lines : list str) (ignoreCodeBlocks : bool) (t : MarkdownTable)
         (o : FormatOptions) (co : CompactOptions),
    located lines ignoreCodeBlocks t ->
    exists cellss,
      formatTable t o co = Value (map joinRow cellss)
      /\ length cellss = length (rows t)
      /\ (forall r row,
            Z.of_nat r <> separatorIndex t ->
            nth_error (rows t) r = Some row ->
            exists out,
              nth_error cellss r = Some out
              /\ nth_error (map joinRow cellss) r
                 = Some ([PIPE] ++ join [PIPE] out ++ [PIPE])
              /\ Forall2 keepsText row out)
      /\ (0 < maxWidth o ->
          forall r row cell,
            Z.of_nat r <> separatorIndex t ->
            nth_error (rows t) r = Some row ->
            nthZ row (breakColumnIndexOf t o) = Some cell ->
            breakColumnFittingWidthOf t o < len cell ->
            exists out,
              nth_error cellss r = Some out
              /\ nthZ out (breakColumnIndexOf t o)
                 = Some (padded (co_cellPadding co) cell)).
Proof.
  intros lines icb t o co Hloc.
  apply located_accepted in Hloc.
  destruct (formatTable_cells_value t o co Hloc) as (cellss & Hcells & Hlen).
  exists cellss. unfold formatTable. rewrite Hcells. cbn [js_map].
  split; [reflexivity|]. split; [exact Hlen|]. split.
  - intros r row Hr Hrow.
    pose proof (formatTable_cells_row t o co cellss r row Hcells Hr Hrow) as Hout.
    eexists. split; [exact Hout|]. split.
    + rewrite nth_error_map, Hout. reflexivity.
    + destruct (0 <? maxWidth o); unfold mapi; apply Forall2_mapi_from; intros i x;
        [apply maxWidthCell_keepsText | apply alignedCell_keepsText].
  - intros Hmax r row cell Hr Hrow Hcell Hlong.
    pose proof (formatTable_cells_row t o co cellss r row Hcells Hr Hrow) as Hout.
    apply Z.ltb_lt in Hmax. rewrite Hmax in Hout.
    eexists. split; [exact Hout|].
    apply nthZ_Some in Hcell. destruct Hcell as (n & Hn & Hcell).
    rewrite Hn, nthZ_nat, nth_error_mapi, Hcell. cbn [option_map]. f_equal.
    unfold maxWidthCell. rewrite <- Hn.
    rewrite Z.ltb_irrefl, Z.eqb_refl.
    apply Z.leb_gt in Hlong. rewrite Hlong. reflexivity.
Qed.

Lemma wide_table_located : located wide_doc false wide_table.
Proof. exists [wide_table]. split; [reflexivity | left; reflexivity]. Qed.

Lemma C1_formatTable_witness :
  exists cellss,
    formatTable wide_table width40 getDefaultCompactOptions = Value (map joinRow cellss)
    /\ length cellss = length (rows wide_table)
    /\ (forall r row,
          Z.of_nat r <> separatorIndex wide_table ->
          nth_error (rows wide_table) r = Some row ->
          exists out,
            nth_error cellss r = Some out
            /\ nth_error (map joinRow cellss) r
               = Some ([PIPE] ++ join [PIPE] out ++ [PIPE])
            /\ Forall2 keepsText row out)
    /\ (0 < maxWidth width40 ->
        forall r row cell,
          Z.of_nat r <> separatorIndex wide_table ->
          nth_error (rows wide_table) r = Some row ->
          nthZ row (breakColumnIndexOf wide_table width40) = Some cell ->
          breakColumnFittingWidthOf wide_table width40 < len cell ->
          exists out,
            nth_error cellss r = Some out
            /\ nthZ out (breakColumnIndexOf wide_table width40)
               = Some (padded (co_cellPadding getDefaultCompactOptions) cell)).
Proof.
  apply (C1_formatTable_never_truncates wide_doc false wide_table width40
           getDefaultCompactOptions).
  exists [wide_table]. split; [reflexivity | left; reflexivity].
Defined.

(** The long row of [wide_table] is rendered in full and is wider than
    [maxWidth]; the break column is column 2 with fitting width 18. *)
Lemma formatTable_long_row_exceeds_maxWidth :
  formatTable wide_table width40 getDefaultCompactOptions
  = Value
      [ lit "| Name     | Age | Description        |";
        lit "| -------- | --- | :----------------- |";
        lit "| John Doe | 30  | short              |";
        lit "| Al       | 4   | a very very long description that does not fit at all |";
        lit "| Bo       | 5   | medium length text |" ]
  /\ breakColumnIndexOf wide_table width40 = 2
  /\ breakColumnFittingWidthOf wide_table width40 = 18
  /\ maxWidth width40
     < len (lit "| Al       | 4   | a very very long description that does not fit at all |").
Proof. repeat split. Qed.

(** ** Column widths *)

Lemma len_app (a b : str) : len (a ++ b) = len a + len b.
Proof. unfold len. rewrite length_app. lia. Qed.

Lemma len_repeatc (c : ascii) (n : Z) : 0 <= n -> len (repeatc c n) = n.
Proof. intro H. unfold len, repeatc. rewrite repeat_length. lia. Qed.

(** [padCell(c, w, a).length == max(c.length, w)] for every alignment. *)
Lemma padCell_length (content : str) (width : Z) (alignment : ColumnAlignment) :
  len (padCell content width alignment) = Z.max (len content) width.
Proof.
  unfold padCell. destruct (width <=? len content) eqn:E.
  - apply Z.leb_le in E. lia.
  - apply Z.leb_gt in E.
    assert (0 <= (width - len content) / 2 <= width - len content).
    { split; [apply Z.div_pos; lia | apply Z.div_le_upper_bound; lia]. }
    destruct alignment; rewrite ?len_app, ?len_repeatc; lia.
Qed.

Lemma maxInto_length (w : list Z) (row : list str) :
  length (maxInto w row) = length w.
Proof.
  revert row. induction w as [|v w IH]; intros [|c row]; simpl; auto.
Qed.

Lemma maxInto_mono (w : list Z) (row : list str) (i : nat) (v : Z) :
  nth_error w i = Some v ->
  exists v', nth_error (maxInto w row) i = Some v' /\ v <= v'.
Proof.
  revert row i. induction w as [|x w IH]; intros row i H.
  - destruct i; discriminate.
  - destruct row as [|c row].
    + exists v. split; [exact H | lia].
    + destruct i as [|i]; simpl in *.
      * injection H as <-. eexists. split; [reflexivity | lia].
      * apply IH. exact H.
Qed.

Lemma maxInto_cell (w : list Z) (row : list str) (i : nat) (cell : str) :
  nth_error row i = Some cell -> (i < length w)%nat ->
  exists v, nth_error (maxInto w row) i = Some v /\ len cell <= v.
Proof.
  revert row i. induction w as [|x w IH]; intros row i Hc Hi; simpl in Hi; [lia|].
  destruct row as [|c row]; [destruct i; discriminate|].
  destruct i as [|i]; simpl in *.
  - injection Hc as <-. eexists. split; [reflexivity | lia].
  - apply IH; [exact Hc | lia].
Qed.

Lemma columnWidths_loop_mono (sep : Z) (rws : list (list str)) :
  forall k w i v,
    nth_error w i = Some v ->
    exists v', nth_error (columnWidths_loop sep k rws w) i = Some v' /\ v <= v'.
Proof.
  induction rws as [|row rws IH]; intros k w i v H; simpl.
  - exists v. split; [exact H | lia].
  - destruct (k =? sep); [apply IH; exact H|].
    destruct (maxInto_mono w row i v H) as (v1 & H1 & Hle).
    destruct (IH (k + 1) _ _ _ H1) as (v2 & H2 & Hle2).
    exists v2. split; [exact H2 | lia].
Qed.

Lemma columnWidths_loop_cell (sep : Z) (rws : list (list str)) :
  forall k w r row i cell,
    nth_error rws r = Some row ->
    k + Z.of_nat r <> sep ->
    nth_error row i = Some cell ->
    (i < length w)%nat ->
    exists v, nth_error (columnWidths_loop sep k rws w) i = Some v /\ len cell <= v.
Proof.
  induction rws as [|row0 rws IH]; intros k w r row i cell Hrow Hr Hc Hi.
  - destruct r; discriminate.
  - destruct r as [|r]; simpl in Hrow |- *.
    + injection Hrow as ->. rewrite Z.add_0_r in Hr.
      apply Z.eqb_neq in Hr. rewrite Hr.
      destruct (maxInto_cell w row i cell Hc Hi) as (v1 & H1 & Hle).
      destruct (columnWidths_loop_mono sep rws (k + 1) _ _ _ H1) as (v2 & H2 & Hle2).
      exists v2. split; [exact H2 | lia].
    + destruct (k =? sep).
      * eapply IH; eauto. lia.
      * eapply IH; eauto; [lia | rewrite maxInto_length; exact Hi].
Qed.

Lemma fold_left_max_ge (l : list Z) :
  forall a, a <= fold_left Z.max l a /\ Forall (fun x => x <= fold_left Z.max l a) l.
Proof.
  induction l as [|x l IH]; intro a; simpl.
  - split; [lia | constructor].
  - destruct (IH (Z.max a x)) as [H1 H2]. split; [lia|].
    constructor; [lia | exact H2].
Qed.

Lemma columnCountOf_ge (rws : list (list str)) (row : list str) :
  In row rws -> Z.of_nat (length row) <= columnCountOf rws.
Proof.
  intro Hin. unfold columnCountOf.
  destruct (fold_left_max_ge (map (fun row => Z.of_nat (length row)) rws) 0) as [_ H].
  rewrite Forall_forall in H. apply H. apply in_map_iff. exists row. auto.
Qed.

(** Column [i] of any row has an entry in [columnWidths], at least 3. *)
Lemma columnWidthsOf_entry (t : MarkdownTable) (r i : nat) (row : list str) (cell : str) :
  nth_error (rows t) r = Some row ->
  nth_error row i = Some cell ->
  exists w, nth_error (columnWidthsOf t) i = Some w /\ 3 <= w
            /\ Z.of_nat i < columnCountOf (rows t).
Proof.
  intros Hrow Hc. unfold columnWidthsOf.
  assert (Hi : Z.of_nat i < columnCountOf (rows t)).
  { apply nth_error_In in Hrow. apply columnCountOf_ge in Hrow.
    assert (nth_error row i <> None) by congruence.
    apply nth_error_Some in H. lia. }
  assert (H3 : nth_error (repeat 3 (Z.to_nat (columnCountOf (rows t)))) i = Some 3).
  { rewrite nth_error_repeat; [reflexivity | lia]. }
  destruct (columnWidths_loop_mono (separatorIndex t) (rows t) 0 _ _ _ H3)
    as (w & Hw & Hle).
  exists w. auto.
Qed.

(** A cell of a row other than the separator fits its column's width. *)
Lemma columnWidthsOf_fits (t : MarkdownTable) (r i : nat) (row : list str) (cell : str) :
  nth_error (rows t) r = Some row ->
  Z.of_nat r <> separatorIndex t ->
  nth_error row i = Some cell ->
  exists w, nth_error (columnWidthsOf t) i = Some w /\ len cell <= w.
Proof.
  intros Hrow Hr Hc. unfold columnWidthsOf.
  eapply columnWidths_loop_cell; eauto.
  rewrite repeat_length.
  apply nth_error_In in Hrow. apply columnCountOf_ge in Hrow.
  assert (nth_error row i <> None) by congruence.
  apply nth_error_Some in H. lia.
Qed.

(** ** Separator cells *)

Lemma len_cons (c : ascii) (s : str) : len (c :: s) = 1 + len s.
Proof. unfold len. simpl length. lia. Qed.

Lemma createSeparatorCell_shape {O} `{PaddingOptions O}
    (cell : str) (width : Z) (options : O) (alignment : option ColumnAlignment) :
  exists lc rc dashes,
    createSeparatorCell cell width options alignment
    = padded (cellPadding options && separatorPadding options)
        (separatorCore lc rc dashes)
    /\ 1 <= dashes
    /\ len (separatorCore lc rc dashes) = Z.max 3 width
    /\ lc = (isAlign alignment AlignLeft || isAlign alignment AlignCenter
             || startsWith (trim cell) [COLON])
    /\ rc = (isAlign alignment AlignRight || isAlign alignment AlignCenter
             || endsWith (trim cell) [COLON]).
Proof.
  unfold createSeparatorCell.
  set (lc := isAlign alignment AlignLeft || isAlign alignment AlignCenter
             || startsWith (trim cell) [COLON]).
  set (rc := isAlign alignment AlignRight || isAlign alignment AlignCenter
             || endsWith (trim cell) [COLON]).
  exists lc, rc.
  destruct lc, rc; cbn [andb].
  - exists (Z.max 1 (Z.max 3 width - 1 - 1)). unfold separatorCore, padded.
    repeat split; try lia.
    rewrite !len_app, len_repeatc by lia. unfold len. simpl length. lia.
  - exists (Z.max 1 (Z.max 3 width - 1)). unfold separatorCore, padded.
    rewrite !app_nil_r. repeat split; try lia.
    rewrite !len_app, len_repeatc by lia. unfold len. simpl length. lia.
  - exists (Z.max 1 (Z.max 3 width - 1)). unfold separatorCore, padded.
    repeat split; try lia.
    rewrite !len_app, len_repeatc by lia. unfold len. simpl length. lia.
  - exists (Z.max 3 width). unfold separatorCore, padded.
    rewrite !app_nil_r. repeat split; try lia.
    cbn [app]. rewrite len_repeatc by lia. reflexivity.
Qed.

Lemma maxInto_attained (w : list Z) (row : list str) (i : nat) (v : Z) :
  nth_error (maxInto w row) i = Some v ->
  nth_error w i = Some v
  \/ exists cell, nth_error row i = Some cell /\ len cell = v.
Proof.
  revert row i. induction w as [|x w IH]; intros row i H.
  - destruct row; destruct i; discriminate.
  - destruct row as [|c row]; [left; exact H|].
    destruct i as [|i]; simpl in *.
    + injection H as <-. destruct (Z.max_spec x (len c)) as [[_ ->] | [_ ->]];
        [right; exists c; auto | left; reflexivity].
    + apply IH. exact H.
Qed.

Lemma columnWidths_loop_attained (sep : Z) (rws : list (list str)) :
  forall k w i v,
    nth_error (columnWidths_loop sep k rws w) i = Some v ->
    nth_error w i = Some v
    \/ exists r row cell,
         nth_error rws r = Some row /\ k + Z.of_nat r <> sep
         /\ nth_error row i = Some cell /\ len cell = v.
Proof.
  induction rws as [|row0 rws IH]; intros k w i v H; simpl in H.
  - left. exact H.
  - destruct (k =? sep) eqn:E.
    + apply IH in H. destruct H as [H | (r & row & cell & H1 & H2 & H3 & H4)];
        [left; exact H|].
      right. exists (S r), row, cell. repeat split; auto. lia.
    + apply Z.eqb_neq in E.
      apply IH in H. destruct H as [H | (r & row & cell & H1 & H2 & H3 & H4)].
      * apply maxInto_attained in H. destruct H as [H | (cell & H1 & H2)];
          [left; exact H|].
        right. exists 0%nat, row0, cell. repeat split; auto. lia.
      * right. exists (S r), row, cell. repeat split; auto. lia.
Qed.

(** [columnWidths[i]] is the largest of 3 and the lengths of the header
    and data cells of column [i]. *)
Lemma columnWidthsOf_is_max (t : MarkdownTable) (i : nat) (w : Z) :
  nth_error (columnWidthsOf t) i = Some w ->
  3 <= w
  /\ (forall r row cell,
        nth_error (rows t) r = Some row -> Z.of_nat r <> separatorIndex t ->
        nth_error row i = Some cell -> len cell <= w)
  /\ (w = 3
      \/ exists r row cell,
           nth_error (rows t) r = Some row /\ Z.of_nat r <> separatorIndex t
           /\ nth_error row i = Some cell /\ len cell = w).
Proof.
  intro Hw.
  assert (Hi : (i < Z.to_nat (columnCountOf (rows t)))%nat).
  { assert (N : nth_error (columnWidthsOf t) i <> None) by congruence.
    apply nth_error_Some in N. unfold columnWidthsOf in N.
    assert (L : forall rws k w0, length (columnWidths_loop (separatorIndex t) k rws w0)
                                 = length w0).
    { induction rws as [|row rws IH]; intros k w0; simpl; [reflexivity|].
      destruct (k =? separatorIndex t); rewrite IH; [|rewrite maxInto_length];
        reflexivity. }
    rewrite L, repeat_length in N. exact N. }
  assert (H3 : nth_error (repeat 3 (Z.to_nat (columnCountOf (rows t)))) i = Some 3).
  { rewrite nth_error_repeat; [reflexivity | exact Hi]. }
  repeat split.
  - destruct (columnWidths_loop_mono (separatorIndex t) (rows t) 0 _ _ _ H3)
      as (w' & Hw' & Hle).
    unfold columnWidthsOf in Hw. congruence.
  - intros r row cell Hrow Hr Hc.
    destruct (columnWidthsOf_fits t r i row cell Hrow Hr Hc) as (w' & Hw' & Hle).
    congruence.
  - unfold columnWidthsOf in Hw. apply columnWidths_loop_attained in Hw.
    destruct Hw as [Hw | (r & row & cell & H1 & H2 & H4 & H5)].
    + left. congruence.
    + right. exists r, row, cell. repeat split; auto.
Qed.

(** C3 (as stated, refuted): with [maxWidth = 0] and [keepSeparatorRatios]
    on, the separator cells follow the ratios of the original separator, not
    the column widths: column 0 is 3 wide in the header and data rows and 6
    wide in the separator row. *)
Lemma C3_separator_ratios_break_uniform_width :
  located ratio_doc false ratio_table
  /\ maxWidth unlimited_keeping_ratios = 0
  /\ formatTable ratio_table unlimited_keeping_ratios getDefaultCompactOptions
     = Value [ lit "|abc|abcdefghi|"; lit "|------|------|"; lit "|x  |y        |" ]
  /\ exists cellss,
       formatTable_cells ratio_table unlimited_keeping_ratios getDefaultCompactOptions
       = Value cellss
       /\ ~ (exists w, forall r out cell,
               nth_error cellss r = Some out -> nth_error out 0 = Some cell ->
               len cell = w).
Proof.
  split; [exists [ratio_table]; split; [vm_compute; reflexivity | left; reflexivity]|].
  split; [reflexivity|]. split; [vm_compute; reflexivity|].
  exists [ [lit "abc"; lit "abcdefghi"]; [lit "------"; lit "------"];
           [lit "x  "; lit "y        "] ].
  split; [vm_compute; reflexivity|].
  intros (w & H).
  pose proof (H 0%nat [lit "abc"; lit "abcdefghi"] (lit "abc") eq_refl eq_refl) as H0.
  pose proof (H 1%nat [lit "------"; lit "------"] (lit "------") eq_refl eq_refl) as H1.
  rewrite <- H1 in H0. vm_compute in H0. discriminate H0.
Qed.

Lemma formatTable_cells_separator_row (t : MarkdownTable) (o : FormatOptions)
    (co : CompactOptions) (cellss : list (list str)) (r : nat)
    (headerRow row : list str) :
  formatTable_cells t o co = Value cellss ->
  fo_keepSeparatorRatios o = false ->
  nth_error (rows t) 0 = Some headerRow ->
  Z.of_nat r = separatorIndex t ->
  nth_error (rows t) r = Some row ->
  nth_error cellss r
  = Some (mapi (separatorCell (columnWidthsOf t)
                  (if preserveAlignment o then alignments t else [])
                  headerRow o co
                  (breakColumnIndexOf t o) (breakColumnFittingWidthOf t o)) row).
Proof.
  intros H Hk Hh Hr Hrow. unfold formatTable_cells in H.
  destruct (rows t) as [|headerRow' rest] eqn:E; [discriminate|].
  injection Hh as ->.
  rewrite Hk in H. cbn [andb] in H. injection H as <-.
  rewrite nth_error_mapi, Hrow. cbn [option_map]. f_equal.
  rewrite Hr, Z.eqb_refl. reflexivity.
Qed.

(** The separator row under [keepSeparatorRatios]. *)
Lemma formatTable_cells_ratio_row (t : MarkdownTable) (o : FormatOptions)
    (co : CompactOptions) (cellss : list (list str)) (r : nat) (row : list str) :
  formatTable_cells t o co = Value cellss ->
  fo_keepSeparatorRatios o = true ->
  Z.of_nat r = separatorIndex t ->
  nth_error (rows t) r = Some row ->
  nth_error cellss r
  = Some (mapi (fun colIndex cell =>
                  createSeparatorCell cell
                    (orNum (nthZ (proportionalWidthsOf t row) colIndex) 3) o
                    (Some (orAlign (nthZ (if preserveAlignment o then alignments t else [])
                                      colIndex) AlignNone)))
               row).
Proof.
  intros H Hk Hr Hrow. unfold formatTable_cells in H.
  destruct (rows t) as [|headerRow rest] eqn:E; [discriminate|].
  rewrite <- E in *. rewrite Hk, <- Hr in H.
  replace (0 <=? Z.of_nat r) with true in H by (symmetry; apply Z.leb_le; lia).
  cbn [andb] in H. rewrite nthZ_nat, Hrow in H. injection H as <-.
  rewrite nth_error_mapi, Hrow. cbn [option_map]. f_equal.
  rewrite Z.eqb_refl. reflexivity.
Qed.

(** Every separator cell has a proportional width, of 3 at least. *)
Lemma proportionalWidths_entry (row : list str) (total : Z) (i : nat) (cell : str) :
  nth_error row i = Some cell ->
  exists p, nth_error (calculateProportionalSeparatorWidths row total) i = Some p
            /\ 3 <= p.
Proof.
  intro Hc. unfold calculateProportionalSeparatorWidths.
  destruct (_ =? 0).
  - rewrite nth_error_map, Hc. cbn [option_map].
    eexists. split; [reflexivity|]. destruct (Math_floor _); lia.
  - rewrite !nth_error_map, Hc. cbn [option_map].
    eexists. split; [reflexivity|]. destruct (Math_round _); lia.
Qed.

(** C3 (amended): on a table produced by the Locator, with [maxWidth = 0],
    every rendered cell of column [i] is a content wrapped in one space on
    each side when the row's padding is on (cell padding for header and data
    rows, cell and separator padding together for the separator row).  In
    the header row and every data row the content has width
    [columnWidths[i]], whatever [keepSeparatorRatios] is; in the separator
    row it has width [columnWidths[i]] when [keepSeparatorRatios] is off and
    the proportional width of the column when it is on.  [columnWidths[i]]
    is the largest of 3 and the header and data cell lengths of the
    column. *)
Theorem C3_formatTable_unlimited_width_aligns_columns :
  forall (lines : list str) (ignoreCodeBlocks : bool) (t : MarkdownTable)
         (o : FormatOptions) (co : CompactOptions),
    located lines ignoreCodeBlocks t ->
    maxWidth o = 0 ->
    exists cellss,
      formatTable t o co = Value (map joinRow cellss)
      /\ (forall r row i cell,
            nth_error (rows t) r = Some row ->
            nth_error row i = Some cell ->
            exists w out content,
              nth_error (columnWidthsOf t) i = Some w
              /\ nth_error cellss r = Some out
              /\ nth_error out i = Some (padded (rowPadding t o r) content)
              /\ (if followsRatios t o r
                  then nth_error (proportionalWidthsOf t row) i = Some (len content)
                  else len content = w))
      /\ (forall i w,
            nth_error (columnWidthsOf t) i = Some w ->
            3 <= w
            /\ (forall r row cell,
                  nth_error (rows t) r = Some row -> Z.of_nat r <> separatorIndex t ->
                  nth_error row i = Some cell -> len cell <= w)
            /\ (w = 3
                \/ exists r row cell,
                     nth_error (rows t) r = Some row /\ Z.of_nat r <> separatorIndex t
                     /\ nth_error row i = Some cell /\ len cell = w)).
Proof.
  intros lines icb t o co Hloc Hmax.
  apply located_accepted in Hloc.
  destruct (formatTable_cells_value t o co Hloc) as (cellss & Hcells & Hlen).
  exists cellss. unfold formatTable. rewrite Hcells. cbn [js_map].
  split; [reflexivity|]. split; [|apply columnWidthsOf_is_max].
  intros r row i cell Hrow Hc.
  destruct (columnWidthsOf_entry t r i row cell Hrow Hc) as (w & Hw & Hw3 & Hi).
  exists w. unfold rowPadding, followsRatios.
  destruct (Z.of_nat r =? separatorIndex t) eqn:Er.
  - apply Z.eqb_eq in Er. cbn [andb].
    destruct (fo_keepSeparatorRatios o) eqn:Hratio.
    + pose proof (formatTable_cells_ratio_row t o co cellss r row
                    Hcells Hratio Er Hrow) as Hout.
      destruct (proportionalWidths_entry row
                  (fold_left Z.add (columnWidthsOf t) 0) i cell Hc)
        as (p & Hp & Hp3).
      destruct (createSeparatorCell_shape cell p o
                  (Some (orAlign (nthZ (if preserveAlignment o then alignments t else [])
                                    (Z.of_nat i)) AlignNone)))
        as (lc & rc & dashes & Hshape & _ & Hlenc & _).
      eexists. exists (separatorCore lc rc dashes).
      split; [exact Hw|]. split; [exact Hout|]. split.
      * rewrite nth_error_mapi, Hc. cbn [option_map]. f_equal.
        unfold proportionalWidthsOf. rewrite nthZ_nat, Hp. unfold orNum.
        replace (p =? 0) with false by (symmetry; apply Z.eqb_neq; lia).
        exact Hshape.
      * unfold proportionalWidthsOf. rewrite Hp. f_equal. lia.
    + destruct (rows t) as [|headerRow rest] eqn:E; [destruct r; discriminate|].
      rewrite <- E in *.
      assert (Hh : nth_error (rows t) 0 = Some headerRow) by (rewrite E; reflexivity).
      pose proof (formatTable_cells_separator_row t o co cellss r headerRow row
                    Hcells Hratio Hh Er Hrow) as Hout.
      eexists.
      assert (Hb : breakColumnIndexOf t o = columnCountOf (rows t)).
      { unfold breakColumnIndexOf, breakColumnOf. rewrite Hmax. reflexivity. }
      unfold separatorCell in Hout.
      destruct (createSeparatorCell_shape cell w o
                  (Some (orAlign (nthZ (if preserveAlignment o then alignments t else [])
                                    (Z.of_nat i)) AlignNone)))
        as (lc & rc & dashes & Hshape & _ & Hlenc & _).
      exists (separatorCore lc rc dashes).
      split; [exact Hw|]. split; [exact Hout|]. split; [|lia].
      rewrite nth_error_mapi, Hc. cbn [option_map]. f_equal.
      rewrite Hb. apply Z.ltb_lt in Hi. rewrite Hi.
      rewrite nthZ_nat, Hw. unfold orNum.
      replace (w =? 0) with false by (symmetry; apply Z.eqb_neq; lia).
      exact Hshape.
  - apply Z.eqb_neq in Er. cbn [andb].
    pose proof (formatTable_cells_row t o co cellss r row Hcells Er Hrow) as Hout.
    rewrite Hmax in Hout. cbn [Z.ltb Z.compare] in Hout.
    destruct (columnWidthsOf_fits t r i row cell Hrow Er Hc) as (w' & Hw' & Hfit).
    assert (w' = w) by congruence. subst w'.
    eexists. eexists.
    split; [exact Hw|]. split; [exact Hout|]. split.
    + rewrite nth_error_mapi, Hc. cbn [option_map]. unfold alignedCell.
      rewrite nthZ_nat, Hw. unfold orNum.
      replace (w =? 0) with false by (symmetry; apply Z.eqb_neq; lia).
      reflexivity.
    + rewrite padCell_length. lia.
Qed.

Lemma C3_formatTable_witness :
  exists cellss,
    formatTable ratio_table unlimited_keeping_ratios getDefaultCompactOptions
    = Value (map joinRow cellss)
    /\ (forall r row i cell,
          nth_error (rows ratio_table) r = Some row ->
          nth_error row i = Some cell ->
          exists w out content,
            nth_error (columnWidthsOf ratio_table) i = Some w
            /\ nth_error cellss r = Some out
            /\ nth_error out i
               = Some (padded (rowPadding ratio_table unlimited_keeping_ratios r) content)
            /\ (if followsRatios ratio_table unlimited_keeping_ratios r
                then nth_error (proportionalWidthsOf ratio_table row) i
                     = Some (len content)
                else len content = w))
    /\ (forall i w,
          nth_error (columnWidthsOf ratio_table) i = Some w ->
          3 <= w
          /\ (forall r row cell,
                nth_error (rows ratio_table) r = Some row ->
                Z.of_nat r <> separatorIndex ratio_table ->
                nth_error row i = Some cell -> len cell <= w)
          /\ (w = 3
              \/ exists r row cell,
                   nth_error (rows ratio_table) r = Some row
                   /\ Z.of_nat r <> separatorIndex ratio_table
                   /\ nth_error row i = Some cell /\ len cell = w)).
Proof.
  apply (C3_formatTable_unlimited_width_aligns_columns ratio_doc false ratio_table
           unlimited_keeping_ratios getDefaultCompactOptions).
  - exists [ratio_table]. split; [vm_compute; reflexivity | left; reflexivity].
  - reflexivity.
Defined.

(** ** Numeric sort keys *)

Lemma takeWhile_none {A} (p : A -> bool) (l : list A) :
  Forall (fun x => p x = false) l -> takeWhile p l = [].
Proof. intros [|x l' Hx _]; simpl; [reflexivity | rewrite Hx; reflexivity]. Qed.

Lemma takeWhile_app_stop {A} (p : A -> bool) (a b : list A) :
  Forall (fun x => p x = false) b -> takeWhile p (a ++ b) = takeWhile p a.
Proof.
  intro Hb. induction a as [|x a IH]; simpl.
  - apply takeWhile_none. exact Hb.
  - destruct (p x); [rewrite IH|]; reflexivity.
Qed.

Lemma dropWhile_app_stop {A} (p : A -> bool) (a b : list A) :
  Forall (fun x => p x = false) b -> dropWhile p (a ++ b) = dropWhile p a ++ b.
Proof.
  intro Hb. induction a as [|x a IH]; simpl.
  - destruct Hb as [|y b Hy _]; simpl; [reflexivity | rewrite Hy; reflexivity].
  - destruct (p x); [exact IH | reflexivity].
Qed.

Lemma not_numeric_not_digit (c : ascii) : isNumericChar c = false -> isDigit c = false.
Proof. unfold isNumericChar. intro H. destruct (isDigit c); [discriminate | reflexivity]. Qed.

Lemma not_numeric_not_dot (c : ascii) : isNumericChar c = false -> ceqb c DOT = false.
Proof.
  unfold isNumericChar. intro H.
  destruct (isDigit c), (ceqb c DOT); try discriminate; reflexivity.
Qed.

Lemma not_numeric_not_dash (c : ascii) : isNumericChar c = false -> ceqb c DASH = false.
Proof.
  unfold isNumericChar. intro H.
  destruct (isDigit c), (ceqb c DOT), (ceqb c DASH); try discriminate; reflexivity.
Qed.

Lemma Forall_not_digit (s : str) :
  Forall (fun c => isNumericChar c = false) s -> Forall (fun c => isDigit c = false) s.
Proof. apply Forall_impl. exact not_numeric_not_digit. Qed.

Lemma parseUnsigned_app (negative : bool) (s post : str) :
  Forall (fun c => isNumericChar c = false) post ->
  parseUnsigned negative (s ++ post) = parseUnsigned negative s.
Proof.
  intro Hpost. pose proof (Forall_not_digit post Hpost) as Hd.
  unfold parseUnsigned. cbv zeta.
  rewrite takeWhile_app_stop, dropWhile_app_stop by exact Hd.
  destruct (dropWhile isDigit s) as [|c tl]; simpl.
  - destruct Hpost as [|y post Hy Hpost]; [reflexivity|].
    rewrite (not_numeric_not_dot y Hy). reflexivity.
  - destruct (ceqb c DOT); [|reflexivity].
    rewrite takeWhile_app_stop by exact Hd. reflexivity.
Qed.

(** Text after a literal that starts with no digit, point or minus sign
    does not change what [parseFloat] reads. *)
Lemma parseDecimalPrefix_app (run post : str) :
  Forall (fun c => isNumericChar c = false) post ->
  parseDecimalPrefix (run ++ post) = parseDecimalPrefix run.
Proof.
  intro Hpost. unfold parseDecimalPrefix.
  destruct run as [|c run]; cbn [app].
  - destruct post as [|y post]; [reflexivity|].
    inversion Hpost as [|? ? Hy Hpost']; subst.
    rewrite (not_numeric_not_dash y Hy).
    apply (parseUnsigned_app false [] (y :: post) Hpost).
  - destruct (ceqb c DASH).
    + apply parseUnsigned_app. exact Hpost.
    + apply (parseUnsigned_app false (c :: run) post Hpost).
Qed.

Lemma parseFloat_app (run post : str) :
  Forall (fun c => isNumericChar c = false) post ->
  parseFloat (run ++ post) = parseFloat run.
Proof. intro H. unfold parseFloat. rewrite parseDecimalPrefix_app by exact H. reflexivity. Qed.

Lemma parseUnsigned_no_digit (negative : bool) (s : str) :
  Forall (fun c => isDigit c = false) s -> parseUnsigned negative s = None.
Proof.
  intro H. unfold parseUnsigned. cbv zeta. rewrite takeWhile_none by exact H.
  destruct s as [|c tl]; [reflexivity|].
  inversion H as [|? ? Hc Htl]; subst. simpl. rewrite Hc.
  destruct (ceqb c DOT); [|reflexivity].
  rewrite takeWhile_none by exact Htl. reflexivity.
Qed.

Lemma parseDecimalPrefix_no_digit (s : str) :
  Forall (fun c => isDigit c = false) s -> parseDecimalPrefix s = None.
Proof.
  intro H. unfold parseDecimalPrefix.
  destruct s as [|c s]; [reflexivity|].
  destruct (ceqb c DASH).
  - apply parseUnsigned_no_digit. inversion H; assumption.
  - apply parseUnsigned_no_digit. exact H.
Qed.

Lemma filter_all {A} (p : A -> bool) (l : list A) :
  Forall (fun x => p x = true) l -> filter p l = l.
Proof.
  induction 1 as [|x l Hx _ IH]; simpl; [reflexivity|]. rewrite Hx, IH. reflexivity.
Qed.

Lemma filter_none {A} (p : A -> bool) (l : list A) :
  Forall (fun x => p x = false) l -> filter p l = [].
Proof.
  induction 1 as [|x l Hx _ IH]; simpl; [reflexivity|]. rewrite Hx, IH. reflexivity.
Qed.

Lemma firstNumericRun_skip (pre rest : str) :
  Forall (fun c => isNumericChar c = false) pre ->
  firstNumericRun (pre ++ rest) = firstNumericRun rest.
Proof.
  induction 1 as [|c pre Hc _ IH]; [reflexivity|].
  cbn [app firstNumericRun].
  replace (parseFloat (c :: pre ++ rest)) with (@None jsnum); [exact IH|].
  symmetry. unfold parseFloat, parseDecimalPrefix, parseUnsigned.
  rewrite (not_numeric_not_dash c Hc). simpl.
  rewrite (not_numeric_not_digit c Hc), (not_numeric_not_dot c Hc). reflexivity.
Qed.

(** C8 (as stated, refuted): the key of ["a1b2"] is 12, the digits of the
    whole cell read together, while its first numeric run is 1. *)
Lemma C8_key_is_not_the_first_run :
  numericKey (lit "a1b2") = Num 12
  /\ numericKey_firstRun (lit "a1b2") = Num 1
  /\ numericKey (lit "a1b2") <> numericKey_firstRun (lit "a1b2").
Proof.
  assert (A : numericKey (lit "a1b2") = Num 12) by (vm_compute; reflexivity).
  assert (B : numericKey_firstRun (lit "a1b2") = Num 1) by (vm_compute; reflexivity).
  split; [exact A|]. split; [exact B|]. rewrite A, B. discriminate.
Qed.

(** C8 (amended): the numeric key is read from the cell with every
    character other than digits, ['.'] and ['-'] deleted.  So when all such
    characters of the cell form one block that starts with a signed decimal
    literal, the key is the value of that first numeric run; and a cell
    without a digit is keyed as 0. *)
Theorem C8_numericKey_of_single_run :
  forall (pre run post : str) (v : jsnum),
    Forall (fun c => isNumericChar c = false) pre ->
    Forall (fun c => isNumericChar c = true) run ->
    Forall (fun c => isNumericChar c = false) post ->
    parseFloat run = Some v ->
    numericKey (pre ++ run ++ post) = orZero (Some v)
    /\ numericKey_firstRun (pre ++ run ++ post) = orZero (Some v)
    /\ (forall cell, Forall (fun c => isDigit c = false) cell ->
                     numericKey cell = Num 0).
Proof.
  intros pre run post v Hpre Hrun Hpost Hv. repeat split.
  - unfold numericKey.
    rewrite !filter_app, (filter_none _ pre Hpre), (filter_all _ run Hrun),
      (filter_none _ post Hpost), app_nil_r.
    cbn [app]. rewrite Hv. reflexivity.
  - unfold numericKey_firstRun. rewrite firstNumericRun_skip by exact Hpre.
    destruct run as [|c run]; [vm_compute in Hv; discriminate|].
    cbn [app firstNumericRun].
    change (c :: run ++ post) with ((c :: run) ++ post).
    rewrite parseFloat_app by exact Hpost. rewrite Hv. reflexivity.
  - intros cell Hcell. unfold numericKey, parseFloat.
    rewrite parseDecimalPrefix_no_digit; [reflexivity|].
    rewrite Forall_forall in *. intros c Hc. apply filter_In in Hc. apply Hcell, Hc.
Qed.

Lemma C8_numericKey_witness :
  numericKey (lit "$" ++ lit "-12.5" ++ lit " USD") = orZero (Some (Num (-25 # 2)))
  /\ numericKey_firstRun (lit "$" ++ lit "-12.5" ++ lit " USD")
     = orZero (Some (Num (-25 # 2)))
  /\ (forall cell, Forall (fun c => isDigit c = false) cell -> numericKey cell = Num 0).
Proof.
  apply (C8_numericKey_of_single_run (lit "$") (lit "-12.5") (lit " USD")
           (Num (-25 # 2))).
  - repeat constructor.
  - repeat constructor.
  - repeat constructor.
  - vm_compute. reflexivity.
Defined.

(** ** Trimming *)

Lemma dropWhile_head {A} (p : A -> bool) (l : list A) (x : A) (r : list A) :
  dropWhile p l = x :: r -> p x = false.
Proof.
  induction l as [|y l IH]; simpl; [discriminate|].
  destruct (p y) eqn:E; [exact IH|]. intro H. injection H as <- _. exact E.
Qed.

Lemma dropWhile_all {A} (p : A -> bool) (l : list A) :
  forallb p l = true -> dropWhile p l = [].
Proof.
  induction l as [|y l IH]; simpl; [reflexivity|].
  intro H. apply andb_true_iff in H as [Hy Hl]. rewrite Hy. auto.
Qed.

Lemma dropWhile_nil_all {A} (p : A -> bool) (l : list A) :
  dropWhile p l = [] -> forallb p l = true.
Proof.
  induction l as [|y l IH]; simpl; [reflexivity|].
  destruct (p y); [exact IH | discriminate].
Qed.

Lemma dropWhile_app_all {A} (p : A -> bool) (a l : list A) :
  forallb p a = true -> dropWhile p (a ++ l) = dropWhile p l.
Proof.
  induction a as [|y a IH]; simpl; [reflexivity|].
  intro H. apply andb_true_iff in H as [Hy Ha]. rewrite Hy. auto.
Qed.

Lemma dropWhile_snoc {A} (p : A -> bool) (l : list A) (a : A) :
  p a = false -> dropWhile p (l ++ [a]) = dropWhile p l ++ [a].
Proof.
  intro Ha. induction l as [|y l IH]; simpl; [rewrite Ha; reflexivity|].
  destruct (p y); [exact IH | reflexivity].
Qed.

Lemma dropWhile_In {A} (p : A -> bool) (l : list A) (x : A) :
  In x (dropWhile p l) -> In x l.
Proof.
  induction l as [|y l IH]; simpl; [auto|].
  destruct (p y); [right; auto | auto].
Qed.

Lemma forallb_rev' {A} (p : A -> bool) (l : list A) :
  forallb p l = true -> forallb p (rev l) = true.
Proof.
  rewrite !forallb_forall. intros H x Hx. apply H. apply in_rev. exact Hx.
Qed.

Lemma cleanStart_dropWhile (s : str) : cleanStart s -> dropWhile isWhite s = s.
Proof. destruct s as [|c s]; simpl; [reflexivity|]. intros ->. reflexivity. Qed.

Lemma trim_pad (a c b : str) :
  forallb isWhite a = true -> forallb isWhite b = true -> trimmed c ->
  trim (a ++ c ++ b) = c.
Proof.
  intros Ha Hb [Hs He]. unfold trim, trimStart, trimEnd.
  rewrite dropWhile_app_all by exact Ha.
  destruct c as [|x c].
  - simpl app. rewrite (dropWhile_all _ b Hb). reflexivity.
  - simpl in Hs. cbn [app dropWhile]. rewrite Hs.
    change (x :: c ++ b) with ((x :: c) ++ b).
    rewrite rev_app_distr, dropWhile_app_all by (apply forallb_rev'; exact Hb).
    rewrite cleanStart_dropWhile by exact He. apply rev_involutive.
Qed.

Lemma trim_cases (s : str) :
  (forallb isWhite s = true /\ trim s = [])
  \/ (exists a m, isWhite a = false /\ trim s = a :: m /\ trimmed (trim s)).
Proof.
  unfold trim, trimStart, trimEnd.
  destruct (dropWhile isWhite s) as [|a v] eqn:E.
  - left. split; [apply dropWhile_nil_all; exact E | reflexivity].
  - right. pose proof (dropWhile_head _ _ _ _ E) as Ha.
    simpl rev. rewrite dropWhile_snoc by exact Ha. rewrite rev_app_distr. simpl.
    exists a, (rev (dropWhile isWhite (rev v))).
    split; [exact Ha|]. split; [reflexivity|]. split; [exact Ha|].
    simpl rev. rewrite rev_involutive. rewrite <- dropWhile_snoc by exact Ha.
    destruct (dropWhile isWhite (rev v ++ [a])) as [|y u] eqn:E2; [exact I|].
    simpl. exact (dropWhile_head _ _ _ _ E2).
Qed.

Lemma trim_trimmed (s : str) : trimmed (trim s).
Proof.
  destruct (trim_cases s) as [[_ ->] | (a & m & _ & _ & H)]; [split; exact I | exact H].
Qed.

Lemma trimmed_trim (s : str) : trimmed s -> trim s = s.
Proof.
  intro H. pose proof (trim_pad [] s [] eq_refl eq_refl H) as E.
  rewrite app_nil_r in E. exact E.
Qed.

Lemma trim_idem (s : str) : trim (trim s) = trim s.
Proof. apply trimmed_trim, trim_trimmed. Qed.

Lemma trim_In (s : str) (x : ascii) : In x (trim s) -> In x s.
Proof.
  unfold trim, trimStart, trimEnd. intro H.
  apply in_rev, dropWhile_In in H. apply in_rev in H. apply dropWhile_In in H. exact H.
Qed.

Lemma trim_not_blank (s : str) (x : ascii) :
  In x s -> isWhite x = false -> trim s <> [].
Proof.
  intros Hin Hx. destruct (trim_cases s) as [[Hall _] | (a & m & _ & -> & _)];
    [|discriminate].
  rewrite forallb_forall in Hall. apply Hall in Hin. congruence.
Qed.

(** A trimmed, non-empty text ends with a character that is not white. *)
Lemma trimmed_last (s : str) (d : ascii) :
  trimmed s -> s <> [] -> isWhite (last s d) = false.
Proof.
  intros [_ He] Hne.
  destruct (rev s) as [|c r] eqn:E.
  - apply (f_equal (@rev ascii)) in E. rewrite rev_involutive in E. contradiction.
  - apply (f_equal (@rev ascii)) in E. rewrite rev_involutive in E. simpl in E.
    rewrite E, last_last. exact He.
Qed.

(** ** CSV round trip *)

Lemma spliceInsert_1 {A} (h : A) (rest : list A) (x : A) :
  spliceInsert (h :: rest) 1 x = h :: x :: rest.
Proof.
  unfold spliceInsert, spliceStart. change (1 <? 0) with false. cbv iota.
  replace (Z.to_nat (Z.min 1 (Z.of_nat (length (h :: rest))))) with 1%nat
    by (simpl length; lia).
  reflexivity.
Qed.

Lemma parseCsv_default (text : str) :
  parseCsv text getDefaultCsvOptions = csvTableOf (csvDataRows text).
Proof.
  unfold parseCsv, csvDataRows. cbn [delimiter hasHeader trimCells getDefaultCsvOptions].
  change (str_eqb (lit ",") (lit "auto")) with false. cbv iota.
  change (lit ",") with [COMMA].
  destruct (map _ (filter _ (splitLines text))) as [|headerRow rest];
    [reflexivity|].
  rewrite spliceInsert_1. reflexivity.
Qed.

Lemma filteri_from_all {A} (l : list A) :
  forall k sep, sep < k -> filteri_from (fun i => negb (i =? sep)) k l = l.
Proof.
  induction l as [|x l IH]; intros k sep H; simpl; [reflexivity|].
  replace (k =? sep) with false by (symmetry; apply Z.eqb_neq; lia).
  simpl. rewrite IH by lia. reflexivity.
Qed.

Lemma tableToCsv_default (rws : list (list str)) :
  tableToCsv (csvTableOf rws) getDefaultCsvOptions = join [LF] (map csvLine rws).
Proof.
  unfold tableToCsv. cbn [includeHeader getDefaultCsvOptions delimiter].
  change (lit ",") with [COMMA].
  destruct rws as [|headerRow rest]; [reflexivity|].
  cbn [csvTableOf rows separatorIndex]. unfold filteri. cbn [filteri_from].
  change (0 =? 1) with false. change (0 + 1 =? 1) with true. cbn [negb].
  rewrite filteri_from_all by lia. reflexivity.
Qed.

Lemma includes_single (s : str) (c : ascii) :
  includes s [c] = false -> noChar c s.
Proof.
  induction s as [|x s IH]; intro H; [constructor|].
  cbn [includes startsWith] in H. apply orb_false_iff in H as [H1 H2].
  constructor; [|apply IH; exact H2].
  apply ceqb_neq. intros ->. rewrite ceqb_refl in H1.
  destruct s; discriminate H1.
Qed.

Lemma parse_plain (s : str) :
  noChar DQUOTE s -> noChar COMMA s ->
  forall rest acc cur,
    parseCsvLine_loop [COMMA] (s ++ rest) acc cur false
    = parseCsvLine_loop [COMMA] rest acc (cur ++ s) false.
Proof.
  induction s as [|x s IH]; intros Hq Hc rest acc cur.
  - rewrite app_nil_r. reflexivity.
  - inversion Hq as [|? ? Hx Hq']; inversion Hc as [|? ? Hx' Hc']; subst.
    cbn [app parseCsvLine_loop]. rewrite Hx.
    cbn [str_eqb]. rewrite Hx'. cbn [andb].
    rewrite IH by assumption. rewrite <- app_assoc. reflexivity.
Qed.

Lemma parse_quoted (s : str) :
  forall rest acc cur,
    afterField rest ->
    parseCsvLine_loop [COMMA] (doubleQuotes s ++ DQUOTE :: rest) acc cur true
    = parseCsvLine_loop [COMMA] rest acc (cur ++ s) false.
Proof.
  induction s as [|x s IH]; intros rest acc cur Hrest.
  - rewrite app_nil_r. cbn [doubleQuotes app parseCsvLine_loop].
    rewrite ceqb_refl. destruct rest as [|d rest']; [reflexivity|].
    simpl in Hrest. subst d. reflexivity.
  - cbn [doubleQuotes]. destruct (ceqb x DQUOTE) eqn:Hx.
    + apply ceqb_eq in Hx. subst x.
      cbn [app parseCsvLine_loop]. rewrite ceqb_refl.
      rewrite IH by exact Hrest. rewrite <- app_assoc. reflexivity.
    + cbn [app parseCsvLine_loop]. rewrite Hx. rewrite andb_false_r.
      rewrite IH by exact Hrest. rewrite <- app_assoc. reflexivity.
Qed.

Lemma parse_cell (cell rest : str) (acc : list str) :
  afterField rest ->
  parseCsvLine_loop [COMMA] (csvCell getDefaultCsvOptions cell ++ rest) acc [] false
  = parseCsvLine_loop [COMMA] rest acc cell false.
Proof.
  intro Hrest. unfold csvCell.
  cbn [quoteStrings getDefaultCsvOptions delimiter].
  change (lit ",") with [COMMA].
  destruct (includes cell [COMMA] || includes cell [LF] || includes cell [DQUOTE]) eqn:E.
  - rewrite <- !app_assoc. cbn [app parseCsvLine_loop]. rewrite ceqb_refl.
    cbn [negb]. rewrite parse_quoted by exact Hrest. reflexivity.
  - apply orb_false_iff in E as [E Hq]. apply orb_false_iff in E as [Hc _].
    apply includes_single in Hq. apply includes_single in Hc.
    rewrite parse_plain by assumption. reflexivity.
Qed.

Lemma parse_row (row : list str) :
  forall c acc,
    parseCsvLine_loop [COMMA] (csvLine (c :: row)) acc [] false = acc ++ c :: row.
Proof.
  unfold csvLine. induction row as [|c2 row IH]; intros c acc.
  - cbn [map join].
    rewrite <- (app_nil_r (csvCell getDefaultCsvOptions c)).
    rewrite parse_cell by exact I. reflexivity.
  - cbn [map join]. cbn [map join] in IH.
    rewrite parse_cell by reflexivity.
    cbn [app parseCsvLine_loop].
    change (ceqb COMMA DQUOTE) with false. cbv iota.
    change (str_eqb [COMMA] [COMMA] && negb false) with true. cbv iota.
    rewrite IH. rewrite <- app_assoc. reflexivity.
Qed.

Lemma parseCsvLine_csvLine (row : list str) :
  row <> [] -> parseCsvLine (csvLine row) [COMMA] = row.
Proof.
  destruct row as [|c row]; [contradiction|]. intros _.
  unfold parseCsvLine. apply (parse_row row c []).
Qed.

Lemma splitLines_line (l : str) :
  lineOk l ->
  forall cur,
    splitLines_loop l cur = [cur ++ l]
    /\ forall more, splitLines_loop (l ++ LF :: more) cur
                    = (cur ++ l) :: splitLines_loop more [].
Proof.
  induction l as [|c l IH]; intros [Hlf Hlast] cur.
  - rewrite app_nil_r. split; [reflexivity|]. intro more.
    cbn [app splitLines_loop]. rewrite ceqb_refl. reflexivity.
  - inversion Hlf as [|? ? Hc Hlf']; subst.
    assert (Hl : lineOk l).
    { split; [exact Hlf'|]. destruct l as [|d l]; [discriminate | exact Hlast]. }
    destruct (IH Hl (cur ++ [c])) as [IH1 IH2].
    rewrite <- !app_assoc in IH1, IH2. cbn [app] in IH1, IH2.
    cbn [app splitLines_loop]. rewrite Hc.
    destruct (ceqb c CR) eqn:Hcr.
    + apply ceqb_eq in Hcr. subst c.
      destruct l as [|d l]; [exfalso; apply Hlast; reflexivity|].
      inversion Hlf' as [|? ? Hd _]; subst.
      cbn [app]. rewrite Hd. split; [exact IH1 | exact IH2].
    + split; [exact IH1 | exact IH2].
Qed.

Lemma splitLines_join (ls : list str) :
  forall l, lineOk l -> Forall lineOk ls ->
            splitLines (join [LF] (l :: ls)) = l :: ls.
Proof.
  unfold splitLines.
  induction ls as [|l2 ls IH]; intros l Hl Hls.
  - cbn [join]. apply (splitLines_line l Hl []).
  - inversion Hls as [|? ? Hl2 Hls']; subst.
    cbn [join]. cbn [join] in IH.
    destruct (splitLines_line l Hl []) as [_ H]. cbn [app] in H |- *.
    rewrite H. f_equal. apply IH; assumption.
Qed.

Lemma doubleQuotes_noChar (c : ascii) (s : str) :
  ceqb DQUOTE c = false -> noChar c s -> noChar c (doubleQuotes s).
Proof.
  intros Hq. induction 1 as [|x s Hx _ IH]; cbn [doubleQuotes]; [constructor|].
  destruct (ceqb x DQUOTE); repeat constructor; assumption.
Qed.

Lemma csvCell_noLF (cell : str) :
  noChar LF cell -> noChar LF (csvCell getDefaultCsvOptions cell).
Proof.
  intro H. unfold csvCell.
  destruct (match quoteStrings getDefaultCsvOptions with
            | QuoteAlways => true
            | QuoteAuto => _
            | QuoteNever => false
            end); [|exact H].
  apply Forall_app. split; [repeat constructor|].
  apply Forall_app. split; [|repeat constructor].
  apply doubleQuotes_noChar; [reflexivity | exact H].
Qed.

Lemma csvLine_noLF (row : list str) :
  Forall (noChar LF) row -> noChar LF (csvLine row).
Proof.
  unfold csvLine. induction 1 as [|c row Hc Hrow IH]; [constructor|].
  cbn [map]. destruct row as [|c2 row]; [exact (csvCell_noLF c Hc)|].
  cbn [map join] in IH |- *.
  apply Forall_app. split; [exact (csvCell_noLF c Hc)|].
  apply Forall_app. split; [repeat constructor | exact IH].
Qed.

Lemma last_app_cons {A} (a : list A) (x : A) (b : list A) (d : A) :
  last (a ++ x :: b) d = last (x :: b) d.
Proof.
  induction a as [|y a IH]; [reflexivity|].
  rewrite <- IH. cbn [app].
  destruct (a ++ x :: b) eqn:E; [destruct a; discriminate | reflexivity].
Qed.

Lemma csvCell_last (cell : str) :
  trimmed cell -> last (csvCell getDefaultCsvOptions cell) SPACE <> CR.
Proof.
  intro Ht. unfold csvCell.
  destruct (match quoteStrings getDefaultCsvOptions with
            | QuoteAlways => true
            | QuoteAuto => _
            | QuoteNever => false
            end).
  - rewrite app_assoc, last_last. discriminate.
  - destruct cell as [|c cell]; [discriminate|].
    intro E. pose proof (trimmed_last (c :: cell) SPACE Ht) as H.
    rewrite E in H. specialize (H ltac:(discriminate)). discriminate H.
Qed.

Lemma join_last (pieces : list str) :
  Forall (fun p => last p SPACE <> CR) pieces ->
  last (join [COMMA] pieces) SPACE <> CR.
Proof.
  induction 1 as [|p tl Hp Htl IH].
  - intro H. vm_compute in H. discriminate H.
  - destruct tl as [|p2 tl']; [exact Hp|].
    change (join [COMMA] (p :: p2 :: tl'))
      with (p ++ COMMA :: join [COMMA] (p2 :: tl')).
    rewrite last_app_cons.
    remember (join [COMMA] (p2 :: tl')) as J eqn:EJ.
    destruct J as [|y J'].
    + intro H. vm_compute in H. discriminate H.
    + cbn [last]. exact IH.
Qed.

Lemma csvLine_last (row : list str) :
  Forall trimmed row -> last (csvLine row) SPACE <> CR.
Proof.
  intro H. unfold csvLine. apply join_last.
  rewrite Forall_map. eapply Forall_impl; [|exact H].
  intros c Hc. apply csvCell_last. exact Hc.
Qed.

Lemma csvLine_not_blank (row : list str) :
  row <> [] -> row <> [[]] -> Forall trimmed row -> isBlank (csvLine row) = false.
Proof.
  intros Hne Hne1 Ht.
  assert (H : trim (csvLine row) <> []).
  { destruct row as [|c [|c2 row]]; [contradiction| |].
    - unfold csvLine. cbn [map join]. unfold csvCell.
      destruct (match quoteStrings getDefaultCsvOptions with
                | QuoteAlways => true
                | QuoteAuto => _
                | QuoteNever => false
                end).
      + apply (trim_not_blank _ DQUOTE); [left; reflexivity | reflexivity].
      + inversion Ht as [|? ? Hc _]; subst. rewrite (trimmed_trim c Hc).
        intro E. subst c. apply Hne1. reflexivity.
    - apply (trim_not_blank _ COMMA); [|reflexivity].
      unfold csvLine. cbn [map join]. apply in_or_app. right. left. reflexivity. }
  unfold isBlank. destruct (trim (csvLine row)); [contradiction | reflexivity].
Qed.

Lemma noChar_snoc (c : ascii) (s : str) (x : ascii) :
  noChar c s -> ceqb x c = false -> noChar c (s ++ [x]).
Proof. intros Hs Hx. apply Forall_app. split; [exact Hs | repeat constructor; exact Hx]. Qed.

Lemma splitLines_loop_noLF (n : nat) :
  forall text, (length text <= n)%nat ->
  forall cur, noChar LF cur -> Forall (noChar LF) (splitLines_loop text cur).
Proof.
  induction n as [|n IH]; intros text Hn cur Hcur.
  - destruct text; [|simpl in Hn; lia]. repeat constructor. exact Hcur.
  - destruct text as [|c rest]; [repeat constructor; exact Hcur|].
    simpl in Hn. cbn [splitLines_loop].
    destruct (ceqb c LF) eqn:Hc.
    { constructor; [exact Hcur|]. apply IH; [lia | constructor]. }
    destruct (ceqb c CR).
    + destruct rest as [|d rest'].
      * apply IH; [simpl; lia | apply noChar_snoc; assumption].
      * simpl in Hn. destruct (ceqb d LF).
        -- constructor; [exact Hcur|]. apply IH; [lia | constructor].
        -- apply IH; [simpl; lia | apply noChar_snoc; assumption].
    + apply IH; [lia | apply noChar_snoc; assumption].
Qed.

Lemma parseCsvLine_loop_ok (delim : str) (n : nat) :
  forall line, (length line <= n)%nat -> noChar LF line ->
  forall cells cur q,
    Forall (noChar LF) cells -> noChar LF cur ->
    parseCsvLine_loop delim line cells cur q <> []
    /\ Forall (noChar LF) (parseCsvLine_loop delim line cells cur q).
Proof.
  induction n as [|n IH]; intros line Hn Hline cells cur q Hcells Hcur.
  - destruct line; [|simpl in Hn; lia]. cbn [parseCsvLine_loop]. split.
    + destruct cells; discriminate.
    + apply Forall_app. split; [exact Hcells | repeat constructor; exact Hcur].
  - destruct line as [|c rest].
    { cbn [parseCsvLine_loop]. split.
      + destruct cells; discriminate.
      + apply Forall_app. split; [exact Hcells | repeat constructor; exact Hcur]. }
    simpl in Hn. inversion Hline as [|? ? Hc Hrest]; subst.
    cbn [parseCsvLine_loop].
    destruct (ceqb c DQUOTE).
    + destruct q.
      * destruct rest as [|d rest'].
        -- apply IH; try assumption. simpl; lia.
        -- simpl in Hn. inversion Hrest as [|? ? Hd Hrest']; subst.
           destruct (ceqb d DQUOTE).
           ++ apply IH; try assumption; [lia|].
              apply noChar_snoc; [exact Hcur | reflexivity].
           ++ apply IH; try assumption. simpl; lia.
      * apply IH; try assumption. lia.
    + destruct (str_eqb [c] delim && negb q).
      * apply IH; try assumption; [lia| |constructor].
        apply Forall_app. split; [exact Hcells | repeat constructor; exact Hcur].
      * apply IH; try assumption; [lia|]. apply noChar_snoc; assumption.
Qed.

Lemma csvDataRows_ok (text : str) : Forall csvRowOk (csvDataRows text).
Proof.
  unfold csvDataRows. rewrite Forall_map.
  assert (H : Forall (noChar LF) (splitLines text)).
  { apply (splitLines_loop_noLF (length text)); [lia | constructor]. }
  rewrite Forall_forall in *. intros line Hline.
  apply filter_In in Hline. destruct Hline as [Hline _]. apply H in Hline.
  destruct (parseCsvLine_loop_ok [COMMA] (length line) line (le_n _) Hline [] [] false)
    as [Hne Hall]; [constructor | constructor |].
  unfold parseCsvLine. split.
  - destruct (parseCsvLine_loop [COMMA] line [] [] false); [contradiction | discriminate].
  - rewrite Forall_map. eapply Forall_impl; [|exact Hall].
    intros c Hc. split; [apply trim_trimmed|].
    unfold noChar in *. rewrite Forall_forall in *. intros x Hx.
    apply Hc. apply trim_In. exact Hx.
Qed.

Lemma csvLine_lineOk (row : list str) : csvRowOk row -> lineOk (csvLine row).
Proof.
  intros [_ H]. split.
  - apply csvLine_noLF. eapply Forall_impl; [|exact H]. intros c [_ Hc]. exact Hc.
  - apply csvLine_last. eapply Forall_impl; [|exact H]. intros c [Hc _]. exact Hc.
Qed.

Lemma csvDataRows_round (rws : list (list str)) :
  Forall csvRowOk rws ->
  (forall row, In row rws -> row <> [[]]) ->
  csvDataRows (join [LF] (map csvLine rws)) = rws.
Proof.
  intros Hok Hne. unfold csvDataRows.
  destruct rws as [|r rest]; [reflexivity|].
  inversion Hok as [|? ? Hr Hrest]; subst.
  cbn [map]. rewrite splitLines_join.
  2:{ apply csvLine_lineOk. exact Hr. }
  2:{ rewrite Forall_map. eapply Forall_impl; [|exact Hrest].
      intros row. apply csvLine_lineOk. }
  change (csvLine r :: map csvLine rest) with (map csvLine (r :: rest)).
  rewrite filter_all.
  2:{ rewrite Forall_map. rewrite Forall_forall in *. intros row Hrow.
      destruct (Hok row Hrow) as [Hn Hcells].
      rewrite csvLine_not_blank; [reflexivity | exact Hn | apply Hne; exact Hrow |].
      rewrite Forall_forall in *. intros c Hc. apply (Hcells c Hc). }
  rewrite map_map. rewrite <- (map_id (r :: rest)) at 2.
  apply map_ext_in. intros row Hrow.
  rewrite Forall_forall in Hok. destruct (Hok row Hrow) as [Hn Hcells].
  rewrite parseCsvLine_csvLine by exact Hn.
  rewrite <- (map_id row) at 2. apply map_ext_in. intros c Hc.
  rewrite Forall_forall in Hcells. apply trimmed_trim. apply (Hcells c Hc).
Qed.

(** C5 (as stated, refuted): a quoted empty field alone on its line is a
    row of one empty cell; [tableToCsv] emits it as an empty line, which
    [parseCsv] drops as blank, so the row does not come back. *)
Lemma C5_single_empty_cell_is_lost :
  rows (parseCsv [DQUOTE; DQUOTE] getDefaultCsvOptions) = [ [[]]; [lit "---"] ]
  /\ tableToCsv (parseCsv [DQUOTE; DQUOTE] getDefaultCsvOptions) getDefaultCsvOptions = []
  /\ rows (parseCsv
             (tableToCsv (parseCsv [DQUOTE; DQUOTE] getDefaultCsvOptions)
                getDefaultCsvOptions)
             getDefaultCsvOptions) = []
  /\ rows (parseCsv
             (tableToCsv (parseCsv [DQUOTE; DQUOTE] getDefaultCsvOptions)
                getDefaultCsvOptions)
             getDefaultCsvOptions)
     <> rows (parseCsv [DQUOTE; DQUOTE] getDefaultCsvOptions).
Proof.
  assert (A : rows (parseCsv [DQUOTE; DQUOTE] getDefaultCsvOptions)
              = [ [[]]; [lit "---"] ]) by (vm_compute; reflexivity).
  assert (B : tableToCsv (parseCsv [DQUOTE; DQUOTE] getDefaultCsvOptions)
                getDefaultCsvOptions = []) by (vm_compute; reflexivity).
  split; [exact A|]. split; [exact B|].
  rewrite B, A.
  assert (C : rows (parseCsv [] getDefaultCsvOptions) = []) by (vm_compute; reflexivity).
  split; [exact C|]. rewrite C. discriminate.
Qed.

(** C5 (amended): under the default CSV options, when no row of
    [parseCsv(text)] is a single empty cell, parsing the CSV that
    [tableToCsv] emits for [parseCsv(text)] gives [parseCsv(text)] back:
    the same header and data cells, with the synthetic separator row, which
    the CSV does not carry, inserted once again at index 1. *)
Theorem C5_csv_round_trip :
  forall (text : str),
    (forall row, In row (rows (parseCsv text getDefaultCsvOptions)) -> row <> [[]]) ->
    parseCsv (tableToCsv (parseCsv text getDefaultCsvOptions) getDefaultCsvOptions)
      getDefaultCsvOptions
    = parseCsv text getDefaultCsvOptions
    /\ tableToCsv (parseCsv text getDefaultCsvOptions) getDefaultCsvOptions
       = join [LF] (map csvLine (csvDataRows text))
    /\ rows (parseCsv text getDefaultCsvOptions)
       = match csvDataRows text with
         | [] => []
         | headerRow :: rest =>
             headerRow :: repeat (lit "---") (length headerRow) :: rest
         end.
Proof.
  intros text Hne.
  rewrite !parseCsv_default in *. rewrite tableToCsv_default.
  split; [|split; [reflexivity | destruct (csvDataRows text); reflexivity]].
  f_equal. apply csvDataRows_round; [apply csvDataRows_ok|].
  intros row Hrow. apply Hne.
  destruct (csvDataRows text) as [|headerRow rest]; [contradiction|].
  cbn [csvTableOf rows]. destruct Hrow as [<- | Hrow]; [left; reflexivity|].
  right. right. exact Hrow.
Qed.

Lemma C5_csv_round_trip_witness :
  parseCsv (tableToCsv (parseCsv csv_sample getDefaultCsvOptions) getDefaultCsvOptions)
    getDefaultCsvOptions
  = parseCsv csv_sample getDefaultCsvOptions
  /\ tableToCsv (parseCsv csv_sample getDefaultCsvOptions) getDefaultCsvOptions
     = join [LF] (map csvLine (csvDataRows csv_sample))
  /\ rows (parseCsv csv_sample getDefaultCsvOptions)
     = match csvDataRows csv_sample with
       | [] => []
       | headerRow :: rest =>
           headerRow :: repeat (lit "---") (length headerRow) :: rest
       end.
Proof.
  apply (C5_csv_round_trip csv_sample).
  intros row Hrow. vm_compute in Hrow.
  destruct Hrow as [<- | [<- | [<- | [<- | []]]]]; discriminate.
Defined.

(** ** Splitting and joining rows *)

Lemma takeWhile_dropWhile {A} (p : A -> bool) (l : list A) :
  takeWhile p l ++ dropWhile p l = l.
Proof.
  induction l as [|x l IH]; simpl; [reflexivity|].
  destruct (p x); simpl; [rewrite IH|]; reflexivity.
Qed.

Lemma takeWhile_all {A} (p : A -> bool) (l : list A) :
  forallb p (takeWhile p l) = true.
Proof.
  induction l as [|x l IH]; simpl; [reflexivity|].
  destruct (p x) eqn:E; simpl; [rewrite E; exact IH | reflexivity].
Qed.

(** Every text is its trimmed part between two runs of white space. *)
Lemma trim_decompose (s : str) :
  exists a b, forallb isWhite a = true /\ forallb isWhite b = true
              /\ s = a ++ trim s ++ b.
Proof.
  exists (takeWhile isWhite s),
         (rev (takeWhile isWhite (rev (dropWhile isWhite s)))).
  split; [apply takeWhile_all|].
  split; [apply forallb_rev', takeWhile_all|].
  unfold trim, trimEnd, trimStart.
  rewrite <- rev_app_distr, takeWhile_dropWhile, rev_involutive, takeWhile_dropWhile.
  reflexivity.
Qed.

Lemma split_on_plain (c : ascii) (p : str) :
  noChar c p ->
  forall rest cur, split_on c (p ++ rest) cur = split_on c rest (cur ++ p).
Proof.
  induction 1 as [|x p Hx _ IH]; intros rest cur.
  - rewrite app_nil_r. reflexivity.
  - cbn [app split_on]. rewrite Hx, IH, <- app_assoc. reflexivity.
Qed.

Lemma split_join (c : ascii) (cs : list str) :
  cs <> [] -> Forall (noChar c) cs -> split c (join [c] cs) = cs.
Proof.
  unfold split. intros Hne Hall.
  destruct cs as [|p cs]; [contradiction|]. clear Hne.
  revert p Hall. induction cs as [|p2 cs IH]; intros p Hall;
    inversion Hall as [|? ? Hp Hrest]; subst.
  - cbn [join]. rewrite <- (app_nil_r p) at 1.
    rewrite split_on_plain by exact Hp. reflexivity.
  - change (join [c] (p :: p2 :: cs)) with (p ++ c :: join [c] (p2 :: cs)).
    rewrite split_on_plain by exact Hp.
    cbn [split_on app]. rewrite ceqb_refl. f_equal. apply IH. exact Hrest.
Qed.

Lemma split_on_noChar (c : ascii) (s : str) :
  forall cur, noChar c cur -> Forall (noChar c) (split_on c s cur).
Proof.
  induction s as [|x s IH]; intros cur Hcur; cbn [split_on].
  - repeat constructor. exact Hcur.
  - destruct (ceqb x c) eqn:E.
    + constructor; [exact Hcur | apply IH; constructor].
    + apply IH. apply noChar_snoc; assumption.
Qed.

Lemma split_on_nonempty (c : ascii) (s : str) :
  forall cur, split_on c s cur <> [].
Proof.
  induction s as [|x s IH]; intro cur; cbn [split_on]; [discriminate|].
  destruct (ceqb x c); [discriminate | apply IH].
Qed.

Lemma noChar_trim (c : ascii) (s : str) : noChar c s -> noChar c (trim s).
Proof.
  unfold noChar. rewrite !Forall_forall. intros H x Hx. apply H, trim_In, Hx.
Qed.

Lemma parseTableRow_parsedRow (line : str) : parsedRow (parseTableRow line).
Proof.
  unfold parseTableRow. split.
  - pose proof (split_on_nonempty PIPE (slice_1_m1 (trim line)) []) as H.
    unfold split. destruct (split_on PIPE (slice_1_m1 (trim line)) []);
      [contradiction | discriminate].
  - rewrite Forall_map.
    pose proof (split_on_noChar PIPE (slice_1_m1 (trim line)) [] (Forall_nil _)) as H.
    eapply Forall_impl; [|exact H].
    intros c Hc. split; [apply trim_trimmed | apply noChar_trim; exact Hc].
Qed.

(** A rendered row line is a table row, and reads back as its cells. *)
Lemma joinRow_trimmed (cells : list str) : trim (joinRow cells) = joinRow cells.
Proof.
  apply trimmed_trim. unfold joinRow. split.
  - reflexivity.
  - rewrite !rev_app_distr. reflexivity.
Qed.

Lemma isTableRow_joinRow (cells : list str) : isTableRow (joinRow cells) = true.
Proof.
  unfold isTableRow. rewrite joinRow_trimmed. unfold joinRow, endsWith.
  rewrite !rev_app_distr. reflexivity.
Qed.

Lemma slice_joinRow (cells : list str) :
  slice_1_m1 (joinRow cells) = join [PIPE] cells.
Proof.
  unfold slice_1_m1, joinRow. cbn [app tl]. apply removelast_last.
Qed.

Lemma parseTableRow_joinRow (cells : list str) :
  cells <> [] -> Forall (noChar PIPE) cells ->
  parseTableRow (joinRow cells) = map trim cells.
Proof.
  intros Hne Hall. unfold parseTableRow.
  rewrite joinRow_trimmed, slice_joinRow, split_join by assumption. reflexivity.
Qed.

Lemma isTableSeparator_joinRow (cells : list str) :
  cells <> [] -> Forall (noChar PIPE) cells ->
  isTableSeparator (joinRow cells) = forallb isSeparatorCell cells.
Proof.
  intros Hne Hall. unfold isTableSeparator.
  pose proof (isTableRow_joinRow cells) as H. unfold isTableRow in H.
  apply andb_true_iff in H as [H1 H2]. rewrite H1, H2. cbn [negb orb].
  rewrite joinRow_trimmed, slice_joinRow, split_join by assumption. reflexivity.
Qed.

Lemma isTableSeparator_split (line : str) :
  isTableRow line = true ->
  isTableSeparator line = forallb isSeparatorCell (split PIPE (slice_1_m1 (trim line))).
Proof.
  intro H. unfold isTableSeparator. unfold isTableRow in H.
  apply andb_true_iff in H as [H1 H2]. rewrite H1, H2. reflexivity.
Qed.

(** ** Separator cells are recognised by their trimmed text *)

Lemma black_trimmed (s : str) :
  Forall (fun c => isWhite c = false) s -> trimmed s.
Proof.
  intro H. split.
  - destruct H; [exact I | assumption].
  - apply Forall_rev in H. destruct H; [exact I | assumption].
Qed.

Lemma separatorCore_black (lc rc : bool) (n : Z) :
  Forall (fun c => isWhite c = false) (separatorCore lc rc n).
Proof.
  unfold separatorCore, repeatc.
  apply Forall_app. split; [destruct lc; repeat constructor|].
  apply Forall_app. split; [|destruct rc; repeat constructor].
  induction (Z.to_nat n); simpl; constructor; [reflexivity | assumption].
Qed.

Lemma separatorCore_trimmed (lc rc : bool) (n : Z) : trimmed (separatorCore lc rc n).
Proof. apply black_trimmed, separatorCore_black. Qed.

Lemma dropWhile_repeat {A} (p : A -> bool) (x : A) (k : nat) (rest : list A) :
  p x = true -> dropWhile p (repeat x k ++ rest) = dropWhile p rest.
Proof. intro H. induction k; simpl; [reflexivity | rewrite H; assumption]. Qed.

Lemma takeWhile_isDash (s : str) : takeWhile isDash s = repeat DASH (length (takeWhile isDash s)).
Proof.
  induction s as [|c s IH]; simpl; [reflexivity|].
  destruct (isDash c) eqn:E; [|reflexivity].
  apply ceqb_eq in E. subst c. simpl. f_equal. exact IH.
Qed.

Lemma skipOpt_spec (c : ascii) (s : str) :
  s = (if startsWith s [c] then [c] else []) ++ skipOpt c s.
Proof.
  destruct s as [|x s]; [reflexivity|].
  cbn [startsWith skipOpt]. rewrite andb_true_r.
  destruct (ceqb x c) eqn:E.
  - apply ceqb_eq in E. subst x. rewrite ceqb_refl. reflexivity.
  - replace (ceqb c x) with false; [reflexivity|].
    symmetry. apply ceqb_neq. apply ceqb_neq in E. congruence.
Qed.

Lemma isSeparatorCell_padded_core (a b : str) (lc rc : bool) (n : Z) :
  forallb isWhite a = true -> forallb isWhite b = true -> 1 <= n ->
  isSeparatorCell (a ++ separatorCore lc rc n ++ b) = true.
Proof.
  intros Ha Hb Hn. unfold isSeparatorCell.
  rewrite dropWhile_app_all by exact Ha.
  unfold separatorCore, repeatc.
  destruct (Z.to_nat n) as [|k] eqn:En; [lia|].
  set (tail := (if rc then [COLON] else []) ++ b).
  assert (Htail : dropWhile (fun x => ceqb x DASH) tail = tail
                  /\ forallb isWhite (skipOpt COLON tail) = true).
  { unfold tail. destruct rc; cbn [app].
    - split; [reflexivity|]. cbn [skipOpt]. rewrite ceqb_refl. exact Hb.
    - destruct b as [|y b]; [split; reflexivity|].
      cbn [forallb] in Hb. apply andb_true_iff in Hb as [Hy Hb].
      assert (ceqb y DASH = false /\ ceqb y COLON = false) as [E1 E2].
      { split; apply ceqb_neq; intros ->; discriminate Hy. }
      cbn [dropWhile skipOpt]. rewrite E1, E2.
      split; [reflexivity|]. cbn [forallb]. rewrite Hy. exact Hb. }
  destruct Htail as [Hd Hw].
  assert (Hs2 : skipOpt COLON
                  (dropWhile isWhite
                     (((if lc then [COLON] else []) ++
                       repeat DASH (S k) ++ (if rc then [COLON] else [])) ++ b))
                = repeat DASH (S k) ++ tail).
  { unfold tail. destruct lc; cbn [app repeat dropWhile skipOpt];
      change (isWhite COLON) with false; change (isWhite DASH) with false;
      cbv iota; cbn [skipOpt]; rewrite ?ceqb_refl;
      change (ceqb DASH COLON) with false; cbv iota;
      rewrite <- ?app_assoc; reflexivity. }
  rewrite Hs2.
  rewrite (dropWhile_repeat (fun x => ceqb x DASH) DASH (S k) tail) by reflexivity.
  rewrite Hd, Hw, andb_true_r.
  rewrite length_app, repeat_length.
  apply negb_true_iff. apply Nat.eqb_neq. lia.
Qed.

Lemma isSeparatorCell_iff (s : str) :
  isSeparatorCell s = true
  <-> exists lc rc n, 1 <= n /\ trim s = separatorCore lc rc n.
Proof.
  split.
  - unfold isSeparatorCell. intro H. apply andb_true_iff in H as [Hlen Hw].
    set (s1 := dropWhile isWhite s) in *.
    set (s2 := skipOpt COLON s1) in *.
    set (s3 := dropWhile (fun x => ceqb x DASH) s2) in *.
    set (s4 := skipOpt COLON s3) in *.
    pose proof (takeWhile_dropWhile isWhite s) as E0. fold s1 in E0.
    pose proof (skipOpt_spec COLON s1) as E1. fold s2 in E1.
    pose proof (takeWhile_dropWhile isDash s2) as E2.
    change (dropWhile isDash s2) with s3 in E2.
    pose proof (skipOpt_spec COLON s3) as E3. fold s4 in E3.
    rewrite takeWhile_isDash in E2.
    set (k := length (takeWhile isDash s2)) in *.
    assert (Hk : (1 <= k)%nat).
    { apply negb_true_iff, Nat.eqb_neq in Hlen.
      rewrite <- E2 in Hlen. rewrite length_app, repeat_length in Hlen. lia. }
    exists (startsWith s1 [COLON]), (startsWith s3 [COLON]), (Z.of_nat k).
    split; [lia|].
    set (lcp := if startsWith s1 [COLON] then [COLON] else []) in *.
    set (rcp := if startsWith s3 [COLON] then [COLON] else []) in *.
    assert (Es : s = takeWhile isWhite s ++ (lcp ++ repeat DASH k ++ rcp) ++ s4).
    { transitivity (takeWhile isWhite s ++ s1); [symmetry; exact E0|]. f_equal.
      transitivity (lcp ++ s2); [exact E1|]. rewrite <- app_assoc. f_equal.
      transitivity (repeat DASH k ++ s3); [symmetry; exact E2|].
      rewrite <- app_assoc. f_equal. exact E3. }
    pose proof (separatorCore_trimmed (startsWith s1 [COLON])
                  (startsWith s3 [COLON]) (Z.of_nat k)) as T.
    unfold separatorCore, repeatc in *. rewrite Nat2Z.id in *.
    fold lcp rcp in T |- *.
    rewrite Es at 1. apply trim_pad; [apply takeWhile_all | exact Hw | exact T].
  - intros (lc & rc & n & Hn & E).
    destruct (trim_decompose s) as (a & b & Ha & Hb & Hs).
    rewrite Hs, E. apply isSeparatorCell_padded_core; assumption.
Qed.

Lemma isSeparatorCell_trim_eq (s s' : str) :
  trim s = trim s' -> isSeparatorCell s = isSeparatorCell s'.
Proof.
  intro E.
  destruct (isSeparatorCell s) eqn:H1, (isSeparatorCell s') eqn:H2; try reflexivity.
  - apply isSeparatorCell_iff in H1. rewrite E in H1.
    apply isSeparatorCell_iff in H1. congruence.
  - apply isSeparatorCell_iff in H2. rewrite <- E in H2.
    apply isSeparatorCell_iff in H2. congruence.
Qed.

(** ** The shape of a located table *)

(** What the inner loop of [findTables] has read when it stops. *)
Lemma findTables_run_spec (icb : bool) (ranges : list Range) (rest : list str) :
  forall i rws sep al rws' sep' al' j rest2,
    findTables_run icb ranges i rest rws sep al = (rws', sep', al', j, rest2) ->
    exists consumed,
      Forall (fun l => isTableRow l = true) consumed
      /\ rws' = rws ++ map parseTableRow consumed
      /\ (sep <> -1 -> sep' = sep /\ al' = al)
      /\ (sep = -1 ->
          (sep' = -1 /\ al' = al)
          \/ exists pre sline post,
               consumed = pre ++ sline :: post
               /\ Forall (fun l => isTableSeparator l = false) pre
               /\ isTableSeparator sline = true
               /\ sep' = Z.of_nat (length rws + length pre)
               /\ al' = parseAlignments (parseTableRow sline)).
Proof.
  induction rest as [|line rest' IH]; intros i rws sep al rws' sep' al' j rest2 H;
    cbn [findTables_run] in H.
  - injection H as <- <- <- <- <-. exists []. rewrite app_nil_r.
    repeat split; auto.
  - destruct (isTableRow line) eqn:Hrow; cbn [negb] in H.
    2:{ injection H as <- <- <- <- <-. exists []. rewrite app_nil_r.
        repeat split; auto. }
    destruct (icb && isLineInCodeBlock i ranges).
    { injection H as <- <- <- <- <-. exists []. rewrite app_nil_r.
      repeat split; auto. }
    destruct ((sep =? -1) && isTableSeparator line) eqn:Hs.
    + apply andb_true_iff in Hs as [Hs1 Hs2]. apply Z.eqb_eq in Hs1. subst sep.
      apply IH in H. destruct H as (consumed & Hall & Hrws & Hkeep & _).
      destruct Hkeep as [-> ->]; [rewrite length_app; simpl; lia|].
      exists (line :: consumed). split; [constructor; assumption|].
      split; [rewrite Hrws, <- app_assoc; reflexivity|].
      split; [intro C; contradiction|]. intros _. right.
      exists [], line, consumed. repeat split; auto.
      rewrite length_app. simpl. lia.
    + apply IH in H. destruct H as (consumed & Hall & Hrws & Hkeep & Hfind).
      exists (line :: consumed). split; [constructor; assumption|].
      split; [rewrite Hrws, <- app_assoc; reflexivity|].
      split; [exact Hkeep|]. intros Hsep. subst sep.
      cbn [Z.eqb andb] in Hs. change (-1 =? -1) with true in Hs. cbn [andb] in Hs.
      destruct (Hfind eq_refl) as [Hnone | (pre & sline & post & E & Hpre & Hsl & Hidx & Hal)].
      * left. exact Hnone.
      * right. exists (line :: pre), sline, post. subst consumed.
        repeat split; auto.
        rewrite Hidx, length_app. simpl. f_equal. lia.
Qed.

Lemma findTables_loop_run (icb : bool) (ranges : list Range) (fuel : nat) :
  forall i rest ts t,
    findTables_loop fuel icb ranges i rest = Some ts ->
    In t ts ->
    exists i' rest' j rest2,
      findTables_run icb ranges i' rest' [] (-1) []
      = (rows t, separatorIndex t, alignments t, j, rest2)
      /\ separatorIndex t = 1.
Proof.
  induction fuel as [|fuel IH]; intros i rest ts t H Hin; [discriminate|].
  destruct rest as [|line rest']; cbn [findTables_loop] in H.
  - injection H as <-. contradiction.
  - destruct (icb && isLineInCodeBlock i ranges); [eapply IH; eauto|].
    destruct (isTableRow line); [|eapply IH; eauto].
    destruct (findTables_run icb ranges i (line :: rest') [] (-1) [])
      as [[[[rws sep] al] j] rest2] eqn:Hrun.
    destruct (findTables_loop fuel icb ranges j rest2) as [ts'|] eqn:Hrec;
      [|discriminate].
    simpl in H. injection H as <-.
    apply in_app_or in Hin. destruct Hin as [Hin | Hin]; [|eapply IH; eauto].
    destruct ((2 <=? Z.of_nat (length rws)) && (sep =? 1)) eqn:Hok;
      [|contradiction].
    destruct Hin as [<- | []].
    apply andb_true_iff in Hok as [_ H1]. apply Z.eqb_eq in H1.
    exists i, (line :: rest'), j, rest2. split; [exact Hrun | exact H1].
Qed.

Lemma located_shape (lines : list str) (icb : bool) (t : MarkdownTable) :
  located lines icb t -> locatedShape t.
Proof.
  intros (ts & Hts & Hin). unfold findTables in Hts.
  destruct (findTables_loop_run _ _ _ _ _ _ _ Hts Hin)
    as (i' & rest' & j & rest2 & Hrun & Hsep).
  apply findTables_run_spec in Hrun.
  destruct Hrun as (consumed & Hall & Hrws & _ & Hfind).
  destruct (Hfind eq_refl) as [[Hnone _] | (pre & sline & post & E & Hpre & Hsl & Hidx & Hal)];
    [lia|].
  rewrite Hsep in Hidx. simpl in Hidx.
  destruct pre as [|hline [|x pre]]; simpl in Hidx; try lia.
  subst consumed. simpl in Hrws.
  inversion Hall as [|? ? Hh Hall']; subst.
  inversion Hall' as [|? ? Hs Hall'']; subst.
  inversion Hpre as [|? ? Hhs _]; subst.
  exists hline, sline, post. repeat split; auto.
Qed.

(** ** Compacting and locating again *)

Lemma padded_false_map (row : list str) : map (padded false) row = row.
Proof. rewrite <- (map_id row) at 2. apply map_ext. reflexivity. Qed.

Lemma compactTableRow_plain (row : list str) (co : CompactOptions) hw al :
  compactTableRow row false co hw al = joinRow (map (padded (co_cellPadding co)) row).
Proof.
  unfold compactTableRow. destruct (co_cellPadding co); [reflexivity|].
  rewrite padded_false_map. reflexivity.
Qed.

Lemma mapi_from_plain {A B} (f : Z -> A -> B) (g : A -> B) (l : list A) :
  forall k, (forall i x, k <= i -> f i x = g x) -> mapi_from f k l = map g l.
Proof.
  induction l as [|x l IH]; intros k H; simpl; [reflexivity|].
  rewrite H by lia. f_equal. apply IH. intros i y Hi. apply H. lia.
Qed.

Lemma mapi_three {A B} (F : Z -> A -> B) (g : A -> B) (x0 x1 : A) (l : list A)
    (a b : B) :
  F 0 x0 = a -> F 1 x1 = b -> (forall i x, 2 <= i -> F i x = g x) ->
  mapi F (x0 :: x1 :: l) = a :: b :: map g l.
Proof.
  intros H0 H1 H2. unfold mapi. cbn [mapi_from]. rewrite H0.
  change (0 + 1) with 1. rewrite H1. do 2 f_equal.
  apply mapi_from_plain. intros i x Hi. apply H2. lia.
Qed.

Lemma compactTable_shape (t : MarkdownTable) (co : CompactOptions)
    (hdr sepRow : list str) (data : list (list str)) :
  rows t = hdr :: sepRow :: data ->
  separatorIndex t = 1 ->
  exists w,
    compactTable t co
    = Value (joinRow (map (padded (co_cellPadding co)) hdr)
             :: joinRow (compactSeparatorCells t co w sepRow)
             :: map (fun row => joinRow (map (padded (co_cellPadding co)) row)) data).
Proof.
  intros Hrows Hsep. unfold compactTable. rewrite Hrows, Hsep.
  change (nthZ (hdr :: sepRow :: data) 0) with (Some hdr).
  change (nthZ (hdr :: sepRow :: data) 1) with (Some sepRow).
  change (0 <=? 1) with true. rewrite andb_true_r.
  destruct (co_keepSeparatorRatios co); cbv iota; eexists; f_equal;
    apply mapi_three.
  - apply compactTableRow_plain.
  - change (1 =? 1) with true. cbv iota. unfold compactSeparatorCells.
    instantiate (1 := fun i =>
      orNum (nthZ (calculateProportionalSeparatorWidths sepRow
                     (fold_left (fun total w =>
                                   total + (if alignSeparatorWithHeader co
                                            then Z.max 3 w else 3))
                                (map len hdr) 0)) i) 3).
    reflexivity.
  - intros i x Hi.
    replace (i =? 1) with false by (symmetry; apply Z.eqb_neq; lia).
    apply compactTableRow_plain.
  - apply compactTableRow_plain.
  - change (1 =? 1) with true. cbv iota.
    unfold compactTableRow, compactSeparatorCells.
    instantiate (1 := fun i =>
      match alignSeparatorWithHeader co with
      | true => orNum (nthZ (map len hdr) i) 3
      | false => 3
      end).
    reflexivity.
  - intros i x Hi.
    replace (i =? 1) with false by (symmetry; apply Z.eqb_neq; lia).
    apply compactTableRow_plain.
Qed.

Lemma noChar_padded (c : ascii) (b : bool) (cell : str) :
  ceqb SPACE c = false -> noChar c cell -> noChar c (padded b cell).
Proof.
  intros Hs Hc. unfold padded. destruct b; [|exact Hc].
  apply Forall_app. split; [repeat constructor; exact Hs|].
  apply Forall_app. split; [exact Hc | repeat constructor; exact Hs].
Qed.

Lemma trim_padded (b : bool) (cell : str) : trimmed cell -> trim (padded b cell) = cell.
Proof.
  intro H. unfold padded. destruct b.
  - apply trim_pad; [reflexivity | reflexivity | exact H].
  - apply trimmed_trim. exact H.
Qed.

(** A row rendered by [compactTable] reads back as the row. *)
Lemma parseTableRow_compact (b : bool) (row : list str) :
  parsedRow row -> parseTableRow (joinRow (map (padded b) row)) = row.
Proof.
  intros [Hne Hall].
  rewrite parseTableRow_joinRow.
  - rewrite map_map. rewrite <- (map_id row) at 2. apply map_ext_in.
    intros c Hc. rewrite Forall_forall in Hall. apply trim_padded, (Hall c Hc).
  - destruct row; [contradiction | discriminate].
  - rewrite Forall_map. eapply Forall_impl; [|exact Hall].
    intros c [_ Hc]. apply noChar_padded; [reflexivity | exact Hc].
Qed.

Lemma forallb_map_ext {A B} (p : B -> bool) (q : A -> bool) (f : A -> B)
    (l : list A) :
  (forall x, p (f x) = q x) -> forallb p (map f l) = forallb q l.
Proof.
  intro H. induction l as [|x l IH]; simpl; [reflexivity|]. rewrite H, IH. reflexivity.
Qed.

(** Rendering a line's cells again does not change whether the line is a
    separator. *)
Lemma isTableSeparator_compact (b : bool) (line : str) :
  isTableRow line = true ->
  isTableSeparator (joinRow (map (padded b) (parseTableRow line)))
  = isTableSeparator line.
Proof.
  intro Hrow. destruct (parseTableRow_parsedRow line) as [Hne Hall].
  rewrite isTableSeparator_joinRow.
  - rewrite (isTableSeparator_split line Hrow). unfold parseTableRow.
    rewrite map_map. apply forallb_map_ext. intro p.
    apply isSeparatorCell_trim_eq. apply trim_padded, trim_trimmed.
  - destruct (parseTableRow line); [contradiction | discriminate].
  - rewrite Forall_map. eapply Forall_impl; [|exact Hall].
    intros c [_ Hc]. apply noChar_padded; [reflexivity | exact Hc].
Qed.

Lemma rev_repeat' {A} (x : A) (k : nat) : rev (repeat x k) = repeat x k.
Proof.
  induction k as [|k IH]; [reflexivity|].
  cbn [repeat rev]. rewrite IH. symmetry. apply repeat_cons.
Qed.

Lemma separatorCore_colons (lc rc : bool) (n : Z) :
  1 <= n ->
  startsWith (separatorCore lc rc n) [COLON] = lc
  /\ endsWith (separatorCore lc rc n) [COLON] = rc.
Proof.
  intro Hn. unfold separatorCore, repeatc, endsWith.
  destruct (Z.to_nat n) as [|k] eqn:E; [lia|]. split.
  - destruct lc; reflexivity.
  - rewrite !rev_app_distr, rev_repeat'. destruct rc; reflexivity.
Qed.

Lemma getAlignment_of_core (b lc rc : bool) (n : Z) :
  1 <= n ->
  getAlignmentFromSeparator (padded b (separatorCore lc rc n))
  = (if lc && rc then AlignCenter
     else if rc then AlignRight
     else if lc then AlignLeft
     else AlignNone).
Proof.
  intro Hn. unfold getAlignmentFromSeparator.
  rewrite trim_padded by apply separatorCore_trimmed.
  destruct (separatorCore_colons lc rc n Hn) as [-> ->]. reflexivity.
Qed.

(** A separator cell rebuilt under the alignment read from it keeps that
    alignment and is a separator cell again. *)
Lemma createSeparatorCell_keeps (cell : str) (w : Z) (co : CompactOptions) :
  let cell' := createSeparatorCell cell w co (Some (getAlignmentFromSeparator cell)) in
  getAlignmentFromSeparator cell' = getAlignmentFromSeparator cell
  /\ isSeparatorCell cell' = true
  /\ noChar PIPE cell'.
Proof.
  intro cell'. subst cell'.
  destruct (createSeparatorCell_shape cell w co
              (Some (getAlignmentFromSeparator cell)))
    as (lc & rc & n & Hshape & Hn & _ & Hlc & Hrc).
  rewrite Hshape. split; [|split].
  - rewrite getAlignment_of_core by exact Hn.
    rewrite Hlc, Hrc. unfold getAlignmentFromSeparator.
    destruct (startsWith (trim cell) [COLON]), (endsWith (trim cell) [COLON]);
      reflexivity.
  - apply isSeparatorCell_iff. exists lc, rc, n. split; [exact Hn|].
    apply trim_padded, separatorCore_trimmed.
  - apply noChar_padded; [reflexivity|].
    unfold separatorCore, repeatc.
    apply Forall_app. split; [destruct lc; repeat constructor|].
    apply Forall_app. split; [|destruct rc; repeat constructor].
    induction (Z.to_nat n); simpl; constructor; [reflexivity | assumption].
Qed.

Lemma compactSeparatorCells_spec (t : MarkdownTable) (co : CompactOptions)
    (w : Z -> Z) (sepRow : list str) :
  alignments t = parseAlignments sepRow ->
  let cells := compactSeparatorCells t co w sepRow in
  length cells = length sepRow
  /\ Forall (fun c => isSeparatorCell c = true /\ noChar PIPE c) cells
  /\ parseAlignments (map trim cells) = alignments t.
Proof.
  intros Hal cells. subst cells. unfold compactSeparatorCells.
  assert (Hnth : forall n cell,
            nth_error sepRow n = Some cell ->
            nth_error (mapi (fun i c =>
                               createSeparatorCell c (w i) co (nthZ (alignments t) i))
                            sepRow) n
            = Some (createSeparatorCell cell (w (Z.of_nat n)) co
                      (Some (getAlignmentFromSeparator cell)))).
  { intros n cell Hc. rewrite nth_error_mapi, Hc. cbn [option_map].
    rewrite nthZ_nat, Hal. unfold parseAlignments.
    rewrite nth_error_map, Hc. reflexivity. }
  split; [unfold mapi; apply length_mapi_from|]. split.
  - apply Forall_forall. intros c Hc.
    apply In_nth_error in Hc. destruct Hc as (n & Hn).
    destruct (nth_error sepRow n) as [cell|] eqn:E.
    + rewrite (Hnth n cell E) in Hn. injection Hn as <-.
      apply (createSeparatorCell_keeps cell (w (Z.of_nat n)) co).
    + rewrite nth_error_mapi, E in Hn. discriminate Hn.
  - etransitivity; [|symmetry; exact Hal].
    unfold parseAlignments. rewrite map_map.
    apply nth_error_ext. intro n. rewrite !nth_error_map.
    destruct (nth_error sepRow n) as [cell|] eqn:E.
    + rewrite (Hnth n cell E). cbn [option_map]. f_equal.
      destruct (createSeparatorCell_keeps cell (w (Z.of_nat n)) co) as [H _].
      unfold getAlignmentFromSeparator in H |- *. rewrite trim_idem. exact H.
    + rewrite nth_error_mapi, E. reflexivity.
Qed.

(** No line rendered by [compactTable] opens a code block. *)
Lemma findCodeBlockRanges_rows (lines : list str) :
  Forall (fun l => exists cells, l = joinRow cells) lines ->
  findCodeBlockRanges lines = [].
Proof.
  intro H. unfold findCodeBlockRanges.
  assert (G : forall i ranges,
            findCodeBlockRanges_loop lines i ranges None = (ranges, None)).
  { induction H as [|l lines (cells & ->) _ IH]; intros i ranges; [reflexivity|].
    cbn [findCodeBlockRanges_loop]. rewrite joinRow_trimmed.
    change (startsWith (joinRow cells) (lit "```")) with false.
    change (startsWith (joinRow cells) (lit "~~~")) with false.
    cbn [orb]. apply IH. }
  rewrite G. reflexivity.
Qed.

(** Once the separator is known, the inner loop reads table rows to the end. *)
Lemma findTables_run_rows (icb : bool) (rest : list str) :
  Forall (fun l => isTableRow l = true) rest ->
  forall i rws sep al,
    sep <> -1 ->
    findTables_run icb [] i rest rws sep al
    = (rws ++ map parseTableRow rest, sep, al, i + Z.of_nat (length rest), []).
Proof.
  induction 1 as [|line rest Hline _ IH]; intros i rws sep al Hsep.
  - cbn [findTables_run map length]. rewrite app_nil_r, Z.add_0_r. reflexivity.
  - cbn [findTables_run]. rewrite Hline. cbn [negb isLineInCodeBlock existsb].
    rewrite andb_false_r.
    replace (sep =? -1) with false by (symmetry; apply Z.eqb_neq; exact Hsep).
    cbn [andb]. rewrite IH by exact Hsep.
    rewrite <- app_assoc. cbn [map app length]. do 2 f_equal. lia.
Qed.

(** Locating in three or more rendered lines: a header that is no
    separator, a separator, and table rows. *)
Lemma findTables_single (icb : bool) (l0 l1 : str) (ls : list str) :
  Forall (fun l => exists cells, l = joinRow cells) (l0 :: l1 :: ls) ->
  isTableSeparator l0 = false ->
  isTableSeparator l1 = true ->
  findTables (l0 :: l1 :: ls) icb
  = Some [ mkTable 0 (Z.of_nat (length (l0 :: l1 :: ls)) - 1)
             (parseTableRow l0 :: parseTableRow l1 :: map parseTableRow ls)
             1 (parseAlignments (parseTableRow l1)) ].
Proof.
  intros Hall H0 H1.
  assert (Hrows : Forall (fun l => isTableRow l = true) (l0 :: l1 :: ls)).
  { eapply Forall_impl; [|exact Hall]. intros l (cells & ->).
    apply isTableRow_joinRow. }
  unfold findTables.
  replace (if icb then findCodeBlockRanges (l0 :: l1 :: ls) else []) with (@nil Range)
    by (destruct icb; [symmetry; apply findCodeBlockRanges_rows; exact Hall | reflexivity]).
  inversion Hrows as [|? ? R0 Hrows']; subst.
  inversion Hrows' as [|? ? R1 Hrows'']; subst.
  cbn [length findTables_loop isLineInCodeBlock existsb].
  rewrite andb_false_r, R0.
  cbn [findTables_run]. rewrite R0, R1. cbn [negb isLineInCodeBlock existsb].
  rewrite !andb_false_r. rewrite H0.
  change (-1 =? -1) with true. cbn [andb]. rewrite H1.
  rewrite findTables_run_rows by (assumption || (cbn [app length]; lia)).
  cbn [app length]. 
  change (2 <=? Z.of_nat (length (parseTableRow l0 :: parseTableRow l1
                                    :: map parseTableRow ls)))
    with (2 <=? Z.of_nat (S (S (length (map parseTableRow ls))))).
  replace (2 <=? Z.of_nat (S (S (length (map parseTableRow ls))))) with true
    by (symmetry; apply Z.leb_le; lia).
  change (Z.of_nat 2 - 1 =? 1) with true. cbn [andb].
  cbn [findTables_loop option_map app]. do 3 f_equal. lia.
Qed.

(** C4 (as stated, refuted): compacting rewrites the separator row, so the
    separator cells of the table located again differ from the original
    ones: 7 dashes (the header's width) instead of 11. *)
Lemma C4_separator_cells_are_rewritten :
  located padded_doc false padded_table
  /\ compactTable padded_table getDefaultCompactOptions
     = Value [ lit "| Header1 | Header2 |";
               lit "| ------- | ------- |";
               lit "| Cell1 | Cell2 |" ]
  /\ findTables [ lit "| Header1 | Header2 |";
                  lit "| ------- | ------- |";
                  lit "| Cell1 | Cell2 |" ] false
     = Some [compacted_table]
  /\ map (map trim) (rows compacted_table) <> map (map trim) (rows padded_table).
Proof.
  split; [exists [padded_table]; split; [vm_compute; reflexivity | left; reflexivity]|].
  split; [vm_compute; reflexivity|].
  split; [vm_compute; reflexivity|].
  intro H. vm_compute in H. discriminate H.
Qed.

(** C4 (amended): for every table produced by the Locator and every
    CompactOptions, locating in the lines produced by [compactTable] finds
    exactly one table; it has the same number of rows, its separator at
    index 1, the same alignments, and every cell of its header and data rows
    equals the original cell (which is already trimmed).  Its separator row
    has the same number of cells, each again a separator cell, but their
    text is rebuilt by the compacting. *)
Theorem C4_compact_then_locate_preserves_cells :
  forall (lines : list str) (ignoreCodeBlocks : bool) (t : MarkdownTable)
         (co : CompactOptions) (ignoreCodeBlocks' : bool),
    located lines ignoreCodeBlocks t ->
    exists out t',
      compactTable t co = Value out
      /\ findTables out ignoreCodeBlocks' = Some [t']
      /\ length (rows t') = length (rows t)
      /\ separatorIndex t' = 1
      /\ alignments t' = alignments t
      /\ Forall (Forall (fun cell => trim cell = cell)) (rows t)
      /\ (forall r, r <> 1%nat -> nth_error (rows t') r = nth_error (rows t) r)
      /\ (exists sepRow sepRow',
            nth_error (rows t) 1 = Some sepRow
            /\ nth_error (rows t') 1 = Some sepRow'
            /\ length sepRow' = length sepRow
            /\ Forall (fun c => isSeparatorCell c = true) sepRow').
Proof.
  intros lines icb t co icb' Hloc.
  apply located_shape in Hloc.
  destruct Hloc as (hline & sline & dlines & Hh & Hhs & Hs & Hss & Hrows & Hsep & Hal).
  destruct (compactTable_shape t co _ _ _ Hrows Hsep) as (w & Hout).
  set (b := co_cellPadding co) in *.
  set (sepCells := compactSeparatorCells t co w (parseTableRow sline)) in *.
  destruct (compactSeparatorCells_spec t co w (parseTableRow sline) Hal)
    as (Hlen & Hcells & Hal').
  fold sepCells in Hlen, Hcells, Hal'.
  assert (Hne : sepCells <> []).
  { destruct (parseTableRow_parsedRow sline) as [Hn _].
    destruct sepCells; [|discriminate].
    destruct (parseTableRow sline); [contradiction | discriminate Hlen]. }
  assert (Hpipe : Forall (noChar PIPE) sepCells).
  { eapply Forall_impl; [|exact Hcells]. intros c [_ Hc]. exact Hc. }
  assert (Hdata : map parseTableRow
                    (map (fun row => joinRow (map (padded b) row))
                         (map parseTableRow dlines))
                  = map parseTableRow dlines).
  { rewrite !map_map. apply map_ext. intro l.
    apply parseTableRow_compact, parseTableRow_parsedRow. }
  eexists. eexists. split; [exact Hout|].
  split.
  { apply findTables_single.
    - constructor; [eexists; reflexivity|]. constructor; [eexists; reflexivity|].
      rewrite Forall_map. apply Forall_forall. intros row _. eexists. reflexivity.
    - rewrite isTableSeparator_compact by exact Hh. exact Hhs.
    - rewrite isTableSeparator_joinRow by assumption.
      apply forallb_forall. intros c Hc. rewrite Forall_forall in Hcells.
      apply (Hcells c Hc). }
  cbn [rows separatorIndex alignments].
  rewrite Hdata, Hrows.
  rewrite parseTableRow_compact by apply parseTableRow_parsedRow.
  rewrite parseTableRow_joinRow by assumption.
  split; [reflexivity|]. split; [reflexivity|]. split; [exact Hal'|].
  split.
  { assert (P : forall l, Forall (fun cell => trim cell = cell) (parseTableRow l)).
    { intro l. destruct (parseTableRow_parsedRow l) as [_ H].
      eapply Forall_impl; [|exact H]. intros c [Hc _]. apply trimmed_trim, Hc. }
    constructor; [apply P|]. constructor; [apply P|].
    rewrite Forall_map. apply Forall_forall. intros l _. apply P. }
  split.
  { intros r Hr. destruct r as [|[|r]]; [reflexivity | contradiction | reflexivity]. }
  exists (parseTableRow sline), (map trim sepCells).
  split; [reflexivity|]. split; [reflexivity|].
  split; [rewrite length_map; exact Hlen|].
  rewrite Forall_map. eapply Forall_impl; [|exact Hcells].
  intros c [Hc _]. rewrite <- Hc. apply isSeparatorCell_trim_eq, trim_idem.
Qed.

Lemma C4_compact_then_locate_witness :
  exists out t',
    compactTable padded_table getDefaultCompactOptions = Value out
    /\ findTables out true = Some [t']
    /\ length (rows t') = length (rows padded_table)
    /\ separatorIndex t' = 1
    /\ alignments t' = alignments padded_table
    /\ Forall (Forall (fun cell => trim cell = cell)) (rows padded_table)
    /\ (forall r, r <> 1%nat -> nth_error (rows t') r = nth_error (rows padded_table) r)
    /\ (exists sepRow sepRow',
          nth_error (rows padded_table) 1 = Some sepRow
          /\ nth_error (rows t') 1 = Some sepRow'
          /\ length sepRow' = length sepRow
          /\ Forall (fun c => isSeparatorCell c = true) sepRow').
Proof.
  apply (C4_compact_then_locate_preserves_cells padded_doc false padded_table
           getDefaultCompactOptions true).
  exists [padded_table]. split; [vm_compute; reflexivity | left; reflexivity].
Defined.

(* ====================================================================== *)
(** * Further properties of the engine *)
(* ====================================================================== *)

(** ** Located tables and the lines they come from *)

Lemma findTables_run_consumed (icb : bool) (ranges : list Range) (rest : list str) :
  forall i rws sep al rws' sep' al' j rest2,
    findTables_run icb ranges i rest rws sep al = (rws', sep', al', j, rest2) ->
    exists consumed,
      rest = consumed ++ rest2
      /\ rws' = rws ++ map parseTableRow consumed
      /\ Forall (fun l => isTableRow l = true) consumed
      /\ j = i + Z.of_nat (length consumed)
      /\ (forall k, (k < length consumed)%nat ->
                    icb && isLineInCodeBlock (i + Z.of_nat k) ranges = false).
Proof.
  induction rest as [|line rest' IH]; intros i rws sep al rws' sep' al' j rest2 H;
    cbn [findTables_run] in H.
  - injection H as <- <- <- <- <-. exists [].
    split; [reflexivity|]. split; [cbn [map]; rewrite app_nil_r; reflexivity|].
    split; [constructor|].
    split; [simpl; lia | simpl; intros; lia].
  - destruct (isTableRow line) eqn:Hrow; cbn [negb] in H.
    2:{ injection H as <- <- <- <- <-. exists [].
        split; [reflexivity|]. split; [cbn [map]; rewrite app_nil_r; reflexivity|].
    split; [constructor|].
    split; [simpl; lia | simpl; intros; lia]. }
    destruct (icb && isLineInCodeBlock i ranges) eqn:Hcode.
    { injection H as <- <- <- <- <-. exists [].
      split; [reflexivity|]. split; [cbn [map]; rewrite app_nil_r; reflexivity|].
    split; [constructor|].
    split; [simpl; lia | simpl; intros; lia]. }
    assert (G : forall sep0 al0,
      findTables_run icb ranges (i + 1) rest' (rws ++ [parseTableRow line]) sep0 al0
      = (rws', sep', al', j, rest2) ->
      exists consumed,
        line :: rest' = consumed ++ rest2
        /\ rws' = rws ++ map parseTableRow consumed
        /\ Forall (fun l => isTableRow l = true) consumed
        /\ j = i + Z.of_nat (length consumed)
        /\ (forall k, (k < length consumed)%nat ->
                      icb && isLineInCodeBlock (i + Z.of_nat k) ranges = false)).
    { intros sep0 al0 H0. apply IH in H0.
      destruct H0 as (consumed & E & Hrws & Hall & Hj & Hc).
      exists (line :: consumed). cbn [app map length]. rewrite E.
      split; [reflexivity|]. split; [rewrite Hrws, <- app_assoc; reflexivity|].
      split; [constructor; assumption|]. split; [lia|].
      intros [|k] Hk; [rewrite Z.add_0_r; exact Hcode|].
      replace (i + Z.of_nat (S k)) with (i + 1 + Z.of_nat k) by lia.
      apply Hc. lia. }
    destruct ((sep =? -1) && isTableSeparator line); eapply G; exact H.
Qed.

Lemma findTables_loop_spans (icb : bool) (ranges : list Range) (fuel : nat) :
  forall i rest ts,
    findTables_loop fuel icb ranges i rest = Some ts ->
    Forall (spansAt icb ranges i rest) ts.
Proof.
  induction fuel as [|fuel IH]; intros i rest ts H; [discriminate|].
  destruct rest as [|line rest']; cbn [findTables_loop] in H.
  - injection H as <-. constructor.
  - assert (Skip : forall ts0,
              Forall (spansAt icb ranges (i + 1) rest') ts0 ->
              Forall (spansAt icb ranges i (line :: rest')) ts0).
    { intros ts0. apply Forall_impl.
      intros t (pre & consumed & post & E & Hs & He & Hr & Hall & Hc).
      exists (line :: pre), consumed, post. cbn [app length]. rewrite E.
      split; [reflexivity|]. split; [lia|]. split; [exact He|].
      split; [exact Hr|]. split; [exact Hall|]. exact Hc. }
    destruct (icb && isLineInCodeBlock i ranges); [apply Skip, IH, H|].
    destruct (isTableRow line); [|apply Skip, IH, H].
    destruct (findTables_run icb ranges i (line :: rest') [] (-1) [])
      as [[[[rws sep] al] j] rest2] eqn:Hrun.
    destruct (findTables_loop fuel icb ranges j rest2) as [ts'|] eqn:Hrec;
      [|discriminate].
    simpl in H. injection H as <-.
    apply findTables_run_consumed in Hrun.
    destruct Hrun as (consumed & E & Hrws & Hall & Hj & Hc).
    apply Forall_app. split.
    + destruct ((2 <=? Z.of_nat (length rws)) && (sep =? 1)); [|constructor].
      constructor; [|constructor].
      exists [], consumed, rest2. cbn [app length startLine endLine rows].
      split; [exact E|]. split; [lia|]. split; [lia|].
      split; [exact Hrws|]. split; [exact Hall|].
      intros k Hk. apply Hc. exact Hk.
    + apply IH in Hrec. eapply Forall_impl; [|exact Hrec].
      intros t (pre & consumed' & post & E' & Hs & He & Hr & Hall' & Hc').
      exists (consumed ++ pre), consumed', post.
      rewrite E, E', <- app_assoc, length_app.
      split; [reflexivity|]. split; [lia|]. split; [exact He|].
      split; [exact Hr|]. split; [exact Hall'|]. exact Hc'.
Qed.

Lemma located_spans (lines : list str) (icb : bool) (t : MarkdownTable) :
  located lines icb t ->
  spansAt icb (if icb then findCodeBlockRanges lines else []) 0 lines t.
Proof.
  intros (ts & Hts & Hin). unfold findTables in Hts.
  apply findTables_loop_spans in Hts. rewrite Forall_forall in Hts.
  apply Hts, Hin.
Qed.

Lemma nthZ_app_middle {A} (pre mid post : list A) (k : nat) :
  (k < length mid)%nat ->
  nthZ (pre ++ mid ++ post) (Z.of_nat (length pre) + Z.of_nat k) = nth_error mid k.
Proof.
  intro Hk. rewrite <- Nat2Z.inj_add, nthZ_nat.
  rewrite nth_error_app2 by lia.
  replace (length pre + k - length pre)%nat with k by lia.
  apply nth_error_app1. exact Hk.
Qed.

(** X1: the rows of a located table are the lines of its range, parsed: the
    table starts inside the document, has one row per line from [startLine]
    to [endLine], every such line is a table row, and the row that
    [getRowIndexInTable] names for a line is that line parsed. *)
Theorem X1_located_rows_are_the_parsed_lines :
  forall (lines : list str) (ignoreCodeBlocks : bool) (t : MarkdownTable),
    located lines ignoreCodeBlocks t ->
    0 <= startLine t
    /\ endLine t < Z.of_nat (length lines)
    /\ Z.of_nat (length (rows t)) = endLine t - startLine t + 1
    /\ (forall n, startLine t <= n <= endLine t ->
        exists line,
          nthZ lines n = Some line
          /\ isTableRow line = true
          /\ nthZ (rows t) (getRowIndexInTable t n) = Some (parseTableRow line)).
Proof.
  intros lines icb t Hloc.
  destruct (located_spans lines icb t Hloc)
    as (pre & consumed & post & E & Hs & He & Hr & Hall & _).
  assert (Hlen : length (rows t) = length consumed)
    by (rewrite Hr; apply length_map).
  repeat split.
  - lia.
  - rewrite E, !length_app. lia.
  - lia.
  - intros n Hn.
    set (k := Z.to_nat (n - startLine t)).
    assert (Hk : (k < length consumed)%nat) by lia.
    destruct (nth_error consumed k) as [line|] eqn:Ek;
      [|apply nth_error_None in Ek; lia].
    exists line. split; [|split].
    + replace n with (Z.of_nat (length pre) + Z.of_nat k) by lia.
      rewrite E, nthZ_app_middle by exact Hk. exact Ek.
    + rewrite Forall_forall in Hall. apply Hall. eapply nth_error_In, Ek.
    + unfold getRowIndexInTable.
      replace (n - startLine t) with (Z.of_nat k) by lia.
      rewrite nthZ_nat, Hr, nth_error_map, Ek. reflexivity.
Qed.

Lemma X1_located_rows_witness :
  0 <= startLine wide_table
  /\ endLine wide_table < Z.of_nat (length wide_doc)
  /\ Z.of_nat (length (rows wide_table)) = endLine wide_table - startLine wide_table + 1
  /\ (forall n, startLine wide_table <= n <= endLine wide_table ->
      exists line,
        nthZ wide_doc n = Some line
        /\ isTableRow line = true
        /\ nthZ (rows wide_table) (getRowIndexInTable wide_table n)
           = Some (parseTableRow line)).
Proof.
  apply (X1_located_rows_are_the_parsed_lines wide_doc false wide_table).
  exists [wide_table]. split; [vm_compute; reflexivity | left; reflexivity].
Defined.

(** X2: with [ignoreCodeBlocks] on, no line of a located table lies in a
    fenced code block. *)
Theorem X2_located_tables_avoid_code_blocks :
  forall (lines : list str) (t : MarkdownTable) (n : Z),
    located lines true t ->
    startLine t <= n <= endLine t ->
    isLineInCodeBlock n (findCodeBlockRanges lines) = false.
Proof.
  intros lines t n Hloc Hn.
  destruct (located_spans lines true t Hloc)
    as (pre & consumed & post & E & Hs & He & Hr & Hall & Hc).
  specialize (Hc (Z.to_nat (n - startLine t)) ltac:(lia)).
  replace (startLine t + Z.of_nat (Z.to_nat (n - startLine t))) with n in Hc by lia.
  exact Hc.
Qed.

Lemma X2_code_blocks_witness :
  isLineInCodeBlock 5 (findCodeBlockRanges fenced_doc) = false.
Proof.
  apply (X2_located_tables_avoid_code_blocks fenced_doc fenced_table 5).
  - exists [fenced_table]. split; [vm_compute; reflexivity | left; reflexivity].
  - simpl. lia.
Defined.

(** ** The table at a position *)

Lemma find_unique_range (n : Z) (ts : list MarkdownTable) (t : MarkdownTable) :
  StronglySorted before ts ->
  Forall (fun t => startLine t <= endLine t) ts ->
  In t ts ->
  startLine t <= n <= endLine t ->
  find (fun table => (startLine table <=? n) && (n <=? endLine table)) ts = Some t.
Proof.
  intros Hs Hne Hin Hn.
  induction Hs as [|a l Hl IH Ha]; [contradiction|].
  inversion Hne as [|? ? _ Hne']; subst.
  cbn [find].
  destruct ((startLine a <=? n) && (n <=? endLine a)) eqn:E.
  - destruct Hin as [-> | Hin]; [reflexivity|].
    apply andb_true_iff in E as [E1 E2]. apply Z.leb_le in E1, E2.
    rewrite Forall_forall in Ha. destruct (Ha t Hin) as [_ Hb]. lia.
  - destruct Hin as [-> | Hin]; [|apply IH; assumption].
    apply andb_false_iff in E as [E | E]; apply Z.leb_gt in E; lia.
Qed.

(** X3: [findTableAtPosition] returns exactly the located table whose line
    range contains the position: it answers [t] if and only if [t] is one of
    the tables of [findTables] and [startLine <= lineNumber <= endLine]. *)
Theorem X3_findTableAtPosition_is_the_table_containing_the_line :
  forall (lines : list str) (lineNumber : Z) (ignoreCodeBlocks : bool)
         (t : MarkdownTable),
    findTableAtPosition lines lineNumber ignoreCodeBlocks = Some (Some t)
    <-> (located lines ignoreCodeBlocks t
         /\ startLine t <= lineNumber <= endLine t).
Proof.
  intros lines n icb t. unfold findTableAtPosition, located.
  destruct (findTables lines icb) as [ts|] eqn:Hts.
  2:{ destruct (findTables_total lines icb) as (ts & H). congruence. }
  cbn [option_map]. split.
  - intro H. injection H as H. apply find_some in H. destruct H as [Hin Hp].
    apply andb_true_iff in Hp as [H1 H2]. apply Z.leb_le in H1, H2.
    split; [exists ts; split; [reflexivity | exact Hin] | lia].
  - intros [(ts' & E & Hin) Hn]. injection E as <-. f_equal.
    pose proof Hts as Hsound. unfold findTables in Hsound.
    apply findTables_loop_sound in Hsound. destruct Hsound as [Hall Hs].
    apply find_unique_range; try assumption.
    eapply Forall_impl; [|exact Hall]. simpl. intros a [_ Ha]. lia.
Qed.

(** X4: at a position that is not a table-row line of the document (or is
    outside the document) [findTableAtPosition] finds no table. *)
Theorem X4_no_table_at_a_line_that_is_no_table_row :
  forall (lines : list str) (lineNumber : Z) (ignoreCodeBlocks : bool),
    (forall line, nthZ lines lineNumber = Some line -> isTableRow line = false) ->
    findTableAtPosition lines lineNumber ignoreCodeBlocks = Some None.
Proof.
  intros lines n icb Hline. unfold findTableAtPosition.
  destruct (findTables lines icb) as [ts|] eqn:Hts.
  2:{ destruct (findTables_total lines icb) as (ts & H). congruence. }
  cbn [option_map]. f_equal.
  destruct (find _ ts) as [t|] eqn:Hf; [exfalso | reflexivity].
  apply find_some in Hf. destruct Hf as [Hin Hp].
  apply andb_true_iff in Hp as [H1 H2]. apply Z.leb_le in H1, H2.
  assert (Hloc : located lines icb t) by (exists ts; auto).
  destruct (located_spans lines icb t Hloc)
    as (pre & consumed & post & E & Hs & He & Hr & Hall & _).
  set (k := Z.to_nat (n - startLine t)).
  assert (Hk : (k < length consumed)%nat) by lia.
  destruct (nth_error consumed k) as [line|] eqn:Ek;
    [|apply nth_error_None in Ek; lia].
  assert (Hn : nthZ lines n = Some line).
  { replace n with (Z.of_nat (length pre) + Z.of_nat k) by lia.
    rewrite E, nthZ_app_middle by exact Hk. exact Ek. }
  rewrite Forall_forall in Hall.
  pose proof (Hall line (nth_error_In _ _ Ek)) as Hrow.
  rewrite (Hline line Hn) in Hrow. discriminate Hrow.
Qed.

Lemma X4_no_table_witness :
  findTableAtPosition wide_doc 7 false = Some None.
Proof.
  apply (X4_no_table_at_a_line_that_is_no_table_row wide_doc 7 false).
  intros line H. vm_compute in H. discriminate H.
Defined.

(** ** Rendering a table as lines and locating it again *)

(** Locating in the lines of [tableToLines] gives the rows back, under what
    the Row Parser guarantees of the rows. *)
Lemma findTables_tableToLines (icb : bool) (t : MarkdownTable)
    (hdr sepRow : list str) (data : list (list str)) :
  rows t = hdr :: sepRow :: data ->
  Forall parsedRow (rows t) ->
  forallb isSeparatorCell hdr = false ->
  forallb isSeparatorCell sepRow = true ->
  findTables (tableToLines t) icb
  = Some [ mkTable 0 (Z.of_nat (length (rows t)) - 1) (rows t) 1
             (parseAlignments sepRow) ].
Proof.
  intros Hrows Hall Hh Hs. unfold tableToLines. rewrite Hrows in *.
  inversion Hall as [|? ? Ph Hall']; subst.
  inversion Hall' as [|? ? Ps Pd]; subst.
  assert (Back : forall row, parsedRow row -> parseTableRow (joinRow row) = row).
  { intros row P. rewrite <- (padded_false_map row) at 1.
    apply parseTableRow_compact. exact P. }
  assert (Sep : forall row, parsedRow row ->
                isTableSeparator (joinRow row) = forallb isSeparatorCell row).
  { intros row [Hne Hc]. apply isTableSeparator_joinRow.
    - exact Hne.
    - eapply Forall_impl; [|exact Hc]. intros c [_ H]. exact H. }
  assert (D : map parseTableRow (map joinRow data) = data).
  { rewrite map_map. rewrite <- (map_id data) at 2. apply map_ext_in.
    intros row Hrow. apply Back. rewrite Forall_forall in Pd. apply Pd, Hrow. }
  cbn [map]. rewrite findTables_single.
  - rewrite !Back by assumption. rewrite D. cbn [length]. rewrite length_map.
    reflexivity.
  - constructor; [eexists; reflexivity|]. constructor; [eexists; reflexivity|].
    rewrite Forall_map. apply Forall_forall. intros row _. eexists. reflexivity.
  - rewrite Sep by assumption. exact Hh.
  - rewrite Sep by assumption. exact Hs.
Qed.

Lemma forallb_isSeparatorCell_parsed (line : str) :
  isTableRow line = true ->
  forallb isSeparatorCell (parseTableRow line) = isTableSeparator line.
Proof.
  intro Hrow. rewrite (isTableSeparator_split line Hrow). unfold parseTableRow.
  apply forallb_map_ext. intro p. apply isSeparatorCell_trim_eq, trim_idem.
Qed.

(** X5: writing a located table with [tableToLines] and locating in those
    lines gives the same table back -- the same rows, separator row
    included, and the same alignments -- at lines 0 to [rows.length - 1]. *)
Theorem X5_tableToLines_then_findTables :
  forall (lines : list str) (ignoreCodeBlocks ignoreCodeBlocks' : bool)
         (t : MarkdownTable),
    located lines ignoreCodeBlocks t ->
    findTables (tableToLines t) ignoreCodeBlocks'
    = Some [ mkTable 0 (Z.of_nat (length (rows t)) - 1) (rows t)
               (separatorIndex t) (alignments t) ].
Proof.
  intros lines icb icb' t Hloc. apply located_shape in Hloc.
  destruct Hloc as (hline & sline & dlines & Hh & Hhs & Hs & Hss & Hrows & Hsep & Hal).
  rewrite Hsep, Hal.
  apply (findTables_tableToLines icb' t _ _ _ Hrows).
  - rewrite Hrows. constructor; [apply parseTableRow_parsedRow|].
    constructor; [apply parseTableRow_parsedRow|].
    rewrite Forall_map. apply Forall_forall. intros l _. apply parseTableRow_parsedRow.
  - rewrite forallb_isSeparatorCell_parsed by exact Hh. exact Hhs.
  - rewrite forallb_isSeparatorCell_parsed by exact Hs. exact Hss.
Qed.

Lemma X5_tableToLines_witness :
  findTables (tableToLines fenced_table) true
  = Some [ mkTable 0 (Z.of_nat (length (rows fenced_table)) - 1) (rows fenced_table)
             (separatorIndex fenced_table) (alignments fenced_table) ].
Proof.
  apply (X5_tableToLines_then_findTables fenced_doc true true fenced_table).
  exists [fenced_table]. split; [vm_compute; reflexivity | left; reflexivity].
Defined.

Lemma X3_findTableAtPosition_witness :
  findTableAtPosition fenced_doc 5 true = Some (Some fenced_table).
Proof.
  apply (X3_findTableAtPosition_is_the_table_containing_the_line
           fenced_doc 5 true fenced_table).
  split.
  - exists [fenced_table]. split; [vm_compute; reflexivity | left; reflexivity].
  - simpl. lia.
Defined.

(** ** Separator cells of the formatter *)

Lemma removelast_repeat {A} (x : A) (n : nat) :
  removelast (repeat x (S n)) = repeat x n.
Proof.
  induction n as [|n IH]; [reflexivity|].
  change (repeat x (S (S n))) with (x :: repeat x (S n)).
  cbn [removelast]. change (repeat x (S n)) with (x :: repeat x n) at 1.
  cbv iota. rewrite IH. reflexivity.
Qed.

Lemma noChar_separatorCore (lc rc : bool) (n : Z) :
  noChar PIPE (separatorCore lc rc n).
Proof.
  unfold separatorCore, repeatc.
  apply Forall_app. split; [destruct lc; repeat constructor|].
  apply Forall_app. split; [|destruct rc; repeat constructor].
  induction (Z.to_nat n); simpl; constructor; [reflexivity | assumption].
Qed.

(** What makes a text a rendered separator cell reading as [a]. *)
Lemma padded_core_spec (b lc rc : bool) (n : Z) :
  1 <= n ->
  isSeparatorCell (padded b (separatorCore lc rc n)) = true
  /\ noChar PIPE (padded b (separatorCore lc rc n))
  /\ trim (padded b (separatorCore lc rc n)) = separatorCore lc rc n.
Proof.
  intro Hn. split; [|split].
  - apply isSeparatorCell_iff. exists lc, rc, n. split; [exact Hn|].
    apply trim_padded, separatorCore_trimmed.
  - apply noChar_padded; [reflexivity | apply noChar_separatorCore].
  - apply trim_padded, separatorCore_trimmed.
Qed.

Lemma formatCompactSeparatorCell_core (cell : str) (alignment : ColumnAlignment)
    (co : CompactOptions) (headerWidth : Z) :
  exists n,
    1 <= n
    /\ formatCompactSeparatorCell cell alignment co headerWidth
       = padded (co_separatorPadding co && co_cellPadding co)
           (separatorCore
              (match alignment with AlignLeft | AlignCenter => true | _ => false end)
              (match alignment with AlignRight | AlignCenter => true | _ => false end)
              n)
    /\ len (separatorCore
              (match alignment with AlignLeft | AlignCenter => true | _ => false end)
              (match alignment with AlignRight | AlignCenter => true | _ => false end)
              n)
       = (if alignSeparatorWithHeader co then Z.max 3 headerWidth else 3).
Proof.
  unfold formatCompactSeparatorCell.
  set (w := if alignSeparatorWithHeader co then Z.max 3 headerWidth else 3).
  assert (Hw : 3 <= w) by (unfold w; destruct (alignSeparatorWithHeader co); lia).
  assert (E : (if alignSeparatorWithHeader co
               then repeatc DASH (Z.max 3 headerWidth) else lit "---")
              = repeat DASH (Z.to_nat w)).
  { unfold w. destruct (alignSeparatorWithHeader co); reflexivity. }
  rewrite E.
  destruct (Z.to_nat w) as [|[|[|k]]] eqn:Ek; try lia.
  assert (Hk : w = Z.of_nat k + 3) by lia.
  unfold padded, separatorCore, repeatc.
  destruct alignment.
  - exists (Z.of_nat k + 2). split; [lia|].
    replace (Z.to_nat (Z.of_nat k + 2)) with (S (S k)) by lia.
    split; [cbn [tl repeat app]; rewrite ?app_nil_r; reflexivity|].
    rewrite !len_app. unfold len. cbn [app length]. rewrite repeat_length. lia.
  - exists (Z.of_nat k + 1). split; [lia|].
    replace (Z.to_nat (Z.of_nat k + 1)) with (S k) by lia.
    split.
    + unfold slice_1_m1.
      change (tl (repeat DASH (S (S (S k))))) with (repeat DASH (S (S k))).
      rewrite removelast_repeat. reflexivity.
    + rewrite !len_app. unfold len. cbn [app length]. rewrite repeat_length. lia.
  - exists (Z.of_nat k + 2). split; [lia|].
    replace (Z.to_nat (Z.of_nat k + 2)) with (S (S k)) by lia.
    split.
    + rewrite removelast_repeat. rewrite ?app_nil_r. reflexivity.
    + rewrite !len_app. unfold len. cbn [app length]. rewrite repeat_length.
      cbn [length]. lia.
  - exists (Z.of_nat k + 3). split; [lia|].
    replace (Z.to_nat (Z.of_nat k + 3)) with (S (S (S k))) by lia.
    split; [rewrite app_nil_r; reflexivity|].
    rewrite !len_app. unfold len. cbn [app length]. rewrite repeat_length. lia.
Qed.

(** X6: [formatCompactSeparatorCell] always builds a separator cell: its
    text matches the separator-cell pattern, reads back as the alignment it
    was given, and is as wide as the header (at least 3) when the separator
    follows the header, 3 wide otherwise. *)
Theorem X6_formatCompactSeparatorCell_is_a_separator :
  forall (cell : str) (alignment : ColumnAlignment) (co : CompactOptions)
         (headerWidth : Z),
    isSeparatorCell (formatCompactSeparatorCell cell alignment co headerWidth) = true
    /\ getAlignmentFromSeparator (formatCompactSeparatorCell cell alignment co headerWidth)
       = alignment
    /\ len (trim (formatCompactSeparatorCell cell alignment co headerWidth))
       = (if alignSeparatorWithHeader co then Z.max 3 headerWidth else 3).
Proof.
  intros cell alignment co headerWidth.
  destruct (formatCompactSeparatorCell_core cell alignment co headerWidth)
    as (n & Hn & E & Hlen).
  rewrite E.
  destruct (padded_core_spec (co_separatorPadding co && co_cellPadding co)
              (match alignment with AlignLeft | AlignCenter => true | _ => false end)
              (match alignment with AlignRight | AlignCenter => true | _ => false end)
              n Hn) as (Hs & _ & Ht).
  split; [exact Hs|]. split.
  - rewrite getAlignment_of_core by exact Hn. destruct alignment; reflexivity.
  - rewrite Ht. exact Hlen.
Qed.

(** X7: [createSeparatorCell] always builds a separator cell, whatever the
    cell it starts from: its text matches the separator-cell pattern and is
    [max(3, width)] wide without its padding; it carries a leading colon
    exactly when the alignment is left or center or the cell had one, and a
    trailing colon exactly when the alignment is right or center or the cell
    had one. *)
Theorem X7_createSeparatorCell_is_a_separator :
  forall (cell : str) (width : Z) (o : FormatOptions)
         (alignment : option ColumnAlignment),
    isSeparatorCell (createSeparatorCell cell width o alignment) = true
    /\ len (trim (createSeparatorCell cell width o alignment)) = Z.max 3 width
    /\ startsWith (trim (createSeparatorCell cell width o alignment)) [COLON]
       = (isAlign alignment AlignLeft || isAlign alignment AlignCenter
          || startsWith (trim cell) [COLON])
    /\ endsWith (trim (createSeparatorCell cell width o alignment)) [COLON]
       = (isAlign alignment AlignRight || isAlign alignment AlignCenter
          || endsWith (trim cell) [COLON]).
Proof.
  intros cell width o alignment.
  destruct (createSeparatorCell_shape cell width o alignment)
    as (lc & rc & n & E & Hn & Hlen & Hlc & Hrc).
  rewrite E.
  destruct (padded_core_spec (cellPadding o && separatorPadding o) lc rc n Hn)
    as (Hs & _ & Ht).
  rewrite Ht. destruct (separatorCore_colons lc rc n Hn) as [Hl Hr].
  split; [exact Hs|]. split; [exact Hlen|].
  split; [rewrite Hl; exact Hlc | rewrite Hr; exact Hrc].
Qed.

(** ** Locating again in rendered lines *)

Lemma noChar_repeat_space (n : nat) : noChar PIPE (repeat SPACE n).
Proof. induction n; simpl; constructor; [reflexivity | assumption]. Qed.

Lemma forallb_isWhite_repeat_space (n : nat) :
  forallb isWhite (repeat SPACE n) = true.
Proof. induction n; [reflexivity | simpl; assumption]. Qed.

Lemma keepsText_row (row out : list str) :
  parsedRow row -> Forall2 keepsText row out ->
  out <> [] /\ Forall (noChar PIPE) out /\ map trim out = row.
Proof.
  intros [Hne Hall] H. split; [|split].
  - destruct H; [contradiction | discriminate].
  - clear Hne. induction H as [|c o' row out (l & r & ->) _ IH]; constructor.
    + apply Forall_inv in Hall. destruct Hall as [_ Hp].
      apply Forall_app. split; [apply noChar_repeat_space|].
      apply Forall_app. split; [exact Hp | apply noChar_repeat_space].
    + apply IH. exact (Forall_inv_tail Hall).
  - clear Hne. induction H as [|c o' row out (l & r & ->) _ IH]; [reflexivity|].
    cbn [map]. f_equal.
    + apply trim_pad; try apply forallb_isWhite_repeat_space.
      apply Forall_inv in Hall. exact (proj1 Hall).
    + apply IH. exact (Forall_inv_tail Hall).
Qed.

Lemma rendered_rows (data cs : list (list str)) :
  Forall parsedRow data -> Forall2 (Forall2 keepsText) data cs ->
  map parseTableRow (map joinRow cs) = data.
Proof.
  intros Hall H. induction H as [|row out data cs Hrow _ IH]; [reflexivity|].
  cbn [map]. f_equal.
  - destruct (keepsText_row row out (Forall_inv Hall) Hrow) as (Hne & Hp & Ht).
    rewrite parseTableRow_joinRow by assumption. exact Ht.
  - apply IH. exact (Forall_inv_tail Hall).
Qed.

(** Locating in lines rendered from the cells [c0 :: c1 :: cs]: header and
    data cells keep the text of [hdr] and [data], [c1] holds separator
    cells. *)
Lemma findTables_rendered (icb : bool) (hdr : list str) (data : list (list str))
    (c0 c1 : list str) (cs : list (list str)) :
  parsedRow hdr -> Forall parsedRow data ->
  forallb isSeparatorCell hdr = false ->
  Forall2 keepsText hdr c0 ->
  Forall2 (Forall2 keepsText) data cs ->
  c1 <> [] ->
  Forall (fun c => isSeparatorCell c = true /\ noChar PIPE c) c1 ->
  findTables (map joinRow (c0 :: c1 :: cs)) icb
  = Some [ mkTable 0 (Z.of_nat (length (c0 :: c1 :: cs)) - 1)
             (hdr :: map trim c1 :: data) 1 (parseAlignments (map trim c1)) ].
Proof.
  intros Hh Hd Hns H0 Hcs Hne H1.
  destruct (keepsText_row hdr c0 Hh H0) as (Hne0 & Hp0 & Ht0).
  assert (Hp1 : Forall (noChar PIPE) c1)
    by (eapply Forall_impl; [|exact H1]; intros c [_ Hc]; exact Hc).
  cbn [map]. rewrite findTables_single.
  - rewrite !parseTableRow_joinRow by assumption.
    rewrite Ht0, (rendered_rows data cs Hd Hcs).
    cbn [length]. rewrite length_map. reflexivity.
  - constructor; [eexists; reflexivity|]. constructor; [eexists; reflexivity|].
    apply Forall_map. apply Forall_forall. intros c _. eexists; reflexivity.
  - rewrite isTableSeparator_joinRow by assumption.
    rewrite <- Hns, <- Ht0. clear. induction c0 as [|c c0 IH]; [reflexivity|].
    cbn [map forallb]. rewrite IH. f_equal.
    apply isSeparatorCell_trim_eq. symmetry. apply trim_idem.
  - rewrite isTableSeparator_joinRow by assumption.
    apply forallb_forall. intros c Hc.
    rewrite Forall_forall in H1. exact (proj1 (H1 c Hc)).
Qed.

Lemma Forall2_mapi_from_ge {A B} (P : A -> B -> Prop) (f : Z -> A -> B) (l : list A) :
  forall k, (forall i x, k <= i -> P x (f i x)) -> Forall2 P l (mapi_from f k l).
Proof.
  induction l as [|x l IH]; intros k H; simpl; constructor.
  - apply H. lia.
  - apply IH. intros i y Hi. apply H. lia.
Qed.

Lemma createSeparatorCell_separator {O} `{PaddingOptions O}
    (cell : str) (w : Z) (o : O) (al : option ColumnAlignment) :
  isSeparatorCell (createSeparatorCell cell w o al) = true
  /\ noChar PIPE (createSeparatorCell cell w o al).
Proof.
  destruct (createSeparatorCell_shape cell w o al)
    as (lc & rc & n & E & Hn & _).
  rewrite E.
  destruct (padded_core_spec (cellPadding o && separatorPadding o) lc rc n Hn)
    as (Hs & Hp & _).
  split; assumption.
Qed.

Lemma createSeparatorCell_keeps_alignment {O} `{PaddingOptions O}
    (cell : str) (w : Z) (o : O) :
  getAlignmentFromSeparator
    (createSeparatorCell cell w o (Some (getAlignmentFromSeparator cell)))
  = getAlignmentFromSeparator cell.
Proof.
  destruct (createSeparatorCell_shape cell w o (Some (getAlignmentFromSeparator cell)))
    as (lc & rc & n & E & Hn & _ & Hlc & Hrc).
  rewrite E, getAlignment_of_core by exact Hn.
  rewrite Hlc, Hrc. unfold getAlignmentFromSeparator.
  destruct (startsWith (trim cell) [COLON]), (endsWith (trim cell) [COLON]);
    reflexivity.
Qed.

Lemma formatCompactSeparatorCell_separator (cell : str) (a : ColumnAlignment)
    (co : CompactOptions) (hw : Z) :
  isSeparatorCell (formatCompactSeparatorCell cell a co hw) = true
  /\ noChar PIPE (formatCompactSeparatorCell cell a co hw)
  /\ getAlignmentFromSeparator (formatCompactSeparatorCell cell a co hw) = a.
Proof.
  destruct (formatCompactSeparatorCell_core cell a co hw) as (n & Hn & E & _).
  rewrite E.
  destruct (padded_core_spec (co_separatorPadding co && co_cellPadding co)
              (match a with AlignLeft | AlignCenter => true | _ => false end)
              (match a with AlignRight | AlignCenter => true | _ => false end)
              n Hn) as (Hs & Hp & _).
  split; [exact Hs|]. split; [exact Hp|].
  rewrite getAlignment_of_core by exact Hn. destruct a; reflexivity.
Qed.

(** A cell of the separator row as [formatTable] renders it. *)
Lemma separatorCell_separator cw al hdr o co b w i cell :
  isSeparatorCell (separatorCell cw al hdr o co b w i cell) = true
  /\ noChar PIPE (separatorCell cw al hdr o co b w i cell).
Proof.
  unfold separatorCell.
  destruct (i <? b); [apply createSeparatorCell_separator|].
  destruct (i =? b).
  - destruct (_ <=? _); [apply createSeparatorCell_separator|].
    destruct (formatCompactSeparatorCell_separator cell
                (orAlign (nthZ al i) AlignNone) co
                (orNum (Some (len (orStr (nthZ hdr i) []))) 3)) as (A & B & _).
    split; assumption.
  - destruct (formatCompactSeparatorCell_separator cell
                (orAlign (nthZ al i) AlignNone) co
                (orNum (Some (len (orStr (nthZ hdr i) []))) 3)) as (A & B & _).
    split; assumption.
Qed.

Lemma separatorCell_alignment cw al hdr o co b w i cell :
  orAlign (nthZ al i) AlignNone = getAlignmentFromSeparator cell ->
  getAlignmentFromSeparator (separatorCell cw al hdr o co b w i cell)
  = getAlignmentFromSeparator cell.
Proof.
  intro Ha. unfold separatorCell. rewrite Ha.
  destruct (i <? b); [apply createSeparatorCell_keeps_alignment|].
  destruct (i =? b).
  - destruct (_ <=? _); [apply createSeparatorCell_keeps_alignment|].
    apply formatCompactSeparatorCell_separator.
  - apply formatCompactSeparatorCell_separator.
Qed.

(** The shape of what [formatTable] renders for a table whose separator is
    its second row. *)
Lemma formatTable_cells_shape (t : MarkdownTable) (o : FormatOptions)
    (co : CompactOptions) (hdr sepRow : list str) (data : list (list str)) :
  rows t = hdr :: sepRow :: data ->
  separatorIndex t = 1 ->
  exists (F : Z -> str -> str) c0 cs,
    formatTable_cells t o co = Value (c0 :: mapi F sepRow :: cs)
    /\ Forall2 keepsText hdr c0
    /\ Forall2 (Forall2 keepsText) data cs
    /\ (forall i cell, isSeparatorCell (F i cell) = true /\ noChar PIPE (F i cell))
    /\ (forall i cell,
          orAlign (nthZ (if preserveAlignment o then alignments t else []) i) AlignNone
          = getAlignmentFromSeparator cell ->
          getAlignmentFromSeparator (F i cell) = getAlignmentFromSeparator cell).
Proof.
  intros Hrows Hsep. unfold formatTable_cells. rewrite Hrows, Hsep.
  change (nthZ (hdr :: sepRow :: data) 1) with (Some sepRow).
  assert (K : forall (G : Z -> list str -> list str),
             (forall row, Forall2 keepsText row (G 0 row)) ->
             (forall i row, 2 <= i -> Forall2 keepsText row (G i row)) ->
             Forall2 keepsText hdr (G 0 hdr)
             /\ Forall2 (Forall2 keepsText) data (mapi_from G 2 data)).
  { intros G G0 G2. split; [apply G0|]. apply Forall2_mapi_from_ge. exact G2. }
  destruct (fo_keepSeparatorRatios o && (0 <=? 1)).
  - match goal with
    | |- exists F c0 cs, Value (mapi ?G _) = _ /\ _ =>
        destruct (K G) as [K0 K2]
    end.
    + intro row. cbv beta. change (0 =? 1) with false. change (0 =? 0) with true.
      cbv iota. cbn [andb].
      destruct (0 <? maxWidth o); apply Forall2_mapi_from; intros;
        [apply maxWidthCell_keepsText | apply alignedCell_keepsText].
    + intros i row Hi. cbv beta.
      replace (i =? 1) with false by (symmetry; apply Z.eqb_neq; lia).
      replace (i =? 0) with false by (symmetry; apply Z.eqb_neq; lia).
      cbn [andb]. unfold formatRowWithMaxWidth_cells.
      destruct (0 <? maxWidth o); apply Forall2_mapi_from; intros;
        [apply maxWidthCell_keepsText | apply alignedCell_keepsText].
    + eexists. eexists. eexists. split; [reflexivity|].
      split; [exact K0|]. split; [exact K2|]. split.
      * intros i cell. cbv beta. apply createSeparatorCell_separator.
      * intros i cell Ha. cbv beta. rewrite Ha.
        apply createSeparatorCell_keeps_alignment.
  - match goal with
    | |- exists F c0 cs, Value (mapi ?G _) = _ /\ _ =>
        destruct (K G) as [K0 K2]
    end.
    + intro row. cbv beta. change (0 =? 1) with false. change (0 =? 0) with true.
      cbv iota. cbn [andb].
      destruct (0 <? maxWidth o); apply Forall2_mapi_from; intros;
        [apply maxWidthCell_keepsText | apply alignedCell_keepsText].
    + intros i row Hi. cbv beta.
      replace (i =? 1) with false by (symmetry; apply Z.eqb_neq; lia).
      replace (i =? 0) with false by (symmetry; apply Z.eqb_neq; lia).
      cbn [andb]. unfold formatRowWithMaxWidth_cells.
      destruct (0 <? maxWidth o); apply Forall2_mapi_from; intros;
        [apply maxWidthCell_keepsText | apply alignedCell_keepsText].
    + eexists. eexists. eexists. split; [reflexivity|].
      split; [exact K0|]. split; [exact K2|]. split.
      * intros i cell. apply separatorCell_separator.
      * intros i cell Ha. apply separatorCell_alignment. exact Ha.
Qed.

Lemma parseAlignments_mapi (F : Z -> str -> str) (al : list ColumnAlignment)
    (sepRow : list str) :
  (forall i cell,
      orAlign (nthZ al i) AlignNone = getAlignmentFromSeparator cell ->
      getAlignmentFromSeparator (F i cell) = getAlignmentFromSeparator cell) ->
  al = parseAlignments sepRow ->
  parseAlignments (map trim (mapi F sepRow)) = parseAlignments sepRow.
Proof.
  intros HF Hal. unfold parseAlignments. rewrite map_map.
  apply nth_error_ext. intro n. rewrite !nth_error_map, nth_error_mapi.
  destruct (nth_error sepRow n) as [cell|] eqn:E; [|reflexivity].
  cbn [option_map]. f_equal.
  transitivity (getAlignmentFromSeparator (F (Z.of_nat n) cell)).
  - unfold getAlignmentFromSeparator. rewrite trim_idem. reflexivity.
  - apply HF. rewrite Hal, nthZ_nat. unfold parseAlignments.
    rewrite nth_error_map, E. reflexivity.
Qed.

(** X8: formatting a located table and locating again in the formatted
    lines, whatever the options, finds exactly one table, starting at line
    0, with as many rows and its separator at index 1; its header and data
    rows are the original rows, cell for cell; its separator row has as many
    cells as the original one, each a separator cell; and when
    [preserveAlignment] is on, its column alignments are the original
    ones. *)
Theorem X8_formatTable_then_findTables :
  forall (lines : list str) (ignoreCodeBlocks ignoreCodeBlocks' : bool)
         (t : MarkdownTable) (o : FormatOptions) (co : CompactOptions),
    located lines ignoreCodeBlocks t ->
    exists out hdr sepRow sepRow' data,
      formatTable t o co = Value out
      /\ rows t = hdr :: sepRow :: data
      /\ findTables out ignoreCodeBlocks'
         = Some [ mkTable 0 (Z.of_nat (length (rows t)) - 1)
                    (hdr :: sepRow' :: data) 1 (parseAlignments sepRow') ]
      /\ length sepRow' = length sepRow
      /\ forallb isSeparatorCell sepRow' = true
      /\ (preserveAlignment o = true -> parseAlignments sepRow' = alignments t).
Proof.
  intros lines icb icb' t o co Hloc. apply located_shape in Hloc.
  destruct Hloc as (hline & sline & dlines & Hh & Hhs & Hs & Hss & Hrows & Hsep & Hal).
  destruct (formatTable_cells_shape t o co _ _ _ Hrows Hsep)
    as (F & c0 & cs & E & H0 & Hcs & HF & HFa).
  exists (map joinRow (c0 :: mapi F (parseTableRow sline) :: cs)),
    (parseTableRow hline), (parseTableRow sline),
    (map trim (mapi F (parseTableRow sline))), (map parseTableRow dlines).
  assert (Hlen : length (mapi F (parseTableRow sline)) = length (parseTableRow sline))
    by (unfold mapi; apply length_mapi_from).
  assert (Hall : Forall (fun c => isSeparatorCell c = true /\ noChar PIPE c)
                   (mapi F (parseTableRow sline))).
  { apply Forall_forall. intros c Hc. apply In_nth_error in Hc.
    destruct Hc as (n & Hn). rewrite nth_error_mapi in Hn.
    destruct (nth_error (parseTableRow sline) n); [|discriminate].
    injection Hn as <-. apply HF. }
  split; [unfold formatTable; rewrite E; reflexivity|].
  split; [exact Hrows|]. split; [|split; [|split]].
  - rewrite (findTables_rendered icb' (parseTableRow hline) (map parseTableRow dlines)).
    + do 3 f_equal. rewrite Hrows. cbn [length].
      apply Forall2_length in Hcs. rewrite <- Hcs. reflexivity.
    + apply parseTableRow_parsedRow.
    + rewrite Forall_map. apply Forall_forall. intros l _. apply parseTableRow_parsedRow.
    + rewrite forallb_isSeparatorCell_parsed by exact Hh. exact Hhs.
    + exact H0.
    + exact Hcs.
    + destruct (parseTableRow_parsedRow sline) as [Hne _].
      intro Hnil. rewrite Hnil in Hlen.
      destruct (parseTableRow sline); [contradiction | discriminate].
    + exact Hall.
  - rewrite length_map. exact Hlen.
  - apply forallb_forall. intros c Hc. apply in_map_iff in Hc.
    destruct Hc as (c' & <- & Hc').
    rewrite Forall_forall in Hall.
    rewrite (isSeparatorCell_trim_eq (trim c') c') by apply trim_idem.
    exact (proj1 (Hall c' Hc')).
  - intro Hp. rewrite Hp in HFa. rewrite Hal.
    apply parseAlignments_mapi with (al := alignments t); [exact HFa | exact Hal].
Qed.

Lemma X8_formatTable_witness :
  exists out hdr sepRow sepRow' data,
    formatTable wide_table width40 getDefaultCompactOptions = Value out
    /\ rows wide_table = hdr :: sepRow :: data
    /\ findTables out true
       = Some [ mkTable 0 (Z.of_nat (length (rows wide_table)) - 1)
                  (hdr :: sepRow' :: data) 1 (parseAlignments sepRow') ]
    /\ length sepRow' = length sepRow
    /\ forallb isSeparatorCell sepRow' = true
    /\ (preserveAlignment width40 = true -> parseAlignments sepRow' = alignments wide_table).
Proof.
  apply (X8_formatTable_then_findTables wide_doc true true wide_table width40
           getDefaultCompactOptions).
  exists [wide_table]. split; [vm_compute; reflexivity | left; reflexivity].
Defined.

(** ** Compacting twice *)

Lemma createSeparatorCell_flags {O} `{PaddingOptions O}
    (cell cell' : str) (w : Z) (o : O) (al : option ColumnAlignment) :
  (isAlign al AlignLeft || isAlign al AlignCenter || startsWith (trim cell) [COLON])
  = (isAlign al AlignLeft || isAlign al AlignCenter || startsWith (trim cell') [COLON]) ->
  (isAlign al AlignRight || isAlign al AlignCenter || endsWith (trim cell) [COLON])
  = (isAlign al AlignRight || isAlign al AlignCenter || endsWith (trim cell') [COLON]) ->
  createSeparatorCell cell w o al = createSeparatorCell cell' w o al.
Proof.
  intros Hl Hr. unfold createSeparatorCell. cbv zeta. rewrite Hl, Hr. reflexivity.
Qed.

(** Rebuilding a separator cell from its own rendering changes nothing. *)
Lemma createSeparatorCell_again {O} `{PaddingOptions O}
    (cell : str) (w : Z) (o : O) (al : option ColumnAlignment) :
  createSeparatorCell (trim (createSeparatorCell cell w o al)) w o al
  = createSeparatorCell cell w o al.
Proof.
  apply createSeparatorCell_flags; rewrite trim_idem;
    destruct (createSeparatorCell_shape cell w o al)
      as (lc & rc & n & E & Hn & _ & Hlc & Hrc);
    rewrite E, trim_padded by apply separatorCore_trimmed;
    destruct (separatorCore_colons lc rc n Hn) as [Hl Hr].
  - rewrite Hl, Hlc.
    destruct (isAlign al AlignLeft), (isAlign al AlignCenter); reflexivity.
  - rewrite Hr, Hrc.
    destruct (isAlign al AlignRight), (isAlign al AlignCenter); reflexivity.
Qed.

(** [compactTable] without separator ratios, on a table whose separator is
    its second row. *)
Lemma compactTable_plain (t : MarkdownTable) (co : CompactOptions)
    (hdr sepRow : list str) (data : list (list str)) :
  co_keepSeparatorRatios co = false ->
  rows t = hdr :: sepRow :: data ->
  separatorIndex t = 1 ->
  compactTable t co
  = Value (joinRow (map (padded (co_cellPadding co)) hdr)
           :: joinRow (compactSeparatorCells t co
                         (fun i => if alignSeparatorWithHeader co
                                   then orNum (nthZ (map len hdr) i) 3 else 3)
                         sepRow)
           :: map (fun row => joinRow (map (padded (co_cellPadding co)) row)) data).
Proof.
  intros Hk Hrows Hsep. unfold compactTable. rewrite Hrows, Hsep, Hk.
  change (nthZ (hdr :: sepRow :: data) 0) with (Some hdr).
  cbn [andb]. cbv iota. f_equal. apply mapi_three.
  - apply compactTableRow_plain.
  - change (1 =? 1) with true. cbv iota.
    unfold compactTableRow, compactSeparatorCells. reflexivity.
  - intros i x Hi.
    replace (i =? 1) with false by (symmetry; apply Z.eqb_neq; lia).
    apply compactTableRow_plain.
Qed.

Lemma Forall2_padded (b : bool) (row : list str) :
  Forall2 keepsText row (map (padded b) row).
Proof.
  induction row as [|c row IH]; constructor; [|exact IH].
  apply padded_keepsText, keepsText_refl.
Qed.

(** X9: compacting is idempotent through the locator.  With
    [keepSeparatorRatios] off, compacting a located table, locating again in
    the compacted lines and compacting the table found there gives the same
    lines once more. *)
Theorem X9_compactTable_is_idempotent :
  forall (lines : list str) (ignoreCodeBlocks ignoreCodeBlocks' : bool)
         (t : MarkdownTable) (co : CompactOptions),
    located lines ignoreCodeBlocks t ->
    co_keepSeparatorRatios co = false ->
    exists out t',
      compactTable t co = Value out
      /\ findTables out ignoreCodeBlocks' = Some [t']
      /\ compactTable t' co = Value out.
Proof.
  intros lines icb icb' t co Hloc Hk. apply located_shape in Hloc.
  destruct Hloc as (hline & sline & dlines & Hh & Hhs & Hs & Hss & Hrows & Hsep & Hal).
  set (hdr := parseTableRow hline) in *.
  set (sepRow := parseTableRow sline) in *.
  set (data := map parseTableRow dlines) in *.
  set (w := fun i => if alignSeparatorWithHeader co
                     then orNum (nthZ (map len hdr) i) 3 else 3).
  set (c1 := compactSeparatorCells t co w sepRow).
  destruct (compactSeparatorCells_spec t co w sepRow Hal) as (Hlen & Hall & Hal').
  fold c1 in Hlen, Hall, Hal'.
  set (t' := mkTable 0 (Z.of_nat (length (hdr :: c1 :: map (map (padded (co_cellPadding co))) data)) - 1)
               (hdr :: map trim c1 :: data) 1 (parseAlignments (map trim c1))).
  exists (joinRow (map (padded (co_cellPadding co)) hdr)
          :: joinRow c1
          :: map (fun row => joinRow (map (padded (co_cellPadding co)) row)) data), t'.
  split; [apply (compactTable_plain t co hdr sepRow data Hk Hrows Hsep)|]. split.
  - rewrite <- (map_map (map (padded (co_cellPadding co))) joinRow data).
    change (joinRow (map (padded (co_cellPadding co)) hdr)
            :: joinRow c1
            :: map joinRow (map (map (padded (co_cellPadding co))) data))
      with (map joinRow (map (padded (co_cellPadding co)) hdr
                         :: c1 :: map (map (padded (co_cellPadding co))) data)).
    rewrite (findTables_rendered icb' hdr data).
    + reflexivity.
    + apply parseTableRow_parsedRow.
    + unfold data. rewrite Forall_map. apply Forall_forall. intros l _.
      apply parseTableRow_parsedRow.
    + unfold hdr. rewrite forallb_isSeparatorCell_parsed by exact Hh. exact Hhs.
    + apply Forall2_padded.
    + clear. induction data as [|row data IH]; constructor;
        [apply Forall2_padded | exact IH].
    + destruct (parseTableRow_parsedRow sline) as [Hne _]. fold sepRow in Hne.
      intro Hnil. rewrite Hnil in Hlen.
      destruct sepRow; [contradiction | discriminate].
    + exact Hall.
  - rewrite (compactTable_plain t' co hdr (map trim c1) data Hk eq_refl eq_refl).
    do 3 f_equal. fold w. unfold compactSeparatorCells at 1. f_equal.
    change (alignments t') with (parseAlignments (map trim c1)). rewrite Hal'.
    apply nth_error_ext. intro n. rewrite nth_error_mapi, nth_error_map.
    unfold c1, compactSeparatorCells. rewrite nth_error_mapi.
    destruct (nth_error sepRow n) as [cell|]; [|reflexivity].
    cbn [option_map]. f_equal. apply createSeparatorCell_again.
Qed.

Lemma X9_compactTable_witness :
  exists out t',
    compactTable padded_table getDefaultCompactOptions = Value out
    /\ findTables out true = Some [t']
    /\ compactTable t' getDefaultCompactOptions = Value out.
Proof.
  apply (X9_compactTable_is_idempotent padded_doc true true padded_table
           getDefaultCompactOptions).
  - exists [padded_table]. split; [vm_compute; reflexivity | left; reflexivity].
  - reflexivity.
Defined.

(** ** Row and column edits that undo each other *)

Lemma spliceStart_inside {A} (l : list A) (i : Z) :
  0 <= i <= Z.of_nat (length l) -> spliceStart l i = Z.to_nat i.
Proof.
  intro H. unfold spliceStart.
  replace (i <? 0) with false by (symmetry; apply Z.ltb_ge; lia).
  f_equal. lia.
Qed.

Lemma spliceInsert_inside {A} (l : list A) (i : Z) (x : A) :
  0 <= i <= Z.of_nat (length l) ->
  spliceInsert l i x = firstn (Z.to_nat i) l ++ x :: skipn (Z.to_nat i) l.
Proof. intro H. unfold spliceInsert. rewrite spliceStart_inside by exact H. reflexivity. Qed.

Lemma remove_inserted {A} (l : list A) (k : nat) (x : A) :
  (k <= length l)%nat ->
  firstn k (firstn k l ++ x :: skipn k l) ++ skipn (S k) (firstn k l ++ x :: skipn k l)
  = l.
Proof.
  intro Hk.
  assert (Hf : length (firstn k l) = k) by (rewrite length_firstn; lia).
  rewrite firstn_app, Hf, Nat.sub_diag, firstn_O, app_nil_r.
  rewrite firstn_all2 by lia.
  rewrite skipn_app, Hf.
  rewrite (skipn_all2 (n := S k)) by lia.
  replace (S k - k)%nat with 1%nat by lia.
  cbn [skipn app]. apply firstn_skipn.
Qed.

Lemma spliceRemove_spliceInsert {A} (l : list A) (i : Z) (x : A) :
  0 <= i <= Z.of_nat (length l) ->
  spliceRemove (spliceInsert l i x) i = l.
Proof.
  intro H. unfold spliceRemove.
  rewrite spliceStart_inside by (rewrite spliceInsert_length; lia).
  rewrite spliceInsert_inside by exact H.
  apply remove_inserted. lia.
Qed.

Lemma insertRow_removeRow (t : MarkdownTable) (rowIndex : Z)
    (cells : option (list str)) :
  rows t <> [] ->
  0 < rowIndex <= Z.of_nat (length (rows t)) ->
  exists t',
    insertRow t rowIndex cells = Value t'
    /\ Z.of_nat (length (rows t')) = Z.of_nat (length (rows t)) + 1
    /\ removeRow t' rowIndex = Value (Some t).
Proof.
  revert rowIndex cells. intros i cells Hne Hi. unfold insertRow.
  destruct (rows t) as [|headerRow rest] eqn:E; [contradiction|].
  eexists. split; [reflexivity|]. split.
  - cbn [rows]. rewrite spliceInsert_length. lia.
  - unfold removeRow. cbn [rows separatorIndex startLine endLine alignments].
    replace (i =? 0) with false by (symmetry; apply Z.eqb_neq; lia).
    cbn [orb].
    rewrite spliceRemove_spliceInsert by lia.
    destruct (i <=? separatorIndex t) eqn:Hs.
    + apply Z.leb_le in Hs.
      replace (i =? separatorIndex t + 1) with false
        by (symmetry; apply Z.eqb_neq; lia).
      replace (i <? separatorIndex t + 1) with true
        by (symmetry; apply Z.ltb_lt; lia).
      destruct t as [s e r si al]. cbn in *. subst r.
      do 3 f_equal; lia.
    + apply Z.leb_gt in Hs.
      replace (i =? separatorIndex t) with false
        by (symmetry; apply Z.eqb_neq; lia).
      replace (i <? separatorIndex t) with false
        by (symmetry; apply Z.ltb_ge; lia).
      destruct t as [s e r si al]. cbn in *. subst r.
      do 3 f_equal; lia.
Qed.

(** X10: a row inserted at an index from 1 to the number of rows is
    removed again by [removeRow] at the same index, which gives back the
    table as it was: rows, separator index, line range and alignments. *)
Theorem X10_insertRow_then_removeRow :
  forall (t : MarkdownTable) (rowIndex : Z) (cells : option (list str)),
    rows t <> [] ->
    0 < rowIndex <= Z.of_nat (length (rows t)) ->
    exists t',
      insertRow t rowIndex cells = Value t'
      /\ Z.of_nat (length (rows t')) = Z.of_nat (length (rows t)) + 1
      /\ removeRow t' rowIndex = Value (Some t).
Proof. intros t i cells. apply insertRow_removeRow. Qed.

Lemma X10_insertRow_witness :
  exists t',
    insertRow people 2 None = Value t'
    /\ Z.of_nat (length (rows t')) = Z.of_nat (length (rows people)) + 1
    /\ removeRow t' 2 = Value (Some people).
Proof.
  apply (X10_insertRow_then_removeRow people 2 None).
  - discriminate.
  - vm_compute. split; [reflexivity | discriminate].
Defined.

Lemma nthZ_lt {A} (l : list A) (i : Z) (x : A) :
  nthZ l i = Some x -> 0 <= i < Z.of_nat (length l).
Proof.
  intro H. apply nthZ_Some in H. destruct H as (n & -> & H).
  assert (G : nth_error l n <> None) by congruence.
  apply nth_error_Some in G. lia.
Qed.

Lemma nthZ_mapi {A B} (f : Z -> A -> B) (l : list A) (i : Z) :
  nthZ (mapi f l) i = option_map (f i) (nthZ l i).
Proof.
  unfold nthZ. destruct (i <? 0) eqn:E; [reflexivity|].
  apply Z.ltb_ge in E. rewrite nth_error_mapi.
  rewrite Z2Nat.id by exact E. reflexivity.
Qed.

(** Swapping two elements again puts them back. *)
Lemma swapAt_back {A} (l l' : list A) (i j : Z) :
  swapAt l i j = Some l' -> swapAt l' j i = Some l /\ length l' = length l.
Proof.
  unfold swapAt. destruct (nthZ l i) as [x|] eqn:Ei; [|discriminate].
  destruct (nthZ l j) as [y|] eqn:Ej; [|discriminate].
  intro H. injection H as <-. split; [|unfold mapi; apply length_mapi_from].
  rewrite !nthZ_mapi, Ei, Ej. cbn [option_map]. rewrite !Z.eqb_refl.
  f_equal. apply nth_error_ext. intro n.
  rewrite !nth_error_mapi.
  destruct (nth_error l n) as [z|] eqn:En; [|reflexivity].
  cbn [option_map]. f_equal.
  assert (Hi : Z.of_nat n = i -> z = x).
  { intros <-. rewrite nthZ_nat in Ei. congruence. }
  assert (Hj : Z.of_nat n = j -> z = y).
  { intros <-. rewrite nthZ_nat in Ej. congruence. }
  destruct (Z.of_nat n =? j) eqn:Enj.
  - apply Z.eqb_eq in Enj. destruct (j =? i); symmetry; auto.
  - destruct (Z.of_nat n =? i) eqn:Eni; [|reflexivity].
    apply Z.eqb_eq in Eni. rewrite Z.eqb_sym.
    replace (i =? j) with false
      by (symmetry; apply Z.eqb_neq; apply Z.eqb_neq in Enj; lia).
    symmetry. auto.
Qed.

Lemma mapM_swapAt_back {A} (rs rs' : list (list A)) (i j : Z) :
  mapM (fun row => swapAt row i j) rs = Some rs' ->
  mapM (fun row => swapAt row j i) rs' = Some rs.
Proof.
  revert rs'. induction rs as [|r rs IH]; intros rs' H.
  - injection H as <-. reflexivity.
  - cbn [mapM] in H. destruct (swapAt r i j) as [r'|] eqn:E; [|discriminate].
    destruct (mapM (fun row => swapAt row i j) rs) as [rs0|]; [|discriminate].
    injection H as <-. cbn [mapM].
    destruct (swapAt_back r r' i j E) as [-> _].
    rewrite (IH rs0 eq_refl). reflexivity.
Qed.

(** X11: a row move that [moveRow] performs is undone by the opposite move
    from the row's new index: moving down and then up (or up and then down)
    gives back the table as it was. *)
Theorem X11_moveRow_back :
  forall (t t' : MarkdownTable) (rowIndex : Z) (direction : RowDirection),
    moveRow t rowIndex direction = Value (Some t') ->
    moveRow t' (match direction with
                | MoveUp => rowIndex - 1
                | MoveDown => rowIndex + 1
                end)
               (match direction with MoveUp => MoveDown | MoveDown => MoveUp end)
    = Value (Some t).
Proof.
  intros t t' i d H. unfold moveRow in H.
  destruct ((i =? 0) || (i =? separatorIndex t)) eqn:E1; [discriminate|].
  set (target := match d with MoveUp => i - 1 | MoveDown => i + 1 end) in *.
  destruct ((target =? 0) || (target =? separatorIndex t)
            || (target <? 0) || (Z.of_nat (length (rows t)) <=? target)) eqn:E2;
    [discriminate|].
  destruct (swapAt (rows t) i target) as [newRows|] eqn:Es; [|discriminate].
  injection H as <-.
  destruct (swapAt_back _ _ _ _ Es) as [Hb Hl].
  apply orb_false_iff in E2. destruct E2 as [E2 E2d].
  apply orb_false_iff in E2. destruct E2 as [E2 E2c].
  assert (Hback : match match d with MoveUp => MoveDown | MoveDown => MoveUp end with
                  | MoveUp => target - 1
                  | MoveDown => target + 1
                  end = i)
    by (unfold target; destruct d; lia).
  unfold moveRow. cbn [rows separatorIndex startLine endLine alignments].
  rewrite E2. cbn [orb]. rewrite Hback, E1. cbn [orb].
  assert (Hi : 0 <= i < Z.of_nat (length (rows t))).
  { unfold swapAt in Es. destruct (nthZ (rows t) i) eqn:En; [|discriminate].
    eapply nthZ_lt. exact En. }
  replace (i <? 0) with false by (symmetry; apply Z.ltb_ge; lia).
  rewrite Hl.
  replace (Z.of_nat (length (rows t)) <=? i) with false
    by (symmetry; apply Z.leb_gt; lia).
  rewrite Hb. destruct t; reflexivity.
Qed.

Lemma X11_moveRow_witness :
  moveRow (mkTable 0 3
             [ [lit "Name"; lit "Age"]; [lit "---"; lit "---"];
               [lit "Bob"; lit "25"]; [lit "Alice"; lit "30"] ]
             1 [AlignNone; AlignNone]) 3 MoveUp
  = Value (Some people).
Proof.
  apply (X11_moveRow_back people _ 2 MoveDown). vm_compute. reflexivity.
Defined.

(** X12: a column move that [moveColumn] performs inside the header row is
    undone by the opposite move from the column's new index: the cells of
    every row and the alignments are back where they were. *)
Theorem X12_moveColumn_back :
  forall (t t' : MarkdownTable) (headerRow : list str) (rest : list (list str))
         (columnIndex : Z) (direction : ColumnDirection),
    rows t = headerRow :: rest ->
    0 <= (match direction with
          | MoveLeft => columnIndex - 1
          | MoveRight => columnIndex + 1
          end) < Z.of_nat (length headerRow) ->
    moveColumn t columnIndex direction = Value t' ->
    moveColumn t' (match direction with
                   | MoveLeft => columnIndex - 1
                   | MoveRight => columnIndex + 1
                   end)
                  (match direction with
                   | MoveLeft => MoveRight
                   | MoveRight => MoveLeft
                   end)
    = Value t.
Proof.
  intros t t' hdr rest i d Hrows Ht H. unfold moveColumn in H.
  set (target := match d with MoveLeft => i - 1 | MoveRight => i + 1 end) in *.
  rewrite Hrows in H.
  replace (target <? 0) with false in H by (symmetry; apply Z.ltb_ge; lia).
  replace (Z.of_nat (length hdr) <=? target) with false in H
    by (symmetry; apply Z.leb_gt; lia).
  cbn [mapM] in H.
  destruct (swapAt hdr i target) as [hdr'|] eqn:Eh; [|discriminate].
  destruct (mapM (fun row => swapAt row i target) rest) as [rest'|] eqn:Er;
    [|discriminate].
  destruct (swapAt (alignments t) i target) as [al'|] eqn:Ea; [|discriminate].
  injection H as <-.
  destruct (swapAt_back _ _ _ _ Eh) as [Hhb Hhl].
  destruct (swapAt_back _ _ _ _ Ea) as [Hab _].
  assert (Hback : match match d with MoveLeft => MoveRight | MoveRight => MoveLeft end with
                  | MoveLeft => target - 1
                  | MoveRight => target + 1
                  end = i)
    by (unfold target; destruct d; lia).
  assert (Hi : 0 <= i < Z.of_nat (length hdr)).
  { unfold swapAt in Eh. destruct (nthZ hdr i) eqn:En; [|discriminate].
    eapply nthZ_lt. exact En. }
  unfold moveColumn. cbn [rows separatorIndex startLine endLine alignments].
  rewrite Hback, Hhl.
  replace (i <? 0) with false by (symmetry; apply Z.ltb_ge; lia).
  replace (Z.of_nat (length hdr) <=? i) with false
    by (symmetry; apply Z.leb_gt; lia).
  cbn [mapM]. rewrite Hhb, (mapM_swapAt_back _ _ _ _ Er), Hab.
  rewrite <- Hrows. destruct t; reflexivity.
Qed.

Lemma X12_moveColumn_witness :
  moveColumn (mkTable 0 3
                [ [lit "Age"; lit "Name"]; [lit "---"; lit "---"];
                  [lit "30"; lit "Alice"]; [lit "25"; lit "Bob"] ]
                1 [AlignNone; AlignNone]) 1 MoveLeft
  = Value people.
Proof.
  apply (X12_moveColumn_back people _ [lit "Name"; lit "Age"]
           [ [lit "---"; lit "---"]; [lit "Alice"; lit "30"]; [lit "Bob"; lit "25"] ]
           0 MoveRight).
  - reflexivity.
  - vm_compute. split; [discriminate | reflexivity].
  - vm_compute. reflexivity.
Defined.

Lemma nthZ_spliceInsert_before {A} (l : list A) (i k : Z) (x : A) :
  0 <= k < i -> i <= Z.of_nat (length l) ->
  nthZ (spliceInsert l i x) k = nthZ l k.
Proof.
  intros Hk Hi. rewrite spliceInsert_inside by lia.
  unfold nthZ. replace (k <? 0) with false by (symmetry; apply Z.ltb_ge; lia).
  rewrite nth_error_app1 by (rewrite length_firstn; lia).
  rewrite nth_error_firstn.
  replace (Z.to_nat k <? Z.to_nat i)%nat with true
    by (symmetry; apply Nat.ltb_lt; lia).
  reflexivity.
Qed.

Lemma nthZ_spliceInsert_at {A} (l : list A) (i : Z) (x : A) :
  0 <= i <= Z.of_nat (length l) ->
  nthZ (spliceInsert l i x) i = Some x.
Proof.
  intro Hi. rewrite spliceInsert_inside by lia.
  unfold nthZ. replace (i <? 0) with false by (symmetry; apply Z.ltb_ge; lia).
  rewrite nth_error_app2 by (rewrite length_firstn; lia).
  rewrite length_firstn.
  replace (Z.to_nat i - Nat.min (Z.to_nat i) (length l))%nat with 0%nat by lia.
  reflexivity.
Qed.

(** X13: duplicating a data row keeps the row where it is and puts its
    copy right after it, filled up with empty cells to the width of the
    header when the row is shorter; removing the copy at the next index
    gives back the table. *)
Theorem X13_duplicateRow_inserts_a_copy_below :
  forall (t : MarkdownTable) (headerRow : list str) (rest : list (list str))
         (rowIndex : Z) (row : list str),
    rows t = headerRow :: rest ->
    rowIndex <> 0 -> rowIndex <> separatorIndex t ->
    nthZ (rows t) rowIndex = Some row ->
    exists t',
      duplicateRow t rowIndex = Value (Some t')
      /\ nthZ (rows t') rowIndex = Some row
      /\ nthZ (rows t') (rowIndex + 1)
         = Some (row ++ repeat [] (length headerRow - length row))
      /\ removeRow t' (rowIndex + 1) = Value (Some t).
Proof.
  intros t hdr rest i row Hrows H0 Hs Hrow.
  pose proof (nthZ_lt _ _ _ Hrow) as Hi.
  destruct (insertRow_removeRow t (i + 1) (Some row)) as (t' & Hins & _ & Hrem).
  - rewrite Hrows. discriminate.
  - lia.
  - exists t'. unfold duplicateRow.
    replace (i =? 0) with false by (symmetry; apply Z.eqb_neq; exact H0).
    replace (i =? separatorIndex t) with false by (symmetry; apply Z.eqb_neq; exact Hs).
    cbn [orb]. rewrite Hrow, Hins. split; [reflexivity|].
    split; [|split; [|exact Hrem]];
      unfold insertRow in Hins; rewrite Hrows in Hins; injection Hins as <-;
      cbn [rows]; rewrite <- Hrows.
    + rewrite nthZ_spliceInsert_before by lia. exact Hrow.
    + apply nthZ_spliceInsert_at. lia.
Qed.

Lemma X13_duplicateRow_witness :
  exists t',
    duplicateRow people 2 = Value (Some t')
    /\ nthZ (rows t') 2 = Some [lit "Alice"; lit "30"]
    /\ nthZ (rows t') (2 + 1)
       = Some ([lit "Alice"; lit "30"]
               ++ repeat [] (length [lit "Name"; lit "Age"]
                             - length [lit "Alice"; lit "30"]))
    /\ removeRow t' (2 + 1) = Value (Some people).
Proof.
  apply (X13_duplicateRow_inserts_a_copy_below people [lit "Name"; lit "Age"]
           [ [lit "---"; lit "---"]; [lit "Alice"; lit "30"]; [lit "Bob"; lit "25"] ]
           2 [lit "Alice"; lit "30"]).
  - reflexivity.
  - discriminate.
  - vm_compute. discriminate.
  - reflexivity.
Defined.

(** ** Columns *)

Lemma map_mapi_from_id {A B} (g : B -> A) (f : Z -> A -> B) (l : list A) :
  forall k, Forall (fun x => forall i, g (f i x) = x) l ->
            map g (mapi_from f k l) = l.
Proof.
  induction l as [|x l IH]; intros k H; [reflexivity|].
  cbn [mapi_from map]. rewrite (Forall_inv H), IH by exact (Forall_inv_tail H).
  reflexivity.
Qed.

(** X14: a column inserted at an index that lies inside every row (and
    inside the alignments) is removed again by [removeColumn] at the same
    index, which gives back the table as it was. *)
Theorem X14_insertColumn_then_removeColumn :
  forall (t : MarkdownTable) (columnIndex : Z) (headerText defaultValue : str)
         (alignment : ColumnAlignment),
    0 <= columnIndex ->
    Forall (fun row => columnIndex <= Z.of_nat (length row)) (rows t) ->
    columnIndex <= Z.of_nat (length (alignments t)) ->
    removeColumn (insertColumn t columnIndex headerText defaultValue alignment)
                 columnIndex
    = t.
Proof.
  intros t i h d a Hi Hrows Hal. unfold removeColumn, insertColumn.
  cbn [rows separatorIndex startLine endLine alignments].
  rewrite spliceRemove_spliceInsert by lia.
  unfold mapi. rewrite map_mapi_from_id.
  - destruct t; reflexivity.
  - eapply Forall_impl; [|exact Hrows]. cbv beta. intros row Hrow k.
    destruct (k =? 0); [|destruct (k =? separatorIndex t)];
      apply spliceRemove_spliceInsert; lia.
Qed.

Lemma X14_insertColumn_witness :
  removeColumn (insertColumn people 1 (lit "City") [] AlignLeft) 1 = people.
Proof.
  apply (X14_insertColumn_then_removeColumn people 1 (lit "City") [] AlignLeft).
  - discriminate.
  - repeat constructor; discriminate.
  - discriminate.
Defined.

Lemma spliceInsert_map {A B} (f : A -> B) (l : list A) (i : Z) (x : A) :
  map f (spliceInsert l i x) = spliceInsert (map f l) i (f x).
Proof.
  unfold spliceInsert, spliceStart. rewrite length_map.
  rewrite map_app. cbn [map]. rewrite firstn_map, skipn_map. reflexivity.
Qed.

(** X15: inserting a column with an alignment other than [none] keeps the
    alignments in step with the separator row: if they were the alignments
    read from the separator row before, they are so afterwards, at whatever
    index the column goes in. *)
Theorem X15_insertColumn_keeps_alignments_in_step :
  forall (t : MarkdownTable) (sepRow : list str) (columnIndex : Z)
         (headerText defaultValue : str) (alignment : ColumnAlignment),
    nthZ (rows t) (separatorIndex t) = Some sepRow ->
    separatorIndex t <> 0 ->
    alignments t = parseAlignments sepRow ->
    alignment <> AlignNone ->
    exists sepRow',
      nthZ (rows (insertColumn t columnIndex headerText defaultValue alignment))
           (separatorIndex (insertColumn t columnIndex headerText defaultValue alignment))
      = Some sepRow'
      /\ length sepRow' = S (length sepRow)
      /\ alignments (insertColumn t columnIndex headerText defaultValue alignment)
         = parseAlignments sepRow'.
Proof.
  intros t sepRow i h d a Hsep H0 Hal Ha.
  exists (spliceInsert sepRow i (alignmentMarker3 a)).
  unfold insertColumn. cbn [rows separatorIndex alignments].
  rewrite nthZ_mapi, Hsep. cbn [option_map].
  replace (separatorIndex t =? 0) with false by (symmetry; apply Z.eqb_neq; exact H0).
  rewrite Z.eqb_refl. split; [reflexivity|]. split.
  - apply spliceInsert_length.
  - rewrite Hal. unfold parseAlignments. rewrite spliceInsert_map. f_equal.
    destruct a; try reflexivity. contradiction.
Qed.

Lemma X15_insertColumn_witness :
  exists sepRow',
    nthZ (rows (insertColumn people 1 (lit "City") [] AlignRight))
         (separatorIndex (insertColumn people 1 (lit "City") [] AlignRight))
    = Some sepRow'
    /\ length sepRow' = S (length [lit "---"; lit "---"])
    /\ alignments (insertColumn people 1 (lit "City") [] AlignRight)
       = parseAlignments sepRow'.
Proof.
  apply (X15_insertColumn_keeps_alignments_in_step people [lit "---"; lit "---"]
           1 (lit "City") [] AlignRight).
  - reflexivity.
  - vm_compute. discriminate.
  - reflexivity.
  - discriminate.
Defined.

Lemma mapJ_value {A B} (f : Z -> A -> js B) (g : Z -> A -> B) (l : list A) :
  forall k,
    (forall n x, nth_error l n = Some x ->
                 f (k + Z.of_nat n) x = Value (g (k + Z.of_nat n) x)) ->
    mapJ f k l = Value (mapi_from g k l).
Proof.
  induction l as [|x l IH]; intros k H; [reflexivity|].
  cbn [mapJ mapi_from].
  pose proof (H 0%nat x eq_refl) as H0. rewrite Z.add_0_r in H0. rewrite H0.
  rewrite IH; [reflexivity|].
  intros n y Hn. replace (k + 1 + Z.of_nat n) with (k + Z.of_nat (S n)) by lia.
  apply H. exact Hn.
Qed.

(** [a[i] = x] on a copy, element by element. *)
Lemma nthZ_replaced {A} (l : list A) (i : Z) (x : A) :
  0 <= i <= Z.of_nat (length l) ->
  forall c,
    nthZ (firstn (Z.to_nat i) l ++ x :: skipn (S (Z.to_nat i)) l) c
    = if c =? i then Some x else nthZ l c.
Proof.
  intros Hi c. unfold nthZ. destruct (c <? 0) eqn:Ec.
  - apply Z.ltb_lt in Ec.
    replace (c =? i) with false by (symmetry; apply Z.eqb_neq; lia). reflexivity.
  - apply Z.ltb_ge in Ec.
    assert (Hf : length (firstn (Z.to_nat i) l) = Z.to_nat i)
      by (rewrite length_firstn; lia).
    destruct (c =? i) eqn:E.
    + apply Z.eqb_eq in E. subst c.
      rewrite nth_error_app2 by lia. rewrite Hf, Nat.sub_diag. reflexivity.
    + apply Z.eqb_neq in E. destruct (Z_lt_le_dec c i) as [Hlt | Hge].
      * rewrite nth_error_app1 by lia. rewrite nth_error_firstn.
        replace (Z.to_nat c <? Z.to_nat i)%nat with true
          by (symmetry; apply Nat.ltb_lt; lia).
        reflexivity.
      * rewrite nth_error_app2 by lia. rewrite Hf.
        replace (Z.to_nat c - Z.to_nat i)%nat
          with (S (Z.to_nat c - Z.to_nat i - 1)) by lia.
        cbn [nth_error]. rewrite nth_error_skipn. f_equal. lia.
Qed.

(** X16: setting the alignment of a column that the separator row has (or
    the one right after its last) changes that separator cell and that
    alignment and nothing else.  The result has the line range and separator
    index of the input; every row but the separator row is the row it was;
    the separator row has the marker of the alignment at the column and its
    old cells everywhere else; the alignments have the alignment asked for
    at the column and their old entries everywhere else.  The marker reads
    back as the alignment, and the alignments stay those read from the
    separator row if they were so before. *)
Theorem X16_setColumnAlignment_keeps_alignments_in_step :
  forall (t : MarkdownTable) (sepRow : list str) (columnIndex : Z)
         (alignment : ColumnAlignment),
    nthZ (rows t) (separatorIndex t) = Some sepRow ->
    alignments t = parseAlignments sepRow ->
    0 <= columnIndex <= Z.of_nat (length sepRow) ->
    exists rows' sepRow' alignments',
      setColumnAlignment t columnIndex alignment
      = Value (mkTable (startLine t) (endLine t) rows' (separatorIndex t) alignments')
      /\ (forall r, nthZ rows' r
                    = if r =? separatorIndex t then Some sepRow' else nthZ (rows t) r)
      /\ (forall c, nthZ sepRow' c
                    = if c =? columnIndex then Some (alignmentMarker4 alignment)
                      else nthZ sepRow c)
      /\ (forall c, nthZ alignments' c
                    = if c =? columnIndex then Some alignment
                      else nthZ (alignments t) c)
      /\ getAlignmentFromSeparator (alignmentMarker4 alignment) = alignment
      /\ alignments' = parseAlignments sepRow'.
Proof.
  intros t sepRow i a Hsep Hal Hi.
  set (k := Z.to_nat i).
  set (sepRow' := firstn k sepRow ++ alignmentMarker4 a :: skipn (S k) sepRow).
  set (g := fun (rowIndex : Z) (row : list str) =>
              if rowIndex =? separatorIndex t then sepRow' else row).
  assert (Hlen : length (alignments t) = length sepRow)
    by (rewrite Hal; apply length_map).
  assert (Hrows : mapJ (fun rowIndex row =>
                          if negb (rowIndex =? separatorIndex t) then Value row
                          else setAt row i (alignmentMarker4 a)) 0 (rows t)
                  = Value (mapi g (rows t))).
  { apply mapJ_value. intros n row Hn. cbn [Z.add]. unfold g.
    destruct (Z.of_nat n =? separatorIndex t) eqn:E; [|reflexivity].
    cbn [negb]. apply Z.eqb_eq in E. rewrite <- E, nthZ_nat, Hn in Hsep.
    injection Hsep as ->. unfold setAt.
    replace (i <? 0) with false by (symmetry; apply Z.ltb_ge; lia).
    replace (Z.of_nat (length sepRow) <? i) with false
      by (symmetry; apply Z.ltb_ge; lia).
    reflexivity. }
  assert (Hm : getAlignmentFromSeparator (alignmentMarker4 a) = a)
    by (destruct a; reflexivity).
  exists (mapi g (rows t)), sepRow',
    (firstn k (alignments t) ++ a :: skipn (S k) (alignments t)).
  split; [|split; [|split; [|split; [|split]]]].
  - unfold setColumnAlignment. rewrite Hrows. unfold setAt.
    replace (i <? 0) with false by (symmetry; apply Z.ltb_ge; lia).
    replace (Z.of_nat (length (alignments t)) <? i) with false
      by (symmetry; apply Z.ltb_ge; lia).
    reflexivity.
  - intro r. rewrite nthZ_mapi. unfold g.
    destruct (r =? separatorIndex t) eqn:E.
    + apply Z.eqb_eq in E. subst r. rewrite Hsep. reflexivity.
    + destruct (nthZ (rows t) r); reflexivity.
  - intro c. apply nthZ_replaced. exact Hi.
  - intro c. apply nthZ_replaced. lia.
  - exact Hm.
  - rewrite Hal. unfold sepRow', parseAlignments.
    rewrite map_app. cbn [map]. rewrite firstn_map, skipn_map, Hm. reflexivity.
Qed.

Lemma X16_setColumnAlignment_witness :
  exists rows' sepRow' alignments',
    setColumnAlignment people 1 AlignCenter
    = Value (mkTable (startLine people) (endLine people) rows'
               (separatorIndex people) alignments')
    /\ (forall r, nthZ rows' r
                  = if r =? separatorIndex people then Some sepRow'
                    else nthZ (rows people) r)
    /\ (forall c, nthZ sepRow' c
                  = if c =? 1 then Some (alignmentMarker4 AlignCenter)
                    else nthZ [lit "---"; lit "---"] c)
    /\ (forall c, nthZ alignments' c
                  = if c =? 1 then Some AlignCenter else nthZ (alignments people) c)
    /\ getAlignmentFromSeparator (alignmentMarker4 AlignCenter) = AlignCenter
    /\ alignments' = parseAlignments sepRow'.
Proof.
  apply (X16_setColumnAlignment_keeps_alignments_in_step people
           [lit "---"; lit "---"] 1 AlignCenter).
  - reflexivity.
  - reflexivity.
  - vm_compute. split; discriminate.
Defined.

(** ** Row numbers *)

Lemma string_of_uint_digits (d : Decimal.uint) :
  forallb isDigit (list_ascii_of_string (NilEmpty.string_of_uint d)) = true.
Proof. induction d; simpl; auto. Qed.

Lemma String_of_number_digits (n : Z) :
  0 <= n ->
  exists c s, String_of_number n = c :: s /\ forallb isDigit (c :: s) = true.
Proof.
  intro Hn. unfold String_of_number.
  destruct n as [|p|p]; [exists (chr 48), []; split; reflexivity | | lia].
  cbn [Z.to_int NilZero.string_of_int].
  pose proof (DecimalPos.Unsigned.to_uint_nonnil p) as Hnil.
  pose proof (string_of_uint_digits (Pos.to_uint p)) as Hd.
  unfold NilZero.string_of_uint.
  destruct (Pos.to_uint p) eqn:E; try contradiction;
    match goal with
    | |- exists c s, list_ascii_of_string (NilEmpty.string_of_uint ?d) = _ /\ _ =>
        simpl in Hd |- *; eexists; eexists; split; [reflexivity | exact Hd]
    end.
Qed.

Lemma isDigit_black (c : ascii) : isDigit c = true -> isWhite c = false.
Proof.
  destruct c as [[] [] [] [] [] [] [] []]; intro H; try reflexivity;
    vm_compute in H; discriminate H.
Qed.

(** A number from 0 on is written in digits, which the digit test accepts
    after trimming. *)
Lemma isDigits_String_of_number (n : Z) :
  0 <= n -> isDigits (Some (trim (String_of_number n))) = true.
Proof.
  intro Hn. destruct (String_of_number_digits n Hn) as (c & s & E & Hd).
  rewrite E, trimmed_trim; [exact Hd|].
  apply black_trimmed. apply Forall_forall. intros x Hx.
  apply isDigit_black. rewrite forallb_forall in Hd. apply Hd. exact Hx.
Qed.

Lemma addRowNumbers_loop_digits (b : bool) (o : RowNumberOptions) (sepIdx : Z)
    (rws : list (list str)) :
  forall i n, 0 < i -> sepIdx < i -> 0 <= n ->
    dataCellsAreDigits (addRowNumbers_loop b o sepIdx i n rws) = true.
Proof.
  induction rws as [|row rws IH]; intros i n Hi Hs Hn; [reflexivity|].
  cbn [addRowNumbers_loop].
  replace (i =? 0) with false by (symmetry; apply Z.eqb_neq; lia).
  replace (i =? sepIdx) with false by (symmetry; apply Z.eqb_neq; lia).
  cbn [dataCellsAreDigits].
  assert (F : firstCell (if b then setFirst (String_of_number n) row
                         else String_of_number n :: row)
              = Some (String_of_number n))
    by (destruct b; [destruct row|]; reflexivity).
  rewrite F. cbn [option_map]. rewrite isDigits_String_of_number by exact Hn.
  cbn [negb]. apply IH; lia.
Qed.

Lemma addRowNumbers_loop_skip (o : RowNumberOptions) (sepIdx : Z)
    (rws : list (list str)) :
  forall i n, map (skipn 1) (addRowNumbers_loop false o sepIdx i n rws) = rws.
Proof.
  induction rws as [|row rws IH]; intros i n; [reflexivity|].
  cbn [addRowNumbers_loop].
  destruct (i =? 0); [|destruct (i =? sepIdx)]; cbn [map skipn]; rewrite IH;
    reflexivity.
Qed.

Lemma setFirst_put (b : bool) (x : str) (row : list str) :
  setFirst x (if b then setFirst x row else x :: row)
  = (if b then setFirst x row else x :: row).
Proof. destruct b; [destruct row|]; reflexivity. Qed.

Lemma addRowNumbers_loop_again (b : bool) (o : RowNumberOptions) (sepIdx : Z)
    (rws : list (list str)) :
  forall i n,
    addRowNumbers_loop true o sepIdx i n (addRowNumbers_loop b o sepIdx i n rws)
    = addRowNumbers_loop b o sepIdx i n rws.
Proof.
  induction rws as [|row rws IH]; intros i n; [reflexivity|].
  cbn [addRowNumbers_loop].
  destruct (i =? 0) eqn:E0; [|destruct (i =? sepIdx) eqn:Es];
    cbn [addRowNumbers_loop]; rewrite E0, ?Es, IH, setFirst_put; reflexivity.
Qed.

(** After numbering, the rows from index 2 on start with digits. *)
Lemma addRowNumbers_loop_numbered (b : bool) (o : RowNumberOptions) (sepIdx : Z)
    (rws : list (list str)) :
  sepIdx <= 1 -> 0 <= startNumber o ->
  dataCellsAreDigits
    (skipn 2 (addRowNumbers_loop b o sepIdx 0 (startNumber o) rws)) = true.
Proof.
  intros Hs Hn. destruct rws as [|r0 [|r1 rws]]; try reflexivity.
  cbn [addRowNumbers_loop]. change (0 =? 0) with true. cbv iota.
  change (0 + 1) with 1. cbn [addRowNumbers_loop].
  change (1 =? 0) with false. cbv iota.
  destruct (1 =? sepIdx); cbn [skipn]; apply addRowNumbers_loop_digits; lia.
Qed.

Lemma addRowNumbers_loop_header (b : bool) (o : RowNumberOptions) (sepIdx : Z)
    (r0 : list str) (rws : list (list str)) (n : Z) :
  exists rest rws',
    addRowNumbers_loop b o sepIdx 0 n (r0 :: rws) = (rn_headerText o :: rest) :: rws'.
Proof.
  cbn [addRowNumbers_loop]. change (0 =? 0) with true. cbv iota.
  destruct b; [destruct r0|]; eexists; eexists; reflexivity.
Qed.

(** X17: numbering a table that has no row numbers and removing the row
    numbers again gives back the table.  It needs a header text that
    [removeRowNumbers] recognises (its own list, not the configured text),
    the separator in the first two rows, and numbers that are written in
    plain digits: a start number from 0 on, with the count staying within
    [2^53]. *)
Theorem X17_addRowNumbers_then_removeRowNumbers :
  forall (t : MarkdownTable) (o : RowNumberOptions),
    hasRowNumbers t (rn_headerText o) = Value false ->
    separatorIndex t <= 1 ->
    safeNumbering (startNumber o) (length (rows t)) ->
    In (trim (toLowerCase (rn_headerText o)))
       [lit "#"; lit "no"; lit "no."; lit "nr"; lit "nr."; lit "num"; lit "row"] ->
    exists t',
      addRowNumbers t o = Value t'
      /\ removeRowNumbers t' = Value (Some t).
Proof.
  intros t o Hhas Hs [Hn _] Hin. unfold addRowNumbers. rewrite Hhas.
  eexists. split; [reflexivity|].
  unfold removeRowNumbers, hasRowNumbers.
  cbn [rows separatorIndex startLine endLine alignments].
  destruct (rows t) as [|r0 rws] eqn:E.
  { unfold hasRowNumbers in Hhas. rewrite E in Hhas. discriminate Hhas. }
  destruct (addRowNumbers_loop_header false o (separatorIndex t) r0 rws (startNumber o))
    as (rest & rws' & Eh).
  pose proof (addRowNumbers_loop_numbered false o (separatorIndex t) (r0 :: rws) Hs Hn)
    as Hd.
  pose proof (addRowNumbers_loop_skip o (separatorIndex t) (r0 :: rws) 0 (startNumber o))
    as Hk.
  rewrite Eh in Hd, Hk |- *.
  change (firstCell (rn_headerText o :: rest)) with (Some (rn_headerText o)).
  cbn [option_map].
  assert (Hk' : existsb (str_eqb (trim (toLowerCase (rn_headerText o))))
                  (knownHeaders (lit "#")) = true).
  { apply existsb_str_eqb. unfold knownHeaders.
    repeat (destruct Hin as [Hin|Hin]; [rewrite <- Hin; simpl; tauto|]).
    destruct Hin. }
  rewrite Hk'. cbn [negb]. rewrite Hd, Hk.
  cbn [skipn]. rewrite <- E. destruct t; reflexivity.
Qed.

Lemma X17_addRowNumbers_witness :
  exists t',
    addRowNumbers people getDefaultRowNumberOptions = Value t'
    /\ removeRowNumbers t' = Value (Some people).
Proof.
  apply (X17_addRowNumbers_then_removeRowNumbers people getDefaultRowNumberOptions).
  - reflexivity.
  - vm_compute. discriminate.
  - split; vm_compute; discriminate.
  - left. reflexivity.
Defined.

(** X18: numbering is stable.  With a header text without surrounding
    white space, the separator in the first two rows and numbers that are
    written in plain digits (a start number from 0 on, with the count
    staying within [2^53]), numbering the table that [addRowNumbers]
    returned changes nothing: the numbers are recognised and rewritten in
    place, and no second column is added. *)
Theorem X18_addRowNumbers_is_idempotent :
  forall (t : MarkdownTable) (o : RowNumberOptions),
    rows t <> [] ->
    trim (rn_headerText o) = rn_headerText o ->
    separatorIndex t <= 1 ->
    safeNumbering (startNumber o) (length (rows t)) ->
    exists t',
      addRowNumbers t o = Value t'
      /\ hasRowNumbers t' (rn_headerText o) = Value true
      /\ addRowNumbers t' o = Value t'.
Proof.
  intros t o Hne Ht Hs [Hn _].
  destruct (rows t) as [|r0 rws] eqn:E; [contradiction|].
  assert (Hv : exists b, hasRowNumbers t (rn_headerText o) = Value b).
  { unfold hasRowNumbers. rewrite E.
    destruct (option_map _ (firstCell r0)); [|eexists; reflexivity].
    destruct (negb _); eexists; reflexivity. }
  destruct Hv as (b & Hb). unfold addRowNumbers at 1. rewrite Hb, E.
  eexists. split; [reflexivity|].
  assert (Hhas : hasRowNumbers
                   (mkTable (startLine t) (endLine t)
                      (addRowNumbers_loop b o (separatorIndex t) 0 (startNumber o)
                         (r0 :: rws))
                      (separatorIndex t)
                      (if b then rn_alignment o :: skipn 1 (alignments t)
                       else rn_alignment o :: alignments t))
                   (rn_headerText o) = Value true).
  { unfold hasRowNumbers. cbn [rows].
    pose proof (addRowNumbers_loop_numbered b o (separatorIndex t) (r0 :: rws) Hs Hn)
      as Hd.
    destruct (addRowNumbers_loop_header b o (separatorIndex t) r0 rws (startNumber o))
      as (rest & rws' & Eh).
    rewrite Eh in Hd |- *.
    change (firstCell (rn_headerText o :: rest)) with (Some (rn_headerText o)).
    cbn [option_map].
    assert (Hk : existsb (str_eqb (trim (toLowerCase (rn_headerText o))))
                   (knownHeaders (rn_headerText o)) = true).
    { apply existsb_str_eqb. rewrite trim_toLowerCase, Ht. unfold knownHeaders.
      simpl. tauto. }
    rewrite Hk. cbn [negb]. rewrite Hd. reflexivity. }
  split; [exact Hhas|].
  unfold addRowNumbers. rewrite Hhas.
  cbn [rows separatorIndex startLine endLine alignments].
  rewrite addRowNumbers_loop_again. destruct b; reflexivity.
Qed.

Lemma X18_addRowNumbers_witness :
  exists t',
    addRowNumbers people getDefaultRowNumberOptions = Value t'
    /\ hasRowNumbers t' (rn_headerText getDefaultRowNumberOptions) = Value true
    /\ addRowNumbers t' getDefaultRowNumberOptions = Value t'.
Proof.
  apply (X18_addRowNumbers_is_idempotent people getDefaultRowNumberOptions).
  - discriminate.
  - reflexivity.
  - vm_compute. discriminate.
  - split; vm_compute; discriminate.
Defined.

(** ** Sorting *)

Lemma sort_insert_perm {A} (cmp : A -> A -> Z) (x : A) (l : list A) :
  Permutation.Permutation (x :: l) (sort_insert cmp x l).
Proof.
  induction l as [|y l IH]; [apply Permutation.Permutation_refl|].
  cbn [sort_insert]. destruct (0 <? cmp x y).
  - eapply Permutation.perm_trans; [apply Permutation.perm_swap|].
    apply Permutation.perm_skip. exact IH.
  - apply Permutation.Permutation_refl.
Qed.

Lemma sort_perm {A} (cmp : A -> A -> Z) (l : list A) :
  Permutation.Permutation l (sort cmp l).
Proof.
  induction l as [|x l IH]; [apply Permutation.perm_nil|].
  cbn [sort]. eapply Permutation.perm_trans; [|apply sort_insert_perm].
  apply Permutation.perm_skip. exact IH.
Qed.

Section SortOrder.

Context {A : Type} (cmp : A -> A -> Z).
Hypothesis cmp_total : forall x y, 0 < cmp x y -> cmp y x <= 0.
Hypothesis cmp_trans : forall x y z, cmp x y <= 0 -> cmp y z <= 0 -> cmp x z <= 0.

Lemma sort_insert_Forall (P : A -> Prop) (x : A) (l : list A) :
  P x -> Forall P l -> Forall P (sort_insert cmp x l).
Proof.
  intros Hx Hl. induction Hl as [|y l Hy Hl IH]; cbn [sort_insert].
  - constructor; [exact Hx | constructor].
  - destruct (0 <? cmp x y); constructor; auto.
Qed.

Lemma sort_insert_sorted (x : A) (l : list A) :
  StronglySorted (fun a b => cmp a b <= 0) l ->
  StronglySorted (fun a b => cmp a b <= 0) (sort_insert cmp x l).
Proof.
  intro H. induction H as [|y l Hs IH Hy]; cbn [sort_insert].
  - constructor; constructor.
  - destruct (0 <? cmp x y) eqn:E.
    + apply Z.ltb_lt in E. constructor; [exact IH|].
      apply sort_insert_Forall; [apply cmp_total; exact E | exact Hy].
    + apply Z.ltb_ge in E. constructor; [constructor; assumption|].
      constructor; [exact E|].
      eapply Forall_impl; [|exact Hy]. intros z Hz.
      eapply cmp_trans; eassumption.
Qed.

Lemma sort_sorted (l : list A) :
  StronglySorted (fun a b => cmp a b <= 0) (sort cmp l).
Proof.
  induction l as [|x l IH]; [constructor|].
  cbn [sort]. apply sort_insert_sorted. exact IH.
Qed.

End SortOrder.

(** A list already in order is left as it is, whatever the comparator. *)
Lemma sort_sorted_id {A} (cmp : A -> A -> Z) (l : list A) :
  StronglySorted (fun a b => cmp a b <= 0) l -> sort cmp l = l.
Proof.
  intro H. induction H as [|x l Hs IH Hx]; [reflexivity|].
  cbn [sort]. rewrite IH. destruct l as [|y l]; [reflexivity|].
  cbn [sort_insert].
  replace (0 <? cmp x y) with false; [reflexivity|].
  symmetry. apply Z.ltb_ge. exact (Forall_inv Hx).
Qed.

Lemma subSign_antisym (a b : jsnum) : subSign b a = - subSign a b.
Proof.
  destruct a as [p|[]], b as [q|[]]; try reflexivity.
  cbn [subSign]. rewrite <- (Qcompare_antisym p q).
  destruct (Qcompare p q); reflexivity.
Qed.

Lemma subSign_Num_le (p q : Q) : subSign (Num p) (Num q) <= 0 <-> (p <= q)%Q.
Proof.
  cbn [subSign]. rewrite Qle_alt.
  destruct (Qcompare p q); split; intro H; try lia; try discriminate;
    try (exfalso; apply H; reflexivity).
Qed.

Lemma subSign_trans (a b c : jsnum) :
  subSign a b <= 0 -> subSign b c <= 0 -> subSign a c <= 0.
Proof.
  destruct a as [p|[]], b as [q|[]], c as [r|[]];
    try (cbn [subSign Bool.eqb]; intros; lia).
  rewrite !subSign_Num_le. apply Qle_trans.
Qed.

Lemma data_rows_filter {A} (hdr sep : A) (data : list A) :
  filteri (fun i => negb (i =? 0) && negb (i =? 1)) (hdr :: sep :: data) = data.
Proof.
  unfold filteri. cbn [filteri_from]. change (0 =? 0) with true.
  change (0 + 1 =? 0) with false. change (0 + 1 =? 1) with true.
  cbn [negb andb]. change (0 + 1 + 1) with 2.
  assert (G : forall k, 2 <= k ->
            filteri_from (fun i => negb (i =? 0) && negb (i =? 1)) k data = data).
  { induction data as [|x l IH]; intros k Hk; [reflexivity|].
    cbn [filteri_from].
    replace (k =? 0) with false by (symmetry; apply Z.eqb_neq; lia).
    replace (k =? 1) with false by (symmetry; apply Z.eqb_neq; lia).
    cbn [negb andb]. rewrite IH by lia. reflexivity. }
  apply G. lia.
Qed.

Lemma sortTable_rows (localeCompare : str -> str -> Z)
    (Date_getTime : str -> option Z) (t : MarkdownTable) (o : SortOptions)
    (hdr sep : list str) (data : list (list str)) :
  rows t = hdr :: sep :: data ->
  separatorIndex t = 1 ->
  sortTable localeCompare Date_getTime t o
  = Value (mkTable (startLine t) (endLine t)
             (hdr :: sep :: sort (compareRows localeCompare Date_getTime o) data)
             1 (alignments t)).
Proof.
  intros Hrows Hsep. unfold sortTable. rewrite Hrows, Hsep.
  rewrite data_rows_filter.
  change (nthZ (hdr :: sep :: data) 0) with (Some hdr).
  change (nthZ (hdr :: sep :: data) 1) with (Some sep).
  destruct (keepHeaderRow o); reflexivity.
Qed.

(** X19: under the numeric and the date sort type, [sortTable] keeps the
    header and the separator row in place and returns the data rows
    rearranged (no row lost, added or changed) and in order: no row is
    followed, anywhere later, by a row that the comparator puts before
    it. *)
Theorem X19_sortTable_permutes_and_orders :
  forall (localeCompare : str -> str -> Z) (Date_getTime : str -> option Z)
         (t : MarkdownTable) (o : SortOptions)
         (hdr sep : list str) (data : list (list str)),
    rows t = hdr :: sep :: data ->
    separatorIndex t = 1 ->
    sortType o <> SortText ->
    exists sorted,
      sortTable localeCompare Date_getTime t o
      = Value (mkTable (startLine t) (endLine t) (hdr :: sep :: sorted)
                 1 (alignments t))
      /\ Permutation.Permutation data sorted
      /\ StronglySorted
           (fun a b => compareRows localeCompare Date_getTime o a b <= 0) sorted.
Proof.
  intros lc dg t o hdr sep data Hrows Hsep Hty.
  exists (sort (compareRows lc dg o) data).
  split; [apply sortTable_rows; assumption|].
  split; [apply sort_perm|].
  apply sort_sorted.
  - intros x y. unfold compareRows.
    destruct (sortType o); [contradiction| |]; destruct (direction o);
      try rewrite (subSign_antisym
                     (numericKey (orStr (nthZ x (columnIndex o)) []))
                     (numericKey (orStr (nthZ y (columnIndex o)) []))); lia.
  - intros x y z. unfold compareRows.
    destruct (sortType o); [contradiction| |]; destruct (direction o); try lia.
    + apply subSign_trans.
    + set (kx := numericKey (orStr (nthZ x (columnIndex o)) [])).
      set (ky := numericKey (orStr (nthZ y (columnIndex o)) [])).
      set (kz := numericKey (orStr (nthZ z (columnIndex o)) [])).
      pose proof (subSign_antisym kx ky) as A1.
      pose proof (subSign_antisym ky kz) as A2.
      pose proof (subSign_antisym kx kz) as A3.
      pose proof (subSign_trans kz ky kx) as T.
      lia.
Qed.

Lemma X19_sortTable_witness :
  exists sorted,
    sortTable (fun _ _ => 0) (fun _ => None) people
      (mkSortOptions 1 Ascending SortNumeric false true)
    = Value (mkTable (startLine people) (endLine people)
               ([lit "Name"; lit "Age"] :: [lit "---"; lit "---"] :: sorted)
               1 (alignments people))
    /\ Permutation.Permutation [ [lit "Alice"; lit "30"]; [lit "Bob"; lit "25"] ] sorted
    /\ StronglySorted
         (fun a b => compareRows (fun _ _ => 0) (fun _ => None)
                       (mkSortOptions 1 Ascending SortNumeric false true) a b <= 0)
         sorted.
Proof.
  apply (X19_sortTable_permutes_and_orders (fun _ _ => 0) (fun _ => None) people
           (mkSortOptions 1 Ascending SortNumeric false true)
           [lit "Name"; lit "Age"] [lit "---"; lit "---"]
           [ [lit "Alice"; lit "30"]; [lit "Bob"; lit "25"] ]).
  - reflexivity.
  - reflexivity.
  - discriminate.
Defined.

(** X20: a table whose data rows are already in the order of the
    comparator (every row before or level with each later row) is returned
    by [sortTable] with its rows unchanged, for every sort type and
    direction: rows that compare level are never swapped. *)
Theorem X20_sortTable_keeps_sorted_rows :
  forall (localeCompare : str -> str -> Z) (Date_getTime : str -> option Z)
         (t : MarkdownTable) (o : SortOptions)
         (hdr sep : list str) (data : list (list str)),
    rows t = hdr :: sep :: data ->
    separatorIndex t = 1 ->
    StronglySorted
      (fun a b => compareRows localeCompare Date_getTime o a b <= 0) data ->
    sortTable localeCompare Date_getTime t o = Value t.
Proof.
  intros lc dg t o hdr sep data Hrows Hsep Hs.
  rewrite (sortTable_rows lc dg t o hdr sep data Hrows Hsep).
  rewrite sort_sorted_id by exact Hs.
  rewrite <- Hrows, <- Hsep. destruct t; reflexivity.
Qed.

Lemma X20_sortTable_witness :
  sortTable (fun _ _ => 0) (fun _ => None) people getDefaultSortOptions
  = Value people.
Proof.
  apply (X20_sortTable_keeps_sorted_rows (fun _ _ => 0) (fun _ => None) people
           getDefaultSortOptions
           [lit "Name"; lit "Age"] [lit "---"; lit "---"]
           [ [lit "Alice"; lit "30"]; [lit "Bob"; lit "25"] ]).
  - reflexivity.
  - reflexivity.
  - repeat constructor; vm_compute; discriminate.
Defined.

(** ** Escaping for HTML *)

Lemma replaceChar_flat_map (c : ascii) (e : str) (f : ascii -> str) (text : str) :
  replaceChar c e (flat_map f text) = flat_map (fun x => replaceChar c e (f x)) text.
Proof.
  unfold replaceChar. induction text as [|x text IH]; [reflexivity|].
  cbn [flat_map]. rewrite flat_map_app, IH. reflexivity.
Qed.

Lemma escapeChar_passes (x : ascii) :
  replaceChar APOS (lit "&#39;")
    (replaceChar DQUOTE (lit "&quot;")
       (replaceChar GT (lit "&gt;")
          (replaceChar LT (lit "&lt;")
             (if ceqb x AMP then lit "&amp;" else [x]))))
  = escapeChar x.
Proof. destruct x as [[] [] [] [] [] [] [] []]; vm_compute; reflexivity. Qed.

Lemma escapeChar_safe (x : ascii) :
  forallb (fun c => negb (isMarkup c)) (escapeChar x) = true.
Proof. destruct x as [[] [] [] [] [] [] [] []]; vm_compute; reflexivity. Qed.

(** X21: the five replacements of [escapeHtml], done one after the other,
    amount to one pass that rewrites each character on its own (the
    ampersands written by the later replacements are not escaped again), and
    the escaped text contains none of the characters [<], [>], the double
    quote and the apostrophe. *)
Theorem X21_escapeHtml_is_one_pass_and_safe :
  forall text : str,
    escapeHtml text = flat_map escapeChar text
    /\ forallb (fun c => negb (isMarkup c)) (escapeHtml text) = true.
Proof.
  intro text.
  assert (E : escapeHtml text = flat_map escapeChar text).
  { unfold escapeHtml. unfold replaceChar at 5.
    rewrite !replaceChar_flat_map. apply flat_map_ext. apply escapeChar_passes. }
  split; [exact E|]. rewrite E. clear E.
  induction text as [|x text IH]; [reflexivity|].
  cbn [flat_map]. rewrite forallb_app, IH, andb_true_r.
  apply escapeChar_safe.
Qed.

(** ** A new table *)

Lemma trimmed_app_black (a b : str) :
  a <> [] -> cleanStart a -> b <> [] -> Forall (fun c => isWhite c = false) b ->
  trimmed (a ++ b).
Proof.
  intros Ha Hc Hb Hall. split.
  - destruct a as [|x a]; [contradiction | exact Hc].
  - rewrite rev_app_distr. destruct (rev b) as [|c r] eqn:E.
    + apply (f_equal (@rev ascii)) in E. rewrite rev_involutive in E. contradiction.
    + cbn [app cleanStart]. rewrite Forall_forall in Hall. apply Hall.
      apply in_rev. rewrite E. left. reflexivity.
Qed.

Lemma isDigit_not_pipe (c : ascii) : isDigit c = true -> ceqb c PIPE = false.
Proof.
  destruct c as [[] [] [] [] [] [] [] []]; intro H; try reflexivity;
    vm_compute in H; discriminate H.
Qed.

Lemma columnName_parsed (n : Z) :
  0 <= n ->
  trimmed (lit "Column " ++ String_of_number n)
  /\ noChar PIPE (lit "Column " ++ String_of_number n).
Proof.
  intro Hn. destruct (String_of_number_digits n Hn) as (c & s & E & Hd).
  rewrite E. rewrite forallb_forall in Hd. split.
  - apply trimmed_app_black; try discriminate; [reflexivity|].
    apply Forall_forall. intros x Hx. apply isDigit_black, Hd, Hx.
  - apply Forall_app. split; [repeat constructor|].
    apply Forall_forall. intros x Hx. apply isDigit_not_pipe, Hd, Hx.
Qed.

(** X22: the table that [createEmptyTable] builds is what the locator
    reads from its own lines.  For at least one row and one column and an
    alignment other than [none], rendering the new table with [tableToLines]
    and locating in those lines finds exactly that table: the same rows,
    line range, separator index and alignments. *)
Theorem X22_createEmptyTable_is_located_in_its_lines :
  forall (rws columns : Z) (alignment : ColumnAlignment) (ignoreCodeBlocks : bool),
    1 <= rws -> 1 <= columns -> alignment <> AlignNone ->
    findTables (tableToLines (createEmptyTable rws columns alignment)) ignoreCodeBlocks
    = Some [createEmptyTable rws columns alignment].
Proof.
  intros rws columns a icb Hr Hc Ha.
  set (t := createEmptyTable rws columns a).
  destruct (Z.to_nat columns) as [|k] eqn:Ek; [lia|].
  set (marker := match a with
                 | AlignCenter => lit ":---:"
                 | AlignRight => lit "---:"
                 | _ => lit ":---"
                 end).
  assert (Hm : isSeparatorCell marker = true /\ trimmed marker /\ noChar PIPE marker
               /\ getAlignmentFromSeparator marker = a).
  { unfold marker. destruct a; try contradiction;
      (split; [vm_compute; reflexivity|]); (split; [split; reflexivity|]);
      (split; [repeat constructor | reflexivity]). }
  destruct Hm as (Hm1 & Hm2 & Hm3 & Hm4).
  assert (Hrows : rows t
                  = map (fun c => lit "Column " ++ String_of_number (Z.of_nat c + 1))
                        (seq 0 (S k))
                    :: repeat marker (S k)
                    :: repeat (repeat [] (S k)) (Z.to_nat (rws - 1))).
  { unfold t, createEmptyTable. cbn [rows]. rewrite Ek. reflexivity. }
  rewrite (findTables_tableToLines icb t _ _ _ Hrows).
  - rewrite Hrows. unfold t, createEmptyTable. rewrite Ek. fold marker.
    do 2 f_equal. f_equal.
    + cbn [length]. rewrite repeat_length. lia.
    + unfold parseAlignments. rewrite map_repeat, Hm4. reflexivity.
  - rewrite Hrows. constructor; [|constructor].
    + split; [discriminate|]. rewrite Forall_map. apply Forall_forall.
      intros c _. apply columnName_parsed. lia.
    + split; [discriminate|]. apply Forall_forall. intros c Hc'.
      apply repeat_spec in Hc'. subst c. split; assumption.
    + apply Forall_forall. intros row Hrow. apply repeat_spec in Hrow. subst row.
      split; [discriminate|]. apply Forall_forall. intros c Hc'.
      apply repeat_spec in Hc'. subst c. split; [split; exact I | constructor].
  - cbn [seq map forallb]. apply andb_false_iff. left. vm_compute. reflexivity.
  - apply forallb_forall. intros c Hc'. apply repeat_spec in Hc'. subst c. exact Hm1.
Qed.

Lemma X22_createEmptyTable_witness :
  findTables (tableToLines (createEmptyTable 3 2 AlignLeft)) true
  = Some [createEmptyTable 3 2 AlignLeft].
Proof.
  apply (X22_createEmptyTable_is_located_in_its_lines 3 2 AlignLeft true).
  - vm_compute. discriminate.
  - vm_compute. discriminate.
  - discriminate.
Defined.

(** ** The column under the cursor *)

Lemma getColumnAtPosition_loop_count (line : str) :
  forall i charPosition columnIndex,
    getColumnAtPosition_loop line i charPosition columnIndex
    = columnIndex
      + Z.of_nat (length (filter (fun x => ceqb x PIPE)
                            (firstn (Z.to_nat (charPosition - i + 1)) line))).
Proof.
  induction line as [|c line IH]; intros i p k.
  - cbn [getColumnAtPosition_loop]. rewrite firstn_nil. cbn [filter length]. lia.
  - cbn [getColumnAtPosition_loop]. destruct (i <=? p) eqn:E.
    + apply Z.leb_le in E. rewrite IH.
      replace (Z.to_nat (p - i + 1)) with (S (Z.to_nat (p - (i + 1) + 1))) by lia.
      cbn [firstn filter]. destruct (ceqb c PIPE); cbn [length]; lia.
    + apply Z.leb_gt in E.
      replace (Z.to_nat (p - i + 1)) with 0%nat by lia.
      cbn [firstn filter length]. lia.
Qed.

Lemma joinRow_upToCell (before : list str) (cell : str) (after : list str) :
  exists rest,
    joinRow (before ++ cell :: after) = upToCell before ++ PIPE :: cell ++ PIPE :: rest.
Proof.
  unfold joinRow, upToCell. induction before as [|b bs IH].
  - cbn [app flat_map]. destruct after as [|a after].
    + exists []. reflexivity.
    + exists (join [PIPE] (a :: after) ++ [PIPE]).
      cbn [join]. rewrite <- !app_assoc. reflexivity.
  - destruct IH as (rest & IH). exists rest.
    cbn [flat_map]. rewrite <- app_assoc, <- IH.
    destruct (bs ++ cell :: after) as [|x l] eqn:E.
    + destruct bs; discriminate E.
    + change ((b :: bs) ++ cell :: after) with (b :: (bs ++ cell :: after)).
      rewrite E. cbn [join app]. rewrite <- !app_assoc. reflexivity.
Qed.

Lemma pipes_upToCell (before : list str) :
  Forall (noChar PIPE) before ->
  length (filter (fun x => ceqb x PIPE) (upToCell before)) = length before.
Proof.
  unfold upToCell. induction 1 as [|b bs Hb _ IH]; [reflexivity|].
  cbn [flat_map]. rewrite filter_app. cbn [filter]. rewrite ceqb_refl.
  cbn [length]. rewrite length_app, IH. f_equal.
  replace (filter (fun x => ceqb x PIPE) b) with (@nil ascii); [reflexivity|].
  symmetry. clear -Hb. induction Hb as [|x b Hx _ IH]; [reflexivity|].
  cbn [filter]. rewrite Hx. exact IH.
Qed.

(** X23: in a rendered row, a cursor anywhere from the pipe that opens a
    cell to the last character of that cell is in that cell's column:
    [getColumnAtPosition] returns the number of cells before it. *)
Theorem X23_getColumnAtPosition_names_the_cell :
  forall (before : list str) (cell : str) (after : list str) (offset : Z),
    Forall (noChar PIPE) before ->
    noChar PIPE cell ->
    0 <= offset <= len cell ->
    getColumnAtPosition (joinRow (before ++ cell :: after))
                        (len (upToCell before) + offset)
    = Z.of_nat (length before).
Proof.
  intros before cell after off Hb Hc Hoff.
  destruct (joinRow_upToCell before cell after) as (rest & ->).
  unfold getColumnAtPosition. rewrite getColumnAtPosition_loop_count.
  unfold len in *.
  replace (Z.to_nat (Z.of_nat (length (upToCell before)) + off - 0 + 1))
    with (length (upToCell before) + S (Z.to_nat off))%nat by lia.
  rewrite firstn_app_2. cbn [firstn].
  rewrite firstn_app.
  replace (Z.to_nat off - length cell)%nat with 0%nat by lia.
  cbn [firstn]. rewrite app_nil_r.
  rewrite filter_app, length_app, (pipes_upToCell before Hb).
  cbn [filter]. rewrite ceqb_refl. cbn [length].
  replace (filter (fun x => ceqb x PIPE) (firstn (Z.to_nat off) cell))
    with (@nil ascii); [cbn [length]; lia|].
  symmetry. clear -Hc. revert cell Hc.
  induction (Z.to_nat off) as [|n IH]; intros cell Hc; [reflexivity|].
  destruct Hc as [|x cell Hx Hc]; [reflexivity|].
  cbn [firstn filter]. rewrite Hx. apply IH. exact Hc.
Qed.

Lemma X23_getColumnAtPosition_witness :
  getColumnAtPosition (joinRow ([lit " a "] ++ lit " bc " :: [lit " d "]))
                      (len (upToCell [lit " a "]) + 2)
  = Z.of_nat (length [lit " a "]).
Proof.
  apply (X23_getColumnAtPosition_names_the_cell [lit " a "] (lit " bc ") [lit " d "] 2).
  - repeat constructor.
  - repeat constructor.
  - vm_compute. split; discriminate.
Defined.

(** ** Column widths of a table *)

Lemma fold_left_maxInto_loop (rws : list (list str)) :
  forall k w, 0 <= k -> fold_left maxInto rws w = columnWidths_loop (-1) k rws w.
Proof.
  induction rws as [|row rws IH]; intros k w Hk; [reflexivity|].
  cbn [fold_left columnWidths_loop].
  replace (k =? -1) with false by (symmetry; apply Z.eqb_neq; lia).
  apply IH. lia.
Qed.

Lemma fold_left_maxInto_length (rws : list (list str)) :
  forall w, length (fold_left maxInto rws w) = length w.
Proof.
  induction rws as [|row rws IH]; intro w; [reflexivity|].
  cbn [fold_left]. rewrite IH. apply maxInto_length.
Qed.

(** X24: on a table with at least one row, [calculateColumnWidths] returns
    one width per column of the longest row; every cell of every row (the
    separator row included) is at most as long as the width of its column,
    and every width is 0 or the length of some cell of that column. *)
Theorem X24_calculateColumnWidths_are_the_column_maxima :
  forall t : MarkdownTable,
    rows t <> [] ->
    exists widths,
      calculateColumnWidths t = Value widths
      /\ Z.of_nat (length widths) = columnCountOf (rows t)
      /\ (forall row i cell,
            In row (rows t) -> nth_error row i = Some cell ->
            exists w, nth_error widths i = Some w /\ len cell <= w)
      /\ (forall i w,
            nth_error widths i = Some w ->
            w = 0 \/ exists row cell,
                       In row (rows t) /\ nth_error row i = Some cell /\ len cell = w).
Proof.
  intros t Hne. unfold calculateColumnWidths.
  destruct (rows t) as [|r0 rws] eqn:E; [contradiction|]. rewrite <- E. clear E Hne r0 rws.
  set (w0 := repeat 0 (Z.to_nat (columnCountOf (rows t)))).
  assert (Hpos : 0 <= columnCountOf (rows t))
    by (unfold columnCountOf; apply fold_left_max_ge).
  assert (Hlen0 : Z.of_nat (length w0) = columnCountOf (rows t))
    by (unfold w0; rewrite repeat_length; lia).
  eexists. split; [reflexivity|]. split; [|split].
  - rewrite fold_left_maxInto_length. exact Hlen0.
  - intros row i cell Hin Hcell.
    rewrite (fold_left_maxInto_loop (rows t) 0 w0) by lia.
    apply In_nth_error in Hin. destruct Hin as (r & Hr).
    apply (columnWidths_loop_cell (-1) (rows t) 0 w0 r row i cell Hr); [lia | exact Hcell|].
    assert (Hi : (i < length row)%nat)
      by (apply nth_error_Some; congruence).
    pose proof (columnCountOf_ge (rows t) row (nth_error_In _ _ Hr)). lia.
  - intros i w Hw.
    rewrite (fold_left_maxInto_loop (rows t) 0 w0) in Hw by lia.
    apply columnWidths_loop_attained in Hw.
    destruct Hw as [Hw | (r & row & cell & Hr & _ & Hc & Hl)].
    + left. apply nth_error_In in Hw. unfold w0 in Hw.
      apply repeat_spec in Hw. exact Hw.
    + right. exists row, cell. split; [exact (nth_error_In _ _ Hr)|].
      split; assumption.
Qed.

Lemma X24_calculateColumnWidths_witness :
  exists widths,
    calculateColumnWidths people = Value widths
    /\ Z.of_nat (length widths) = columnCountOf (rows people)
    /\ (forall row i cell,
          In row (rows people) -> nth_error row i = Some cell ->
          exists w, nth_error widths i = Some w /\ len cell <= w)
    /\ (forall i w,
          nth_error widths i = Some w ->
          w = 0 \/ exists row cell,
                     In row (rows people) /\ nth_error row i = Some cell /\ len cell = w).
Proof.
  apply (X24_calculateColumnWidths_are_the_column_maxima people). discriminate.
Defined.

(** ** Padding a cell *)

(** X25: [padCell] only adds spaces around the content, as many as the
    content is shorter than the width (none when it is not shorter): all
    after it under left and none, all before it under right, and under
    center split so that the right side gets the odd one. *)
Theorem X25_padCell_pads_to_the_width :
  forall (content : str) (width : Z) (alignment : ColumnAlignment),
    exists l r : nat,
      padCell content width alignment = repeat SPACE l ++ content ++ repeat SPACE r
      /\ Z.of_nat (l + r) = Z.max 0 (width - len content)
      /\ match alignment with
         | AlignRight => r = 0%nat
         | AlignCenter => (l <= r <= l + 1)%nat
         | AlignLeft | AlignNone => l = 0%nat
         end.
Proof.
  intros content width a. unfold padCell.
  destruct (width <=? len content) eqn:E.
  - apply Z.leb_le in E. exists 0%nat, 0%nat.
    split; [cbn [repeat app]; rewrite app_nil_r; reflexivity|].
    split; [lia | destruct a; lia].
  - apply Z.leb_gt in E. unfold repeatc.
    set (p := width - len content) in *.
    destruct a.
    + exists 0%nat, (Z.to_nat p). split; [reflexivity|]. split; lia.
    + exists (Z.to_nat (p / 2)), (Z.to_nat (p - p / 2)).
      split; [reflexivity|].
      pose proof (Z.div_mod p 2 ltac:(lia)) as Hd.
      pose proof (Z.mod_pos_bound p 2 ltac:(lia)) as Hm.
      split; lia.
    + exists (Z.to_nat p), 0%nat.
      split; [rewrite app_nil_r; reflexivity|]. split; lia.
    + exists 0%nat, (Z.to_nat p). split; [reflexivity|]. split; lia.
Qed.

(** ** Code block ranges *)

Lemma StronglySorted_snoc {A} (R : A -> A -> Prop) (l : list A) (x : A) :
  StronglySorted R l -> Forall (fun y => R y x) l -> StronglySorted R (l ++ [x]).
Proof.
  intros Hs Hall. induction Hs as [|y l Hs IH Hy]; cbn [app].
  - constructor; constructor.
  - constructor.
    + apply IH. exact (Forall_inv_tail Hall).
    + apply Forall_app. split; [exact Hy|].
      constructor; [exact (Forall_inv Hall) | constructor].
Qed.

Lemma fencedRange_mono (lines : list str) (b b' : Z) (r : Range) :
  b <= b' -> fencedRange lines b r -> fencedRange lines b' r.
Proof. intros Hb (H1 & H2 & H3). split; [exact H1|]. split; [lia | exact H3]. Qed.

Lemma findCodeBlockRanges_loop_inv (lines : list str) (rest : list str) :
  forall pre ranges open ranges' open',
    lines = pre ++ rest ->
    StronglySorted (fun a b => range_end a < range_start b) ranges ->
    Forall (fencedRange lines (Z.of_nat (length pre))) ranges ->
    match open with
    | None => True
    | Some (s, _) =>
        0 <= s < Z.of_nat (length pre)
        /\ (exists line, nthZ lines s = Some line /\ opensFence line = true)
        /\ Forall (fun r => range_end r < s) ranges
    end ->
    findCodeBlockRanges_loop rest (Z.of_nat (length pre)) ranges open
    = (ranges', open') ->
    StronglySorted (fun a b => range_end a < range_start b) ranges'
    /\ Forall (fencedRange lines (Z.of_nat (length lines))) ranges'
    /\ match open' with
       | None => True
       | Some (s, _) =>
           0 <= s < Z.of_nat (length lines)
           /\ (exists line, nthZ lines s = Some line /\ opensFence line = true)
           /\ Forall (fun r => range_end r < s) ranges'
       end.
Proof.
  induction rest as [|line rest IH]; intros pre ranges open ranges' open' E Hs Hg Ho H.
  - cbn [findCodeBlockRanges_loop] in H. injection H as <- <-.
    rewrite app_nil_r in E. subst pre. split; [exact Hs|]. split; [exact Hg | exact Ho].
  - assert (E' : lines = (pre ++ [line]) ++ rest)
      by (rewrite <- app_assoc; exact E).
    assert (Hi : Z.of_nat (length pre) + 1 = Z.of_nat (length (pre ++ [line])))
      by (rewrite length_app; cbn [length]; lia).
    assert (Hline : nthZ lines (Z.of_nat (length pre)) = Some line).
    { rewrite nthZ_nat, E, nth_error_app2 by lia.
      rewrite Nat.sub_diag. reflexivity. }
    assert (Hg' : Forall (fencedRange lines (Z.of_nat (length (pre ++ [line])))) ranges).
    { eapply Forall_impl; [|exact Hg]. intros r. apply fencedRange_mono. lia. }
    cbn [findCodeBlockRanges_loop] in H. rewrite Hi in H.
    destruct open as [[s d]|].
    + destruct Ho as (Hs1 & Hs2 & Hs3).
      destruct (startsWith (trim line) d
                && str_eqb (trim (removeAll TILDE (removeAll BACKTICK (trim line)))) []).
      * apply (IH _ _ _ _ _ E') in H; [exact H | | | exact I].
        -- apply StronglySorted_snoc; [exact Hs|].
           eapply Forall_impl; [|exact Hs3]. intros r Hr. exact Hr.
        -- apply Forall_app. split; [exact Hg'|].
           constructor; [|constructor].
           split; [cbn; lia|]. split; [cbn; lia | exact Hs2].
      * apply (IH _ _ _ _ _ E') in H; [exact H | exact Hs | exact Hg' |].
        split; [lia|]. split; assumption.
    + destruct (startsWith (trim line) (lit "```") || startsWith (trim line) (lit "~~~"))
        eqn:Eo.
      * apply (IH _ _ _ _ _ E') in H; [exact H | exact Hs | exact Hg' |].
        rewrite <- Hi. split; [lia|]. split; [exists line; split; assumption|].
        eapply Forall_impl; [|exact Hg]. intros r (_ & Hr & _). exact Hr.
      * apply (IH _ _ _ _ _ E') in H; [exact H | exact Hs | exact Hg' | exact I].
Qed.

(** X26: the code block ranges are well formed: every range starts at a
    fence line (one whose trimmed text begins with three backticks or three
    tildes), ends at or after its start and inside the document, and the
    ranges come in ascending order without overlap, each ending before the
    next one starts. *)
Theorem X26_findCodeBlockRanges_are_fenced_and_ordered :
  forall lines : list str,
    StronglySorted (fun a b => range_end a < range_start b) (findCodeBlockRanges lines)
    /\ Forall (fencedRange lines (Z.of_nat (length lines))) (findCodeBlockRanges lines).
Proof.
  intro lines. unfold findCodeBlockRanges.
  destruct (findCodeBlockRanges_loop lines 0 [] None) as [ranges open] eqn:E.
  apply (findCodeBlockRanges_loop_inv lines lines [] [] None ranges open eq_refl)
    in E; [| constructor | constructor | exact I].
  destruct E as (Hs & Hg & Ho).
  destruct open as [[s d]|]; [|split; assumption].
  destruct Ho as (Hs1 & Hs2 & Hs3). split.
  - apply StronglySorted_snoc; [exact Hs|].
    eapply Forall_impl; [|exact Hs3]. intros r Hr. exact Hr.
  - apply Forall_app. split; [exact Hg|].
    constructor; [|constructor].
    split; [cbn; lia|]. split; [cbn; lia | exact Hs2].
Qed.

(** ** CSV lines under any delimiter *)

Lemma parse_plain_any (d : ascii) (s : str) :
  noChar DQUOTE s -> noChar d s ->
  forall rest acc cur,
    parseCsvLine_loop [d] (s ++ rest) acc cur false
    = parseCsvLine_loop [d] rest acc (cur ++ s) false.
Proof.
  induction s as [|x s IH]; intros Hq Hc rest acc cur.
  - rewrite app_nil_r. reflexivity.
  - inversion Hq as [|? ? Hx Hq']; inversion Hc as [|? ? Hx' Hc']; subst.
    cbn [app parseCsvLine_loop]. rewrite Hx.
    cbn [str_eqb]. rewrite Hx'. cbn [andb].
    rewrite IH by assumption. rewrite <- app_assoc. reflexivity.
Qed.

Lemma parse_quoted_any (d : ascii) (s : str) :
  forall rest acc cur,
    match rest with [] => True | x :: _ => ceqb x DQUOTE = false end ->
    parseCsvLine_loop [d] (doubleQuotes s ++ DQUOTE :: rest) acc cur true
    = parseCsvLine_loop [d] rest acc (cur ++ s) false.
Proof.
  induction s as [|x s IH]; intros rest acc cur Hrest.
  - rewrite app_nil_r. cbn [doubleQuotes app parseCsvLine_loop].
    rewrite ceqb_refl. destruct rest as [|y rest']; [reflexivity|].
    rewrite Hrest. reflexivity.
  - cbn [doubleQuotes]. destruct (ceqb x DQUOTE) eqn:Hx.
    + apply ceqb_eq in Hx. subst x.
      cbn [app parseCsvLine_loop]. rewrite ceqb_refl.
      rewrite IH by exact Hrest. rewrite <- app_assoc. reflexivity.
    + cbn [app parseCsvLine_loop]. rewrite Hx. rewrite andb_false_r.
      rewrite IH by exact Hrest. rewrite <- app_assoc. reflexivity.
Qed.

Lemma parse_cell_any (o : CsvOptions) (d : ascii) (cell rest : str) (acc : list str) :
  delimiter o = [d] ->
  match rest with [] => True | x :: _ => ceqb x DQUOTE = false end ->
  (quoteStrings o = QuoteNever -> noChar d cell /\ noChar DQUOTE cell) ->
  parseCsvLine_loop [d] (csvCell o cell ++ rest) acc [] false
  = parseCsvLine_loop [d] rest acc cell false.
Proof.
  intros Hd Hrest Hnever. unfold csvCell. rewrite Hd.
  assert (Q : parseCsvLine_loop [d] (([DQUOTE] ++ doubleQuotes cell ++ [DQUOTE]) ++ rest)
                acc [] false
              = parseCsvLine_loop [d] rest acc cell false).
  { rewrite <- !app_assoc. cbn [app parseCsvLine_loop]. rewrite ceqb_refl.
    cbn [negb]. rewrite parse_quoted_any by exact Hrest. reflexivity. }
  destruct (quoteStrings o).
  - exact Q.
  - destruct (includes cell [d] || includes cell [LF] || includes cell [DQUOTE]) eqn:E;
      [exact Q|].
    apply orb_false_iff in E as [E Hq]. apply orb_false_iff in E as [Hc _].
    apply includes_single in Hq. apply includes_single in Hc.
    rewrite parse_plain_any by assumption. reflexivity.
  - destruct (Hnever eq_refl) as [Hc Hq].
    rewrite parse_plain_any by assumption. reflexivity.
Qed.

Lemma parse_row_any (o : CsvOptions) (d : ascii) (row : list str) :
  delimiter o = [d] -> ceqb d DQUOTE = false ->
  forall c acc,
    (quoteStrings o = QuoteNever ->
     Forall (fun cell => noChar d cell /\ noChar DQUOTE cell) (c :: row)) ->
    parseCsvLine_loop [d] (join [d] (map (csvCell o) (c :: row))) acc [] false
    = acc ++ c :: row.
Proof.
  intros Hd Hdq. induction row as [|c2 row IH]; intros c acc Hnever.
  - cbn [map join]. rewrite <- (app_nil_r (csvCell o c)).
    rewrite (parse_cell_any o d) by
      (try exact Hd; try exact I; intro Hn; exact (Forall_inv (Hnever Hn))).
    reflexivity.
  - cbn [map join]. cbn [map join] in IH.
    rewrite (parse_cell_any o d) by
      (try exact Hd; try exact Hdq; intro Hn; exact (Forall_inv (Hnever Hn))).
    cbn [app parseCsvLine_loop]. rewrite Hdq.
    cbn [str_eqb]. rewrite ceqb_refl. cbn [andb negb].
    rewrite IH by (intro Hn; exact (Forall_inv_tail (Hnever Hn))).
    rewrite <- app_assoc. reflexivity.
Qed.

(** X27: [parseCsvLine] reads back the text that [tableToCsv] writes for
    a row, under every one-character delimiter other than the double quote:
    with quoting [always] or [auto] whatever the cells contain (delimiters
    and double quotes included), and with quoting [never] when no cell
    contains the delimiter or a double quote. *)
Theorem X27_parseCsvLine_reads_a_written_row :
  forall (o : CsvOptions) (d : ascii) (row : list str),
    delimiter o = [d] ->
    d <> DQUOTE ->
    row <> [] ->
    (quoteStrings o = QuoteNever ->
     Forall (fun cell => noChar d cell /\ noChar DQUOTE cell) row) ->
    parseCsvLine (join (delimiter o) (map (csvCell o) row)) (delimiter o) = row.
Proof.
  intros o d row Hd Hq Hne Hnever.
  destruct row as [|c row]; [contradiction|].
  rewrite Hd. unfold parseCsvLine.
  apply (parse_row_any o d row Hd); [apply ceqb_neq; exact Hq | exact Hnever].
Qed.

Lemma X27_parseCsvLine_witness :
  parseCsvLine
    (join (delimiter (mkCsvOptions [chr 59] true true QuoteAlways true))
       (map (csvCell (mkCsvOptions [chr 59] true true QuoteAlways true))
            [lit "a;b"; [DQUOTE]; []]))
    (delimiter (mkCsvOptions [chr 59] true true QuoteAlways true))
  = [lit "a;b"; [DQUOTE]; []].
Proof.
  apply (X27_parseCsvLine_reads_a_written_row
           (mkCsvOptions [chr 59] true true QuoteAlways true) (chr 59)).
  - reflexivity.
  - discriminate.
  - discriminate.
  - discriminate.
Defined.

(** ** Transposing *)

Lemma map_nth_seq' {A} (l : list A) (d : A) :
  map (fun i => nth i l d) (seq 0 (length l)) = l.
Proof.
  induction l as [|x l IH]; [reflexivity|].
  cbn [length seq map nth]. f_equal.
  rewrite <- seq_shift, map_map. exact IH.
Qed.

Lemma orStr_nth_error (row : list str) (col : nat) :
  orStr (nth_error row col) [] = nth col row [].
Proof.
  revert col. induction row as [|c row IH]; intros [|col]; try reflexivity.
  - destruct c; reflexivity.
  - cbn [nth_error nth]. apply IH.
Qed.

Lemma mapM_Some {A B} (f : A -> option B) (g : A -> B) (l : list A) :
  Forall (fun x => f x = Some (g x)) l -> mapM f l = Some (map g l).
Proof.
  induction 1 as [|x l Hx _ IH]; [reflexivity|].
  cbn [mapM map]. rewrite Hx, IH. reflexivity.
Qed.

Lemma transposed_length (rws : list (list str)) (n : nat) :
  length (transposed rws n) = n
  /\ Forall (fun row => length row = length rws) (transposed rws n).
Proof.
  unfold transposed. split; [rewrite length_map; apply length_seq|].
  apply Forall_map. apply Forall_forall. intros col _.
  unfold column. apply length_map.
Qed.

(** Transposing the transposed rows of a rectangle gives the rectangle. *)
Lemma transposed_involutive (rws : list (list str)) (n : nat) :
  Forall (fun row => length row = n) rws ->
  transposed (transposed rws n) (length rws) = rws.
Proof.
  intro Hall.
  transitivity (map (fun j => nth j rws []) (seq 0 (length rws)));
    [|apply map_nth_seq'].
  unfold transposed at 1. apply map_ext_in. intros j Hj. apply in_seq in Hj.
  assert (Hrow : length (nth j rws []) = n).
  { rewrite Forall_forall in Hall. apply Hall. apply nth_In. lia. }
  transitivity (map (fun col => nth col (nth j rws []) []) (seq 0 n));
    [|rewrite <- Hrow; apply map_nth_seq'].
  unfold column, transposed. rewrite map_map.
  apply map_ext. intro col. unfold column.
  pose proof (map_nth (fun row : list str => nth col row []) rws [] j) as Hm.
  cbv beta in Hm.
  assert (Hd : nth col (@nil str) [] = []) by (destruct col; reflexivity).
  rewrite Hd in Hm. exact Hm.
Qed.

(** [transposeTable] on a table whose separator is its second row and
    whose rows all have a first cell. *)
Lemma transposeTable_rows (t : MarkdownTable) (hdr sep : list str)
    (data : list (list str)) :
  rows t = hdr :: sep :: data ->
  separatorIndex t = 1 ->
  hdr <> [] ->
  Forall (fun row => row <> []) data ->
  transposeTable t
  = Value (mkTable (startLine t) (startLine t + Z.of_nat (length hdr))
             (column (hdr :: data) 0
              :: repeat (lit "---") (S (length data))
              :: tl (transposed (hdr :: data) (length hdr)))
             1 (repeat AlignNone (S (length data)))).
Proof.
  intros Hrows Hsep Hne Hdata. unfold transposeTable. rewrite Hrows, Hsep.
  rewrite data_rows_filter.
  destruct hdr as [|h0 hs]; [contradiction|].
  change (nthZ (h0 :: hs) 0) with (Some h0).
  rewrite (mapM_Some (fun row : list str => nthZ row 0)
             (fun row : list str => nth 0 row [])).
  - cbn [length]. rewrite Nat.sub_succ, Nat.sub_0_r.
    unfold transposed. cbn [seq map tl]. rewrite length_map.
    f_equal. f_equal.
    + rewrite length_seq. lia.
    + rewrite length_map. f_equal. f_equal. apply map_ext. intro col.
      unfold column. cbn [map]. f_equal.
      apply map_ext. intro row. apply orStr_nth_error.
    + rewrite length_map. reflexivity.
  - eapply Forall_impl; [|exact Hdata]. intros row Hrow.
    destruct row; [contradiction | reflexivity].
Qed.

(** X28: transposing twice gives back the cells.  On a table whose
    separator is its second row and whose data rows are as long as its
    header row (at least one cell), [transposeTable] applied twice returns
    the header row and the data rows as they were, with a separator row of
    plain [---] cells and every alignment [none]. *)
Theorem X28_transposeTable_twice :
  forall (t : MarkdownTable) (hdr sep : list str) (data : list (list str)),
    rows t = hdr :: sep :: data ->
    separatorIndex t = 1 ->
    hdr <> [] ->
    Forall (fun row => length row = length hdr) data ->
    exists t1,
      transposeTable t = Value t1
      /\ Z.of_nat (length (rows t1)) = Z.of_nat (length hdr) + 1
      /\ transposeTable t1
         = Value (mkTable (startLine t)
                    (startLine t + Z.of_nat (length data) + 1)
                    (hdr :: repeat (lit "---") (length hdr) :: data)
                    1 (repeat AlignNone (length hdr))).
Proof.
  intros t hdr sep data Hrows Hsep Hne Hall.
  assert (Hdata : Forall (fun row => row <> []) data).
  { eapply Forall_impl; [|exact Hall]. intros row Hrow ->.
    destruct hdr; [contradiction | discriminate Hrow]. }
  assert (Hrect : Forall (fun row => length row = length hdr) (hdr :: data))
    by (constructor; [reflexivity | exact Hall]).
  destruct (transposed_length (hdr :: data) (length hdr)) as [HTl HTr].
  pose proof (transposed_involutive (hdr :: data) (length hdr) Hrect) as Hinv.
  assert (HT : transposed (hdr :: data) (length hdr)
               = column (hdr :: data) 0 :: tl (transposed (hdr :: data) (length hdr))).
  { destruct hdr as [|h0 hs]; [contradiction|]. reflexivity. }
  rewrite HT in HTl, HTr, Hinv.
  set (T0 := column (hdr :: data) 0) in *.
  set (Trest := tl (transposed (hdr :: data) (length hdr))) in *.
  set (t1 := mkTable (startLine t) (startLine t + Z.of_nat (length hdr))
               (T0 :: repeat (lit "---") (S (length data)) :: Trest)
               1 (repeat AlignNone (S (length data)))).
  exists t1. split; [apply (transposeTable_rows t hdr sep data); assumption|].
  split.
  - cbn [t1 rows length]. cbn [length] in HTl. lia.
  - rewrite (transposeTable_rows t1 T0 (repeat (lit "---") (S (length data))) Trest
               eq_refl eq_refl).
    + assert (HT0 : length T0 = length (hdr :: data))
        by (apply (Forall_inv HTr)).
      assert (Hc : column (T0 :: Trest) 0 = hdr).
      { pose proof Hinv as H. unfold transposed in H.
        cbn [length seq map] in H. injection H as H _. exact H. }
      rewrite HT0, Hinv, Hc. cbn [tl]. cbn [length] in HTl |- *. rewrite HTl.
      change (startLine t1) with (startLine t).
      f_equal. f_equal. lia.
    + intro H0. unfold T0, column in H0. discriminate H0.
    + eapply Forall_impl; [|exact (Forall_inv_tail HTr)].
      intros row Hrow ->. discriminate Hrow.
Qed.

Lemma X28_transposeTable_witness :
  exists t1,
    transposeTable people = Value t1
    /\ Z.of_nat (length (rows t1)) = Z.of_nat (length [lit "Name"; lit "Age"]) + 1
    /\ transposeTable t1
       = Value (mkTable (startLine people)
                  (startLine people
                   + Z.of_nat (length [ [lit "Alice"; lit "30"]; [lit "Bob"; lit "25"] ])
                   + 1)
                  ([lit "Name"; lit "Age"]
                   :: repeat (lit "---") (length [lit "Name"; lit "Age"])
                   :: [ [lit "Alice"; lit "30"]; [lit "Bob"; lit "25"] ])
                  1 (repeat AlignNone (length [lit "Name"; lit "Age"]))).
Proof.
  apply (X28_transposeTable_twice people [lit "Name"; lit "Age"]
           [lit "---"; lit "---"]
           [ [lit "Alice"; lit "30"]; [lit "Bob"; lit "25"] ]).
  - reflexivity.
  - reflexivity.
  - discriminate.
  - repeat constructor.
Defined.

(** ** Formatting twice *)

(** What [formatTable] computes from the rows does not read the cells of
    the separator row, only how many there are. *)
Lemma format_parameters_skip_separator (t t' : MarkdownTable) (o : FormatOptions)
    (hdr s s' : list str) (data : list (list str)) :
  rows t = hdr :: s :: data -> separatorIndex t = 1 ->
  rows t' = hdr :: s' :: data -> separatorIndex t' = 1 ->
  length s' = length s ->
  columnWidthsOf t' = columnWidthsOf t
  /\ breakColumnIndexOf t' o = breakColumnIndexOf t o
  /\ breakColumnFittingWidthOf t' o = breakColumnFittingWidthOf t o.
Proof.
  intros Hr Hs Hr' Hs' Hlen.
  assert (Hcount : columnCountOf (rows t') = columnCountOf (rows t)).
  { rewrite Hr, Hr'. unfold columnCountOf. cbn [map]. rewrite Hlen. reflexivity. }
  assert (Hcw : columnWidthsOf t' = columnWidthsOf t).
  { unfold columnWidthsOf. rewrite Hcount, Hs, Hs', Hr, Hr'. reflexivity. }
  assert (Hb : breakColumnOf t' o = breakColumnOf t o).
  { unfold breakColumnOf. rewrite Hcw, Hcount. reflexivity. }
  split; [exact Hcw|]. split.
  - unfold breakColumnIndexOf. rewrite Hb. reflexivity.
  - unfold breakColumnFittingWidthOf. rewrite Hb, Hcount, Hs, Hs', Hr, Hr'.
    reflexivity.
Qed.

(** [formatTable] without separator ratios, on a table whose separator is
    its second row. *)
Lemma formatTable_cells_plain (t : MarkdownTable) (o : FormatOptions)
    (co : CompactOptions) (hdr sepRow : list str) (data : list (list str)) :
  fo_keepSeparatorRatios o = false ->
  rows t = hdr :: sepRow :: data ->
  separatorIndex t = 1 ->
  formatTable_cells t o co
  = Value
      ((if 0 <? maxWidth o
        then mapi (maxWidthCell (columnWidthsOf t)
                     (if preserveAlignment o then alignments t else []) o co
                     (breakColumnIndexOf t o) (breakColumnFittingWidthOf t o)) hdr
        else mapi (alignedCell (columnWidthsOf t)
                     (if preserveAlignment o then alignments t else []) o) hdr)
       :: mapi (separatorCell (columnWidthsOf t)
                  (if preserveAlignment o then alignments t else []) hdr o co
                  (breakColumnIndexOf t o) (breakColumnFittingWidthOf t o)) sepRow
       :: map (fun row =>
                 if 0 <? maxWidth o
                 then mapi (maxWidthCell (columnWidthsOf t)
                              (if preserveAlignment o then alignments t else []) o co
                              (breakColumnIndexOf t o) (breakColumnFittingWidthOf t o))
                           row
                 else mapi (alignedCell (columnWidthsOf t)
                              (if preserveAlignment o then alignments t else []) o) row)
              data).
Proof.
  intros Hk Hrows Hsep. unfold formatTable_cells. rewrite Hrows, Hsep, Hk.
  cbn [andb]. cbv iota. f_equal. apply mapi_three.
  - change (0 =? 1) with false. change (0 =? 0) with true. cbv iota. cbn [andb].
    destruct (0 <? maxWidth o); reflexivity.
  - reflexivity.
  - intros i row Hi.
    replace (i =? 1) with false by (symmetry; apply Z.eqb_neq; lia).
    replace (i =? 0) with false by (symmetry; apply Z.eqb_neq; lia).
    cbn [andb]. unfold formatRowWithMaxWidth_cells. reflexivity.
Qed.

Lemma separatorCell_again cw al hdr o co b w i cell :
  separatorCell cw al hdr o co b w i
    (trim (separatorCell cw al hdr o co b w i cell))
  = separatorCell cw al hdr o co b w i cell.
Proof.
  unfold separatorCell.
  destruct (i <? b); [apply createSeparatorCell_again|].
  destruct (i =? b); [|reflexivity].
  destruct (_ <=? _); [apply createSeparatorCell_again | reflexivity].
Qed.

(** X29: formatting is idempotent through the locator.  With
    [keepSeparatorRatios] off, formatting a located table, locating again in
    the formatted lines and formatting the table found there gives the same
    lines once more, whatever the width limit and the other options. *)
Theorem X29_formatTable_is_idempotent :
  forall (lines : list str) (ignoreCodeBlocks ignoreCodeBlocks' : bool)
         (t : MarkdownTable) (o : FormatOptions) (co : CompactOptions),
    located lines ignoreCodeBlocks t ->
    fo_keepSeparatorRatios o = false ->
    exists out t',
      formatTable t o co = Value out
      /\ findTables out ignoreCodeBlocks' = Some [t']
      /\ formatTable t' o co = Value out.
Proof.
  intros lines icb icb' t o co Hloc Hk. apply located_shape in Hloc.
  destruct Hloc as (hline & sline & dlines & Hh & Hhs & Hs & Hss & Hrows & Hsep & Hal).
  set (hdr := parseTableRow hline) in *.
  set (sepRow := parseTableRow sline) in *.
  set (data := map parseTableRow dlines) in *.
  pose proof (formatTable_cells_plain t o co hdr sepRow data Hk Hrows Hsep) as E.
  set (aligns := if preserveAlignment o then alignments t else []) in *.
  set (S := separatorCell (columnWidthsOf t) aligns hdr o co
              (breakColumnIndexOf t o) (breakColumnFittingWidthOf t o)) in *.
  set (G := fun row : list str =>
              if 0 <? maxWidth o
              then mapi (maxWidthCell (columnWidthsOf t) aligns o co
                           (breakColumnIndexOf t o) (breakColumnFittingWidthOf t o)) row
              else mapi (alignedCell (columnWidthsOf t) aligns o) row) in *.
  change (formatTable_cells t o co
          = Value (G hdr :: mapi S sepRow :: map G data)) in E.
  assert (HG : forall row, Forall2 keepsText row (G row)).
  { intro row. unfold G. destruct (0 <? maxWidth o); apply Forall2_mapi_from; intros;
      [apply maxWidthCell_keepsText | apply alignedCell_keepsText]. }
  assert (Hlen : length (mapi S sepRow) = length sepRow)
    by (unfold mapi; apply length_mapi_from).
  assert (Hall : Forall (fun c => isSeparatorCell c = true /\ noChar PIPE c)
                   (mapi S sepRow)).
  { apply Forall_forall. intros c Hc. apply In_nth_error in Hc.
    destruct Hc as (n & Hn). rewrite nth_error_mapi in Hn.
    destruct (nth_error sepRow n); [|discriminate].
    injection Hn as <-. apply separatorCell_separator. }
  set (t' := mkTable 0 (Z.of_nat (length (G hdr :: mapi S sepRow :: map G data)) - 1)
               (hdr :: map trim (mapi S sepRow) :: data) 1
               (parseAlignments (map trim (mapi S sepRow)))).
  exists (map joinRow (G hdr :: mapi S sepRow :: map G data)), t'.
  split; [unfold formatTable; rewrite E; reflexivity|]. split.
  - apply (findTables_rendered icb' hdr data).
    + apply parseTableRow_parsedRow.
    + unfold data. rewrite Forall_map. apply Forall_forall. intros l _.
      apply parseTableRow_parsedRow.
    + unfold hdr. rewrite forallb_isSeparatorCell_parsed by exact Hh. exact Hhs.
    + apply HG.
    + generalize data. intro d. induction d as [|row d IH]; constructor;
        [apply HG | exact IH].
    + destruct (parseTableRow_parsedRow sline) as [Hne _]. fold sepRow in Hne.
      intro Hnil. rewrite Hnil in Hlen.
      destruct sepRow; [contradiction | discriminate].
    + exact Hall.
  - assert (Hal' : (if preserveAlignment o then alignments t' else []) = aligns).
    { unfold aligns. destruct (preserveAlignment o) eqn:Hp; [|reflexivity].
      cbn [t' alignments]. rewrite Hal.
      apply parseAlignments_mapi with (al := alignments t); [|exact Hal].
      intros i cell Ha. unfold S, aligns. try rewrite Hp.
      apply separatorCell_alignment. exact Ha. }
    destruct (format_parameters_skip_separator t t' o hdr sepRow
                (map trim (mapi S sepRow)) data Hrows Hsep eq_refl eq_refl)
      as (Hcw & Hb & Hw); [rewrite length_map; exact Hlen|].
    unfold formatTable.
    rewrite (formatTable_cells_plain t' o co hdr (map trim (mapi S sepRow)) data
               Hk eq_refl eq_refl).
    rewrite Hal', Hcw, Hb, Hw. fold S. fold G.
    cbn [js_map]. do 2 f_equal.
    change (G hdr :: mapi S (map trim (mapi S sepRow)) :: map G data
            = G hdr :: mapi S sepRow :: map G data).
    do 2 f_equal.
    apply nth_error_ext. intro n. rewrite !nth_error_mapi, nth_error_map, nth_error_mapi.
    destruct (nth_error sepRow n) as [cell|]; [|reflexivity].
    cbn [option_map]. f_equal. apply separatorCell_again.
Qed.

Lemma X29_formatTable_witness :
  exists out t',
    formatTable wide_table width40 getDefaultCompactOptions = Value out
    /\ findTables out true = Some [t']
    /\ formatTable t' width40 getDefaultCompactOptions = Value out.
Proof.
  apply (X29_formatTable_is_idempotent wide_doc true true wide_table width40
           getDefaultCompactOptions).
  - exists [wide_table]. split; [vm_compute; reflexivity | left; reflexivity].
  - reflexivity.
Defined.
